(** * pptx-toolkit: colour rewriting, mapping parsing, theme and slide filters

    A shallow embedding of the Go sources of cmd/pptx-toolkit (processor.go,
    parser.go, pptx.go) and of the slide helpers (ParseSlideRange,
    ValidateSlideNumbers).

    Byte strings are [list ascii] (one [ascii] per byte).  The regular
    expressions of processor.go are written as data and run by a backtracking
    matcher that returns every match in the order a backtracking engine tries
    them; Go's regexp package returns the first of these (leftmost-first
    semantics), and [FindAllSubmatchIndex] repeats the search after the end of
    each match.  All patterns start with the ASCII byte '<' and their negated
    classes contain only ASCII bytes, so matching byte by byte agrees with Go
    matching rune by rune. *)

From Stdlib Require Import Ascii String List Bool Arith ZArith Lia.
From Stdlib Require Import Sorting.Sorted Sorting.Permutation.
From Stdlib Require Import Numbers.DecimalString.
Import ListNotations.

Open Scope list_scope.

Definition bytes := list ascii.

(** The double-quote byte. *)
Definition dq : ascii := ascii_of_nat 34.

(** String literals as byte strings; in these literals a backquote stands for
    the double-quote byte (no literal of the sources contains a backquote). *)
Definition lit (s : string) : bytes :=
  map (fun c => if Ascii.eqb c "`"%char then dq else c) (list_ascii_of_string s).

(** ** Byte-level helpers (Go's strings package on ASCII) *)

Definition is_ws (c : ascii) : bool :=
  (* the ASCII part of unicode.IsSpace *)
  match nat_of_ascii c with
  | 9 | 10 | 11 | 12 | 13 | 32 => true
  | _ => false
  end.

(** Go's regexp [\s] is [[\t\n\f\r ]]: no vertical tab. *)
Definition re_space (c : ascii) : bool :=
  match nat_of_ascii c with
  | 9 | 10 | 12 | 13 | 32 => true
  | _ => false
  end.

Definition is_hex_digit (c : ascii) : bool :=
  let n := nat_of_ascii c in
  ((48 <=? n) && (n <=? 57)) || ((65 <=? n) && (n <=? 70)) || ((97 <=? n) && (n <=? 102)).

Definition to_upper_ascii (c : ascii) : ascii :=
  let n := nat_of_ascii c in
  if (97 <=? n) && (n <=? 122) then ascii_of_nat (n - 32) else c.

(** strings.ToUpper on ASCII input. *)
Definition to_upper (s : bytes) : bytes := map to_upper_ascii s.

Fixpoint bytes_eqb (a b : bytes) : bool :=
  match a, b with
  | [], [] => true
  | x :: a', y :: b' => Ascii.eqb x y && bytes_eqb a' b'
  | _, _ => false
  end.

Fixpoint has_prefix (w s : bytes) : bool :=
  match w, s with
  | [], _ => true
  | x :: w', y :: s' => Ascii.eqb x y && has_prefix w' s'
  | _ :: _, [] => false
  end.

Definition has_suffix (w s : bytes) : bool := has_prefix (rev w) (rev s).

(** strings.TrimSuffix *)
Definition trim_suffix (s w : bytes) : bytes :=
  if has_suffix w s then firstn (length s - length w) s else s.

(** strings.Index: [None] stands for -1. *)
Fixpoint index_of (s w : bytes) : option nat :=
  if has_prefix w s then Some 0 else
  match s with
  | [] => None
  | _ :: s' => option_map S (index_of s' w)
  end.

(** The UTF-8 encodings of the runes unicode.IsSpace accepts: the ASCII white
    space, U+0085, U+00A0, U+1680, U+2000 to U+200A, U+2028, U+2029, U+202F,
    U+205F and U+3000. *)
Definition space_runes : list bytes :=
  map (map ascii_of_nat)
    ([[9]; [10]; [11]; [12]; [13]; [32]; [194; 133]; [194; 160]; [225; 154; 128]]
     ++ map (fun k => [226; 128; k]) (seq 128 11)
     ++ [[226; 128; 168]; [226; 128; 169]; [226; 128; 175]; [226; 129; 159];
         [227; 128; 128]]).

(** U+00A0, NO-BREAK SPACE. *)
Definition nbsp : bytes := [ascii_of_nat 194; ascii_of_nat 160].

Definition is_space_rune (r : bytes) : bool := existsb (bytes_eqb r) space_runes.

(** Drops the leading runes that [sp] accepts, a rune taking one to three
    bytes: the loop of strings.TrimLeftFunc. *)
Fixpoint drop_runes (sp : bytes -> bool) (s : bytes) : bytes :=
  match s with
  | [] => []
  | a :: s1 =>
      if sp [a] then drop_runes sp s1 else
      match s1 with
      | [] => s
      | b :: s2 =>
          if sp [a; b] then drop_runes sp s2 else
          match s2 with
          | [] => s
          | c :: s3 => if sp [a; b; c] then drop_runes sp s3 else s
          end
      end
  end.

(** strings.TrimLeftFunc(s, unicode.IsSpace).  utf8.DecodeRuneInString
    decodes a valid encoding to its own rune and an invalid byte to U+FFFD,
    which is no space, so a leading space rune is exactly a prefix in
    [space_runes]; none of these is a proper prefix of another, so the order
    of the three tests does not matter. *)
Definition trim_left (s : bytes) : bytes := drop_runes is_space_rune s.

(** strings.TrimRightFunc(s, unicode.IsSpace): utf8.DecodeLastRuneInString
    reports a space rune exactly when the bytes end with its encoding. *)
Definition trim_right (s : bytes) : bytes :=
  rev (drop_runes (fun r => is_space_rune (rev r)) (rev s)).

(** strings.TrimSpace *)
Definition trim_space (s : bytes) : bytes := trim_right (trim_left s).

(** An ASCII byte other than white space: it is part of no space rune. *)
Definition plain (c : ascii) : bool := (nat_of_ascii c <? 128) && negb (is_ws c).

(** strings.Split with a one-byte separator. *)
Fixpoint split_on (sep : ascii) (s : bytes) : list bytes :=
  match s with
  | [] => [[]]
  | c :: s' =>
      let r := split_on sep s' in
      if Ascii.eqb c sep then [] :: r
      else match r with
           | w :: ws => (c :: w) :: ws
           | [] => [[c]]
           end
  end.

(** strings.Join *)
Fixpoint join (sep : bytes) (ws : list bytes) : bytes :=
  match ws with
  | [] => []
  | [w] => w
  | w :: ws' => w ++ sep ++ join sep ws'
  end.

(** filepath.Base for a slash-separated path without trailing slash. *)
Definition base (p : bytes) : bytes := last (split_on "/"%char p) [].

(** ** Maps

    A Go [map[string]string] is an association list with distinct keys.  The
    order of the list is the (unspecified) iteration order of [range], so a
    statement over every list covers every iteration order. *)

Definition mapping := list (bytes * bytes).

Fixpoint lookup (k : bytes) (m : mapping) : option bytes :=
  match m with
  | [] => None
  | (k', v) :: m' => if bytes_eqb k k' then Some v else lookup k m'
  end.

(** [m[k] = v] *)
Fixpoint aset (k v : bytes) (m : mapping) : mapping :=
  match m with
  | [] => [(k, v)]
  | (k', v') :: m' => if bytes_eqb k k' then (k, v) :: m' else (k', v') :: aset k v m'
  end.

(** ** A backtracking matcher for the patterns of processor.go *)

Inductive quant := One | Opt | Star | LazyStar | Plus.

Inductive atom :=
| ALit (w : bytes)                       (* a literal byte string *)
| ACls (p : ascii -> bool) (q : quant).  (* a class with a quantifier *)

Definition group := list atom.             (* one capture group *)
Definition branch := list group.           (* capture groups covering a match *)
Definition regex := list branch.           (* alternatives, tried in order *)

Fixpoint run (p : ascii -> bool) (s : bytes) : nat :=
  match s with
  | [] => 0
  | c :: s' => if p c then S (run p s') else 0
  end.

(** n, n-1, ..., 0 *)
Fixpoint down (n : nat) : list nat :=
  match n with
  | 0 => [0]
  | S k => S k :: down k
  end.

(** The repetition counts a quantifier tries, in priority order, when [n]
    bytes of the class are available. *)
Definition counts (q : quant) (n : nat) : list nat :=
  match q with
  | One => if 1 <=? n then [1] else []
  | Opt => if 1 <=? n then [1; 0] else [0]
  | Star => down n
  | LazyStar => rev (down n)
  | Plus => filter (fun k => 1 <=? k) (down n)
  end.

Definition m_atom (a : atom) (s : bytes) : list (bytes * bytes) :=
  match a with
  | ALit w => if has_prefix w s then [(w, skipn (length w) s)] else []
  | ACls p q => map (fun k => (firstn k s, skipn k s)) (counts q (run p s))
  end.

Fixpoint m_seq (g : list atom) (s : bytes) : list (bytes * bytes) :=
  match g with
  | [] => [([], s)]
  | a :: g' =>
      flat_map (fun xr => map (fun yr => (fst xr ++ fst yr, snd yr)) (m_seq g' (snd xr)))
               (m_atom a s)
  end.

Fixpoint m_groups (gs : branch) (s : bytes) : list (list bytes * bytes) :=
  match gs with
  | [] => [([], s)]
  | g :: gs' =>
      flat_map (fun xr => map (fun cr => (fst xr :: fst cr, snd cr)) (m_groups gs' (snd xr)))
               (m_seq g s)
  end.

Fixpoint m_alts (i : nat) (r : regex) (s : bytes) : list (nat * list bytes * bytes) :=
  match r with
  | [] => []
  | b :: r' => map (fun cr => (i, fst cr, snd cr)) (m_groups b s) ++ m_alts (S i) r' s
  end.

(** The match a backtracking engine reports at the start of [s]:
    which alternative, its capture groups, and the remaining input. *)
Definition first_match (r : regex) (s : bytes) : option (nat * list bytes * bytes) :=
  hd_error (m_alts 0 r s).

(** The input cut into unmatched bytes and matches. *)
Inductive piece :=
| Raw (c : ascii)
| Hit (alt : nat) (whole : bytes) (caps : list bytes).

Fixpoint scan (fuel : nat) (r : regex) (s : bytes) : list piece :=
  match fuel with
  | 0 => map Raw s
  | S f =>
      match s with
      | [] => []
      | c :: s' =>
          match first_match r s with
          | Some (i, caps, rest) =>
              if length rest <? length s
              then Hit i (firstn (length s - length rest) s) caps :: scan f r rest
              else Raw c :: scan f r s'
          | None => Raw c :: scan f r s'
          end
      end
  end.

(** regexp.FindAllSubmatchIndex(s, -1) *)
Definition find_all (r : regex) (s : bytes) : list piece := scan (length s) r s.

Definition is_hit (p : piece) : bool :=
  match p with Hit _ _ _ => true | Raw _ => false end.

Definition no_matches (ps : list piece) : bool := negb (existsb is_hit ps).

(** The input bytes a piece covers. *)
Definition piece_text (p : piece) : bytes :=
  match p with Raw c => [c] | Hit _ whole _ => whole end.

(** ** The patterns of processor.go *)

Definition not_in (cs : list ascii) (c : ascii) : bool :=
  negb (existsb (Ascii.eqb c) cs).
Definition is_char (x c : ascii) : bool := Ascii.eqb c x.
Definition any_byte (_ : ascii) : bool := true.

(** [(<[^:>]*:?schemeClr[^>]*\sval=DQ)([^DQ]+)(DQ)], DQ standing for the
    double quote *)
Definition scheme_pattern : regex :=
  [ [ [ALit (lit "<"); ACls (not_in [":"; ">"]%char) Star; ACls (is_char ":") Opt;
       ALit (lit "schemeClr"); ACls (not_in [">"%char]) Star; ACls re_space One;
       ALit (lit "val=`")];
      [ACls (not_in [dq]) Plus];
      [ALit (lit "`")] ] ].

(** [(<[^:>]*:?srgbClr[^>]*\sval=DQ)([0-9A-Fa-f]{6})(DQ)] *)
Definition srgb_pattern : regex :=
  [ [ [ALit (lit "<"); ACls (not_in [":"; ">"]%char) Star; ACls (is_char ":") Opt;
       ALit (lit "srgbClr"); ACls (not_in [">"%char]) Star; ACls re_space One;
       ALit (lit "val=`")];
      [ACls is_hex_digit One; ACls is_hex_digit One; ACls is_hex_digit One;
       ACls is_hex_digit One; ACls is_hex_digit One; ACls is_hex_digit One];
      [ALit (lit "`")] ] ].

(** [(<[^:>]*:?)(schemeClr)(\s+val=DQ)([^DQ]+)(DQ(?:[^>]*?))(/>)
    |(<[^:>]*:?)(schemeClr)(\s+val=DQ)([^DQ]+)(DQ(?:[^>]*?))(>)([\s\S]*?</[^:>]*:?schemeClr>)] *)
Definition element_pattern : regex :=
  [ [ [ALit (lit "<"); ACls (not_in [":"; ">"]%char) Star; ACls (is_char ":") Opt];
      [ALit (lit "schemeClr")];
      [ACls re_space Plus; ALit (lit "val=`")];
      [ACls (not_in [dq]) Plus];
      [ALit (lit "`"); ACls (not_in [">"%char]) LazyStar];
      [ALit (lit "/>")] ];
    [ [ALit (lit "<"); ACls (not_in [":"; ">"]%char) Star; ACls (is_char ":") Opt];
      [ALit (lit "schemeClr")];
      [ACls re_space Plus; ALit (lit "val=`")];
      [ACls (not_in [dq]) Plus];
      [ALit (lit "`"); ACls (not_in [">"%char]) LazyStar];
      [ALit (lit ">")];
      [ACls any_byte LazyStar; ALit (lit "</"); ACls (not_in [":"; ">"]%char) Star;
       ACls (is_char ":") Opt; ALit (lit "schemeClr>")] ] ].

(** ** Colour validation (parser.go) *)

Definition ValidSchemeColors : list bytes :=
  map lit ["dk1"; "lt1"; "dk2"; "lt2"; "accent1"; "accent2"; "accent3"; "accent4";
           "accent5"; "accent6"; "hlink"; "folHlink"]%string.

Definition is_valid_scheme (c : bytes) : bool := existsb (bytes_eqb c) ValidSchemeColors.

(** [^[0-9A-Fa-f]{6}$] *)
Definition isValidHexColor (c : bytes) : bool := (length c =? 6) && forallb is_hex_digit c.

Definition isValidColor (c : bytes) : bool := is_valid_scheme c || isValidHexColor c.

(** ** The rewriters (processor.go) *)

Definition is_empty_map (m : mapping) : bool :=
  match m with [] => true | _ => false end.

(** [opening[1:prefixEnd]] with [prefixEnd := strings.Index(opening, name)]. *)
Definition tag_prefix (opening name : bytes) : bytes :=
  match index_of opening name with
  | Some k => if 0 <? k then firstn (k - 1) (skipn 1 opening) else []
  | None => []
  end.

Definition emit_scheme (m : mapping) (p : piece) : bytes :=
  match p with
  | Raw c => [c]
  | Hit _ whole caps =>
      match caps with
      | [opening; current; closing] =>
          opening ++ match lookup current m with Some n => n | None => current end ++ closing
      | _ => whole
      end
  end.

Definition ReplaceSchemeColors (xml : bytes) (m : mapping) : bytes :=
  if is_empty_map m then xml else
  let ms := find_all scheme_pattern xml in
  if no_matches ms then xml else concat (map (emit_scheme m) ms).

Definition hex_mapping (m : mapping) : mapping :=
  fold_left (fun acc st => if isValidHexColor (fst st) then aset (to_upper (fst st)) (snd st) acc
                           else acc) m [].

Definition emit_srgb (hm : mapping) (p : piece) : bytes :=
  match p with
  | Raw c => [c]
  | Hit _ whole caps =>
      match caps with
      | [opening; current; closing] =>
          match lookup (to_upper current) hm with
          | Some n =>
              if isValidHexColor n then opening ++ to_upper n ++ closing
              else lit "<" ++ tag_prefix opening (lit "srgbClr") ++ lit "schemeClr val=`"
                   ++ n ++ lit "`"
          | None => whole
          end
      | _ => whole
      end
  end.

Definition ReplaceSrgbColors (xml : bytes) (m : mapping) : bytes :=
  if is_empty_map m then xml else
  let hm := hex_mapping m in
  if is_empty_map hm then xml else
  let ms := find_all srgb_pattern xml in
  if no_matches ms then xml else concat (map (emit_srgb hm) ms).

(** The scheme-to-hex and scheme-to-scheme tables built by
    ReplaceSchemeColorsWithSrgb. *)
Definition scheme_tables (m : mapping) : mapping * mapping :=
  fold_left (fun acc st =>
               let '(s2h, s2s) := acc in
               if is_valid_scheme (fst st) then
                 if isValidHexColor (snd st) then (aset (fst st) (to_upper (snd st)) s2h, s2s)
                 else (s2h, aset (fst st) (snd st) s2s)
               else (s2h, s2s)) m ([], []).

Definition emit_element (s2h s2s : mapping) (p : piece) : bytes :=
  match p with
  | Raw c => [c]
  | Hit i whole caps =>
      let parts :=
        match i, caps with
        | 0, [prefix; _; valOpening; colorValue; c1; c2] =>
            Some (prefix, valOpening, colorValue, c1 ++ c2, @None bytes)
        | _, [prefix; _; valOpening; colorValue; c1; c2; rest] =>
            Some (prefix, valOpening, colorValue, c1 ++ c2, Some rest)
        | _, _ => None
        end in
      match parts with
      | Some (prefix, valOpening, colorValue, closing, restOfElement) =>
          match lookup colorValue s2h with
          | Some hex => prefix ++ lit "srgbClr" ++ lit " val=`" ++ hex ++ lit "`/>"
          | None =>
              match lookup colorValue s2s with
              | Some ns =>
                  prefix ++ lit "schemeClr" ++ valOpening ++ ns ++ closing
                  ++ match restOfElement with Some r => r | None => [] end
              | None => whole
              end
          end
      | None => whole
      end
  end.

(** The second (current) ReplaceSchemeColorsWithSrgb of processor.go, the one
    that handles container elements. *)
Definition ReplaceSchemeColorsWithSrgb (xml : bytes) (m : mapping) : bytes :=
  if is_empty_map m then xml else
  let '(s2h, s2s) := scheme_tables m in
  if is_empty_map s2h then ReplaceSchemeColors xml s2s else
  let ms := find_all element_pattern xml in
  if no_matches ms then xml else concat (map (emit_element s2h s2s) ms).

(** What ProcessPPTX does to the bytes of one selected part. *)
Definition rewrite_part (content : bytes) (m : mapping) : bytes :=
  ReplaceSrgbColors (ReplaceSchemeColorsWithSrgb content m) m.


(** ** ParseColorMapping (parser.go) *)

Inductive result (A E : Type) := Ok (a : A) | Err (e : E).
Arguments Ok {A E} a.
Arguments Err {A E} e.

Inductive parse_error :=
| ErrEmptyMapping                                 (* mapping string cannot be empty *)
| ErrNoColon (pair : bytes)                       (* invalid mapping format: Expected 'source:target' *)
| ErrColonCount (pair : bytes)                    (* Expected exactly one ':' *)
| ErrEmptySide (pair : bytes)                     (* Source and target cannot be empty *)
| ErrInternalSource (c : bytes) | ErrInternalTarget (c : bytes)
| ErrInvalidSource (c : bytes) | ErrInvalidTarget (c : bytes)
| ErrConflict (source existing target : bytes)    (* conflicting mappings *)
| ErrNoMappings.                                  (* no valid mappings found *)

Definition nl : bytes := [ascii_of_nat 10].

(** The text of the conflict error:
    [conflicting mappings for '%s':\n  - %s → %s\n  - %s → %s]. *)
Definition conflict_message (source existing target : bytes) : bytes :=
  lit "conflicting mappings for '" ++ source ++ lit "':" ++ nl
  ++ lit "  - " ++ source ++ lit " → " ++ existing ++ nl
  ++ lit "  - " ++ source ++ lit " → " ++ target.

Definition is_empty (s : bytes) : bool := match s with [] => true | _ => false end.

(** The body of the [for _, pair := range pairs] loop, the table built so far
    being [acc]. *)
Fixpoint parse_pairs (pairs : list bytes) (acc : mapping) : result mapping parse_error :=
  match pairs with
  | [] => Ok acc
  | pair0 :: rest =>
      let pair := trim_space pair0 in
      if is_empty pair then parse_pairs rest acc else
      if negb (existsb (Ascii.eqb ":"%char) pair) then Err (ErrNoColon pair) else
      match split_on ":"%char pair with
      | [p0; p1] =>
          let source := trim_space p0 in
          let target := trim_space p1 in
          if is_empty source || is_empty target then Err (ErrEmptySide pair) else
          if negb (isValidColor source) then
            if isValidHexColor source then Err (ErrInternalSource source)
            else Err (ErrInvalidSource source) else
          if negb (isValidColor target) then
            if isValidHexColor target then Err (ErrInternalTarget target)
            else Err (ErrInvalidTarget target) else
          match lookup source acc with
          | Some existingTarget =>
              if negb (bytes_eqb existingTarget target)
              then Err (ErrConflict source existingTarget target)
              else parse_pairs rest acc
          | None => parse_pairs rest (aset source target acc)
          end
      | _ => Err (ErrColonCount pair)
      end
  end.

Definition ParseColorMapping (mappingStr : bytes) : result mapping parse_error :=
  let s := trim_space mappingStr in
  if is_empty s then Err ErrEmptyMapping else
  match parse_pairs (split_on ","%char s) [] with
  | Ok m => if is_empty_map m then Err ErrNoMappings else Ok m
  | Err e => Err e
  end.

(** ** Theme filter (pptx.go) *)

(** [Target] of the slideLayout relationship in the rels file of a slide,
    [None] when that file is missing, unreadable or has no such relationship:
    the part of the archive getSlideTheme reads. *)
Definition slide_rels := bytes -> option bytes.

Definition getSlideTheme (layoutRel : option bytes) (layoutToMaster masterToTheme : mapping)
  : bytes :=
  match layoutRel with
  | None => []
  | Some layoutTarget =>
      match lookup (base layoutTarget) layoutToMaster with
      | None => []
      | Some masterName =>
          match lookup masterName masterToTheme with
          | None => []
          | Some themeName => themeName
          end
      end
  end.

Definition normalize_theme (theme : bytes) : bytes :=
  if has_suffix (lit ".xml") theme then theme else theme ++ lit ".xml".

(** [relPath] is the path of the part inside the archive. *)
Definition shouldProcessFile (relPath : bytes) (themeFilter : list bytes)
  (layoutToMaster masterToTheme : mapping) (rels : slide_rels) : bool :=
  match themeFilter with
  | [] => true
  | _ =>
    let themeFiles := map normalize_theme themeFilter in
    let in_filter t := existsb (bytes_eqb t) themeFiles in
    let slide :=
      if has_prefix (lit "ppt/slides/slide") relPath then
        let theme := getSlideTheme (rels relPath) layoutToMaster masterToTheme in
        if is_empty theme then None else Some (in_filter theme)
      else None in
    match slide with
    | Some b => b
    | None =>
      let layout :=
        if has_prefix (lit "ppt/slideLayouts/slideLayout") relPath then
          match lookup (base relPath) layoutToMaster with
          | Some masterName =>
              match lookup masterName masterToTheme with
              | Some themeName => Some (in_filter themeName)
              | None => None
              end
          | None => None
          end
        else None in
      match layout with
      | Some b => b
      | None =>
        let master :=
          if has_prefix (lit "ppt/slideMasters/slideMaster") relPath then
            match lookup (base relPath) masterToTheme with
            | Some themeName => Some (in_filter themeName)
            | None => None
            end
          else None in
        match master with
        | Some b => b
        | None => true
        end
      end
    end
  end.

(** Go string comparison: bytewise lexicographic order. *)
Fixpoint bytes_ltb (a b : bytes) : bool :=
  match a, b with
  | [], [] => false
  | [], _ :: _ => true
  | _ :: _, [] => false
  | x :: a', y :: b' =>
      if Nat.ltb (nat_of_ascii x) (nat_of_ascii y) then true
      else if Nat.eqb (nat_of_ascii x) (nat_of_ascii y) then bytes_ltb a' b' else false
  end.

Fixpoint insert_bytes (x : bytes) (l : list bytes) : list bytes :=
  match l with
  | [] => [x]
  | y :: l' => if bytes_ltb y x then y :: insert_bytes x l' else x :: l
  end.

(** The exchange sort of validateThemeFilter: it leaves the list ascending. *)
Definition sort_bytes (l : list bytes) : list bytes := fold_right insert_bytes [] l.

Fixpoint dedup_bytes (l : list bytes) : list bytes :=
  match l with
  | [] => []
  | x :: l' => if existsb (bytes_eqb x) l' then dedup_bytes l' else x :: dedup_bytes l'
  end.

Inductive theme_error := ThemesNotFound (notFound available : list bytes).

Definition theme_error_message (e : theme_error) : bytes :=
  match e with
  | ThemesNotFound nf av =>
      lit "theme(s) not found: " ++ join (lit ", ") nf ++ nl
      ++ lit "Available themes: " ++ join (lit ", ") av
  end.

Definition validateThemeFilter (themeFilter : list bytes) (masterToTheme : mapping)
  : option theme_error :=
  match themeFilter with
  | [] => None
  | _ =>
    let themes := map snd masterToTheme in
    let availableThemes := flat_map (fun t => [trim_suffix t (lit ".xml"); t]) themes in
    let available x := existsb (bytes_eqb x) availableThemes in
    let notFound :=
      filter (fun t => negb (available t || available (trim_suffix t (lit ".xml")))) themeFilter in
    match notFound with
    | [] => None
    | _ => Some (ThemesNotFound notFound
                   (sort_bytes (dedup_bytes (map (fun t => trim_suffix t (lit ".xml")) themes))))
    end
  end.

(** ** ProcessPPTX (pptx.go) *)

(** A file of the extracted archive, with the outcome of reading and writing
    it back. *)
Record part := {
  p_path : bytes;       (* path relative to the extraction directory *)
  p_dir : bool;
  p_data : bytes;
  p_readable : bool;    (* os.ReadFile succeeds *)
  p_writable : bool;    (* os.WriteFile succeeds *)
  p_write_fail : option nat
    (* what a failing os.WriteFile leaves: [None] when the file cannot be
       opened (it keeps its bytes), [Some k] when it was opened and truncated
       (O_TRUNC) and only the first [k] bytes of the new content reached it *)
}.

(** The file [f] holding the bytes [d]. *)
Definition set_data (f : part) (d : bytes) : part :=
  {| p_path := p_path f; p_dir := p_dir f; p_data := d; p_readable := p_readable f;
     p_writable := p_writable f; p_write_fail := p_write_fail f |}.

Definition ValidScopes : list bytes := map lit ["all"; "content"; "master"]%string.

Definition getXMLPatterns (scope : bytes) : list bytes :=
  let contentPatterns := map lit ["ppt/slides/"; "ppt/charts/"; "ppt/diagrams/";
                                  "ppt/notesSlides/"]%string in
  let masterPatterns := map lit ["ppt/slideMasters/"; "ppt/slideLayouts/";
                                 "ppt/notesMasters/"; "ppt/handoutMasters/"]%string in
  if bytes_eqb scope (lit "content") then contentPatterns
  else if bytes_eqb scope (lit "master") then masterPatterns
  else contentPatterns ++ masterPatterns.

(** The tests of the walk callback before the file is read. *)
Definition selected (xmlPatterns themeFilter : list bytes) (layoutToMaster masterToTheme : mapping)
  (rels : slide_rels) (f : part) : bool :=
  negb (p_dir f) && has_suffix (lit ".xml") (p_path f)
  && existsb (fun pat => has_prefix pat (p_path f)) xmlPatterns
  && shouldProcessFile (p_path f) themeFilter layoutToMaster masterToTheme rels.

(** One call of the walk callback: the increment of [filesProcessed] and the
    file afterwards. *)
Definition visit (colorMapping : mapping) (sel : part -> bool) (f : part) : nat * part :=
  if sel f && p_readable f then
    let modified := rewrite_part (p_data f) colorMapping in
    if p_writable f then (1, set_data f modified)
    else match p_write_fail f with
         | None => (0, f)
         | Some k => (0, set_data f (firstn k modified))
         end
  else (0, f).

Fixpoint walk (colorMapping : mapping) (sel : part -> bool) (fs : list part) : nat * list part :=
  match fs with
  | [] => (0, [])
  | f :: fs' =>
      let '(n, f') := visit colorMapping sel f in
      let '(k, fs'') := walk colorMapping sel fs' in
      (n + k, f' :: fs'')
  end.

Inductive process_error := ErrScope (scope : bytes) | ErrTheme (e : theme_error).

(** ProcessPPTX from the extracted files on: [layoutToMaster] and
    [masterToTheme] are the tables built from the archive's rels files.  The
    count is returned whether or not writing the output archive fails. *)
Definition ProcessPPTX (files : list part) (colorMapping : mapping) (themeFilter : list bytes)
  (scope : bytes) (layoutToMaster masterToTheme : mapping) (rels : slide_rels)
  : nat * option process_error * list part :=
  if negb (existsb (bytes_eqb scope) ValidScopes) then (0, Some (ErrScope scope), files) else
  match validateThemeFilter themeFilter masterToTheme with
  | Some e => (0, Some (ErrTheme e), files)
  | None =>
      let sel := selected (getXMLPatterns scope) themeFilter layoutToMaster masterToTheme rels in
      let '(n, files') := walk colorMapping sel files in
      (n, None, files')
  end.

(** ** Slide selection (ParseSlideRange, ValidateSlideNumbers) *)

Definition digit_val (c : ascii) : option Z :=
  let n := nat_of_ascii c in
  if (48 <=? n) && (n <=? 57) then Some (Z.of_nat (n - 48)) else None.

Fixpoint digits_val (acc : Z) (s : bytes) : option Z :=
  match s with
  | [] => Some acc
  | c :: s' =>
      match digit_val c with
      | Some d => digits_val (acc * 10 + d)%Z s'
      | None => None
      end
  end.

(** strconv.Atoi on a 64-bit platform: an optional sign, then decimal
    digits, the value in the range of int. *)
Definition Atoi (s : bytes) : option Z :=
  let '(neg, body) :=
    match s with
    | c :: b => if Ascii.eqb c "-"%char then (true, b)
                else if Ascii.eqb c "+"%char then (false, b) else (false, s)
    | [] => (false, s)
    end in
  match body with
  | [] => None
  | _ =>
      match digits_val 0 body with
      | None => None
      | Some v =>
          let z := if neg then (- v)%Z else v in
          if (- 2 ^ 63 <=? z)%Z && (z <=? 2 ^ 63 - 1)%Z then Some z else None
      end
  end.

Inductive slide_error :=
| ErrRangeFormat (part : bytes)      (* invalid range format *)
| ErrSlideNumber (s : bytes)         (* invalid slide number '%s' *)
| ErrBelowOne (n : Z)                (* invalid slide number %d (must be >= 1) *)
| ErrStartAfterEnd (a b : Z)         (* invalid range %d-%d (start > end) *)
| ErrNoSlides.                       (* no slides specified *)

(** [slides[i] = true] on the set of slides, kept as a list without
    repetitions. *)
Definition add_slide (slides : list Z) (x : Z) : list Z :=
  if existsb (Z.eqb x) slides then slides else slides ++ [x].

(** [for i := start; i <= end; i++].  For [end] = MaxInt64 the Go loop
    wraps around and never ends; the model returns the range there, so a
    statement about every successful result also covers that input. *)
Definition zrange (a b : Z) : list Z :=
  map (fun k => a + Z.of_nat k)%Z (seq 0 (Z.to_nat (b - a + 1))).

Fixpoint parse_slide_parts (parts : list bytes) (slides : list Z) : result (list Z) slide_error :=
  match parts with
  | [] => Ok slides
  | part0 :: rest =>
      let part := trim_space part0 in
      if existsb (Ascii.eqb "-"%char) part then
        match split_on "-"%char part with
        | [r0; r1] =>
            match Atoi (trim_space r0) with
            | None => Err (ErrSlideNumber r0)
            | Some start =>
                match Atoi (trim_space r1) with
                | None => Err (ErrSlideNumber r1)
                | Some fin =>
                    if (start <? 1)%Z then Err (ErrBelowOne start)
                    else if (fin <? start)%Z then Err (ErrStartAfterEnd start fin)
                    else parse_slide_parts rest (fold_left add_slide (zrange start fin) slides)
                end
            end
        | _ => Err (ErrRangeFormat part)
        end
      else
        match Atoi part with
        | None => Err (ErrSlideNumber part)
        | Some n =>
            if (n <? 1)%Z then Err (ErrBelowOne n) else parse_slide_parts rest (add_slide slides n)
        end
  end.

Fixpoint insert_Z (x : Z) (l : list Z) : list Z :=
  match l with
  | [] => [x]
  | y :: l' => if (y <? x)%Z then y :: insert_Z x l' else x :: l
  end.

(** sort.Ints *)
Definition sort_Z (l : list Z) : list Z := fold_right insert_Z [] l.

(** [Ok []] is the nil slice returned for an empty flag. *)
Definition ParseSlideRange (flag : bytes) : result (list Z) slide_error :=
  match flag with
  | [] => Ok []
  | _ =>
      match parse_slide_parts (split_on ","%char flag) [] with
      | Err e => Err e
      | Ok slides => match slides with [] => Err ErrNoSlides | _ => Ok (sort_Z slides) end
      end
  end.

(** fmt's %d *)
Definition dec (z : Z) : bytes := list_ascii_of_string (NilEmpty.string_of_int (Z.to_int z)).

(** ValidateSlideNumbers; [built] is the outcome of BuildSlideMapping, the
    table from visual slide number to slide part.  The result is the error
    message, [None] for nil. *)
Definition ValidateSlideNumbers (built : result (list (Z * bytes)) bytes) (slideNums : list Z)
  : option bytes :=
  match slideNums with
  | [] => None
  | _ =>
    match built with
    | Err e => Some e
    | Ok mapping =>
        let totalSlides := Z.of_nat (length mapping) in
        let invalid := filter (fun n => (totalSlides <? n)%Z) slideNums in
        match invalid with
        | [] => None
        | [n] => Some (lit "slide " ++ dec n ++ lit " does not exist (presentation has "
                       ++ dec totalSlides ++ lit " slides)")
        | _ => Some (lit "slides " ++ join (lit ", ") (map dec invalid)
                     ++ lit " do not exist (presentation has " ++ dec totalSlides
                     ++ lit " slides)")
        end
    end
  end.

(** ** Notions used in the statements below *)

(** [w] occurs in [s]. *)
Definition contains (w s : bytes) : Prop := exists a b, s = a ++ w ++ b.

(** The kinds of parts shouldProcessFile distinguishes by path. *)
Inductive part_kind := SlidePart | LayoutPart | MasterPart | OtherPart.

Definition kind_of (relPath : bytes) : part_kind :=
  if has_prefix (lit "ppt/slides/slide") relPath then SlidePart
  else if has_prefix (lit "ppt/slideLayouts/slideLayout") relPath then LayoutPart
  else if has_prefix (lit "ppt/slideMasters/slideMaster") relPath then MasterPart
  else OtherPart.

(** The theme of a slide, layout or master part, resolved through the
    relationship chain slide -> layout -> master -> theme; [None] when the part
    is of another kind or the chain breaks. *)
Definition part_theme (relPath : bytes) (layoutToMaster masterToTheme : mapping)
  (rels : slide_rels) : option bytes :=
  match kind_of relPath with
  | SlidePart =>
      let t := getSlideTheme (rels relPath) layoutToMaster masterToTheme in
      if is_empty t then None else Some t
  | LayoutPart =>
      match lookup (base relPath) layoutToMaster with
      | Some masterName => lookup masterName masterToTheme
      | None => None
      end
  | MasterPart => lookup (base relPath) masterToTheme
  | OtherPart => None
  end.

(** The source and target of one comma-separated entry of a mapping string. *)
Definition pair_of (entry : bytes) : option (bytes * bytes) :=
  match split_on ":"%char (trim_space entry) with
  | [p0; p1] => Some (trim_space p0, trim_space p1)
  | _ => None
  end.

(** A well-formed entry of a slide list: a number at least 1, or a range
    [start-end] with [1 <= start <= end]. *)
Definition entry_ok (entry : bytes) : Prop :=
  let p := trim_space entry in
  (~ In "-"%char p /\ exists n, Atoi p = Some n /\ (1 <= n)%Z) \/
  (exists a b start fin, p = a ++ "-"%char :: b /\ ~ In "-"%char a /\ ~ In "-"%char b /\
     Atoi (trim_space a) = Some start /\ Atoi (trim_space b) = Some fin /\
     (1 <= start <= fin)%Z).

(** The slide numbers an entry of a slide list denotes. *)
Definition entry_covers (entry : bytes) (z : Z) : Prop :=
  let p := trim_space entry in
  (~ In "-"%char p /\ Atoi p = Some z) \/
  (exists a b start fin, p = a ++ "-"%char :: b /\ ~ In "-"%char a /\ ~ In "-"%char b /\
     Atoi (trim_space a) = Some start /\ Atoi (trim_space b) = Some fin /\
     (start <= z <= fin)%Z).

(** The colour values of the elements a pass recognises: capture group [i] of
    each match. *)
Definition hit_values (i : nat) (ps : list piece) : list bytes :=
  flat_map (fun p => match p with Hit _ _ caps => [nth i caps []] | Raw _ => [] end) ps.

Definition found_scheme_values (xml : bytes) : list bytes :=
  hit_values 1 (find_all scheme_pattern xml) ++ hit_values 3 (find_all element_pattern xml).

Definition found_srgb_values (xml : bytes) : list bytes :=
  hit_values 1 (find_all srgb_pattern xml).

Definition mk (l : list (string * string)) : mapping := map (fun p => (lit (fst p), lit (snd p))) l.

Example ex_scheme1 :
  ReplaceSchemeColors (lit "<a:schemeClr val=`accent1`/><a:schemeClr val=`accent3`/>")
    (mk [("accent1", "accent3"); ("accent3", "accent4")]%string)
  = lit "<a:schemeClr val=`accent3`/><a:schemeClr val=`accent4`/>".
Proof. vm_compute. reflexivity. Qed.

Example ex_elem1 :
  ReplaceSchemeColorsWithSrgb
    (lit "<a:schemeClr val=`accent1`><a:lumMod val=`75000`/></a:schemeClr>x")
    (mk [("accent1", "bbffcc")]%string)
  = lit "<a:srgbClr val=`BBFFCC`/>x".
Proof. vm_compute. reflexivity. Qed.

Example ex_srgb1 :
  ReplaceSrgbColors (lit "<a:srgbClr val=`ff0000`/><a:srgbClr val=`00FF00`/>")
    (mk [("FF0000", "accent2"); ("00ff00", "abcdef")]%string)
  = lit "<a:schemeClr val=`accent2`/><a:srgbClr val=`ABCDEF`/>".
Proof. vm_compute. reflexivity. Qed.

Example ex_c1 :
  rewrite_part (lit "<a:schemeClr val=`accent1`/><a:srgbClr val=`FF0000`/>")
    (mk [("accent1", "FF0000"); ("FF0000", "accent2")]%string)
  = lit "<a:schemeClr val=`accent2`/><a:schemeClr val=`accent2`/>".
Proof. vm_compute. reflexivity. Qed.

Example ex_c3 :
  ReplaceSrgbColors (lit "<a:srgbClr val=`FF0000`><a:alpha val=`50000`/></a:srgbClr>")
    (mk [("FF0000", "accent1")]%string)
  = lit "<a:schemeClr val=`accent1`><a:alpha val=`50000`/></a:srgbClr>".
Proof. vm_compute. reflexivity. Qed.

Example ex_scheme_container :
  ReplaceSchemeColorsWithSrgb
    (lit "<a:schemeClr val=`accent1`><a:lumMod val=`75000`/></a:schemeClr>")
    (mk [("accent1", "accent2"); ("accent3", "FFFFFF")]%string)
  = lit "<a:schemeClr val=`accent2`><a:lumMod val=`75000`/></a:schemeClr>".
Proof. vm_compute. reflexivity. Qed.

(** A slide part without colour elements, readable and writable. *)
Definition untouched_slide : part :=
  {| p_path := lit "ppt/slides/slide1.xml"; p_dir := false;
     p_data := lit "<p:sld><p:cSld/></p:sld>"; p_readable := true; p_writable := true;
     p_write_fail := None |}.

(** ** Colour elements of a slide part

    The XML shapes the element rewriter is stated on: a scheme colour element
    [<ns:schemeClr val=DQvDQ/>], or the same element with children and its
    closing tag; the self-closing RGB element; and the languages of the
    matcher's atoms and groups. *)

(** A byte of an XML namespace prefix: a letter, a digit, [_], [-] or [.]. *)
Definition is_name_char (c : ascii) : bool :=
  let n := nat_of_ascii c in
  ((48 <=? n) && (n <=? 57)) || ((65 <=? n) && (n <=? 90)) || ((97 <=? n) && (n <=? 122))
  || (n =? 95) || (n =? 45) || (n =? 46).

Definition atom_lang (a : atom) (x : bytes) : Prop :=
  match a with
  | ALit w => x = w
  | ACls p q => forallb p x = true /\ (q = One -> length x = 1)
  end.

Fixpoint seq_lang (g : group) (x : bytes) : Prop :=
  match g with
  | [] => x = []
  | a :: g' => exists x1 x2, x = x1 ++ x2 /\ atom_lang a x1 /\ seq_lang g' x2
  end.

(** The closing-tag atoms of the second alternative of [element_pattern]. *)
Definition close_atoms : group :=
  [ALit (lit "</"); ACls (not_in [":"; ">"]%char) Star; ACls (is_char ":") Opt;
   ALit (lit "schemeClr>")].

Definition scheme_element (ns v : bytes) (children : option bytes) : bytes :=
  lit "<" ++ ns ++ lit ":schemeClr val=`" ++ v ++ lit "`" ++
  match children with
  | None => lit "/>"
  | Some c => lit ">" ++ c ++ lit "</" ++ ns ++ lit ":schemeClr>"
  end.

Definition srgb_element (ns hex : bytes) : bytes :=
  lit "<" ++ ns ++ lit ":srgbClr val=`" ++ hex ++ lit "`/>".

(** Children such as [<a:tint val=DQ50000DQ/>]: they end with a tag and do
    not themselves spell [schemeClr]. *)
Definition children_ok (children : option bytes) : Prop :=
  match children with
  | None => True
  | Some c => ~ contains (lit "schemeClr") c /\ (c = [] \/ exists c', c = c' ++ [">"%char])
  end.

(** The step of the loop that builds [scheme_tables]. *)
Definition tables_step (acc : mapping * mapping) (st : bytes * bytes) : mapping * mapping :=
  let '(s2h, s2s) := acc in
  if is_valid_scheme (fst st) then
    if isValidHexColor (snd st) then (aset (fst st) (to_upper (snd st)) s2h, s2s)
    else (s2h, aset (fst st) (snd st) s2s)
  else (s2h, s2s).

(** ** Tables, files and documents *)

Definition valid_table (m : mapping) : Prop :=
  NoDup (map fst m) /\ Forall (fun p => isValidColor (fst p) = true /\ isValidColor (snd p) = true) m.

(** A byte that can appear in a colour name: ASCII, no white space, colon or
    comma. *)
Definition colour_byte (x : ascii) : bool :=
  plain x && negb (Ascii.eqb x ":"%char) && negb (Ascii.eqb x ","%char).

(** The entry [source:target] of a mapping string. *)
Definition entry_of (p : bytes * bytes) : bytes := fst p ++ ":"%char :: snd p.

(** What the walk may do to one file: leave it as it is, or, for a file it
    selects and reads, replace its bytes by the two rewrite passes when the
    write succeeds, and by a prefix of these when it fails. *)
Definition part_step (colorMapping : mapping) (sel : part -> bool) (f f' : part) : Prop :=
  f' = f \/
  (sel f = true /\ p_readable f = true /\
   if p_writable f then f' = set_data f (rewrite_part (p_data f) colorMapping)
   else exists k, f' = set_data f (firstn k (rewrite_part (p_data f) colorMapping))).

Definition sample_slide (data : bytes) : part :=
  {| p_path := lit "ppt/slides/slide1.xml"; p_dir := false; p_data := data;
     p_readable := true; p_writable := true;
     p_write_fail := None |}.

Definition sample_rels : part :=
  {| p_path := lit "ppt/slides/_rels/slide1.xml.rels"; p_dir := false;
     p_data := lit "<Relationships/>"; p_readable := true; p_writable := true;
     p_write_fail := None |}.

(** A slide whose write fails once the file is truncated, before any byte
    is written. *)
Definition failing_slide (data : bytes) : part :=
  {| p_path := lit "ppt/slides/slide2.xml"; p_dir := false; p_data := data;
     p_readable := true; p_writable := false; p_write_fail := Some 0 |}.

(** Documents made of scheme colour elements.  A segment is text without
    tags, then the element [<ns:schemeClr val=`v` ...>]. *)
Record segment := { s_text : bytes; s_ns : bytes; s_val : bytes; s_children : option bytes }.

Fixpoint render (d : list segment) (tail : bytes) : bytes :=
  match d with
  | [] => tail
  | sg :: d' => s_text sg ++ scheme_element (s_ns sg) (s_val sg) (s_children sg) ++ render d' tail
  end.

Definition segment_ok (sg : segment) : Prop :=
  ~ In "<"%char (s_text sg) /\ forallb is_name_char (s_ns sg) = true /\
  children_ok (s_children sg) /\ In (s_val sg) ValidSchemeColors.

Definition doc_ok (d : list segment) (tail : bytes) : Prop :=
  Forall segment_ok d /\ ~ In "<"%char tail.

(** The value an element gets from a table: its image, or itself. *)
Definition mapped (m : mapping) (v : bytes) : bytes :=
  match lookup v m with Some n => n | None => v end.

Definition map_values (f : bytes -> bytes) (d : list segment) : list segment :=
  map (fun sg => {| s_text := s_text sg; s_ns := s_ns sg; s_val := f (s_val sg);
                    s_children := s_children sg |}) d.

(** What ReplaceSchemeColorsWithSrgb writes for one element. *)
Definition srgb_conv (m : mapping) (sg : segment) : bytes :=
  match lookup (s_val sg) m with
  | Some t => if isValidHexColor t then srgb_element (s_ns sg) (to_upper t)
              else scheme_element (s_ns sg) t (s_children sg)
  | None => scheme_element (s_ns sg) (s_val sg) (s_children sg)
  end.

Fixpoint render_with (f : segment -> bytes) (d : list segment) (tail : bytes) : bytes :=
  match d with
  | [] => tail
  | sg :: d' => s_text sg ++ f sg ++ render_with f d' tail
  end.

Definition bytes_lt (a b : bytes) : Prop := bytes_ltb a b = true.

(** A filter entry names a theme of the presentation: itself or its
    .xml-stripped form is a theme name or a .xml-stripped theme name. *)
Definition theme_listed (masterToTheme : mapping) (t : bytes) : Prop :=
  exists th, In th (map snd masterToTheme) /\
    (t = th \/ t = trim_suffix th (lit ".xml") \/
     trim_suffix t (lit ".xml") = th \/
     trim_suffix t (lit ".xml") = trim_suffix th (lit ".xml")).

(** ** ValidateName (part_000) *)

Definition invalidNameChars : list ascii := [ "."; "/"; "\"; "?"; ":"; "*" ]%char.

Inductive name_error := NameEmpty | NameInvalidChar (c : ascii).

(** The loop over the runes of the name.  The forbidden characters are ASCII,
    and in Go's UTF-8 decoding an ASCII byte is always a rune of its own, so
    the scan runs over the bytes. *)
Fixpoint first_invalid (name : bytes) : option ascii :=
  match name with
  | [] => None
  | c :: name' =>
      if existsb (Ascii.eqb c) invalidNameChars then Some c else first_invalid name'
  end.

Definition ValidateName (name : bytes) : option name_error :=
  match name with
  | [] => Some NameEmpty
  | _ => match first_invalid name with
         | Some c => Some (NameInvalidChar c)
         | None => None
         end
  end.

(** ** Documents made of RGB colour elements *)

(** The target a mapping gives an RGB value: that of its (only) hex source
    equal to the value up to case. *)
Definition hex_target (m : mapping) (h : bytes) : option bytes :=
  option_map snd (find (fun p => isValidHexColor (fst p) && bytes_eqb (to_upper (fst p)) (to_upper h)) m).

Definition hex_step (acc : mapping) (st : bytes * bytes) : mapping :=
  if isValidHexColor (fst st) then aset (to_upper (fst st)) (snd st) acc else acc.

(** What ReplaceSrgbColors writes for a self-closing RGB element. *)
Definition rgb_conv (m : mapping) (ns h : bytes) : bytes :=
  match hex_target m h with
  | Some t => if isValidHexColor t then srgb_element ns (to_upper t) else scheme_element ns t None
  | None => srgb_element ns h
  end.

(** Text without tags, then the element [<ns:srgbClr val=`h`/>]. *)
Record rgb_segment := { r_text : bytes; r_ns : bytes; r_hex : bytes }.

Fixpoint render_rgb (f : bytes -> bytes -> bytes) (d : list rgb_segment) (tail : bytes) : bytes :=
  match d with
  | [] => tail
  | sg :: d' => r_text sg ++ f (r_ns sg) (r_hex sg) ++ render_rgb f d' tail
  end.

Definition rgb_segment_ok (sg : rgb_segment) : Prop :=
  ~ In "<"%char (r_text sg) /\ forallb is_name_char (r_ns sg) = true /\
  ~ contains (lit "srgbClr") (r_ns sg) /\ isValidHexColor (r_hex sg) = true.

Definition rgb_doc_ok (d : list rgb_segment) (tail : bytes) : Prop :=
  Forall rgb_segment_ok d /\ ~ In "<"%char tail.


(** * Lemmas *)

(** ** Byte strings *)

Lemma bytes_eqb_eq (a b : bytes) : bytes_eqb a b = true <-> a = b.
Proof.
  revert b; induction a as [|x a IH]; intros [|y b]; simpl; try (split; congruence).
  rewrite andb_true_iff, IH, Ascii.eqb_eq. split.
  - intros [-> ->]; reflexivity.
  - intros H; inversion H; auto.
Qed.

Lemma bytes_eqb_refl (a : bytes) : bytes_eqb a a = true.
Proof. apply bytes_eqb_eq; reflexivity. Qed.

Lemma bytes_eqb_neq (a b : bytes) : bytes_eqb a b = false <-> a <> b.
Proof.
  rewrite <- bytes_eqb_eq. destruct (bytes_eqb a b); split; congruence.
Qed.

Lemma has_prefix_app (w r : bytes) : has_prefix w (w ++ r) = true.
Proof. induction w as [|x w IH]; simpl; [reflexivity|]. rewrite Ascii.eqb_refl; exact IH. Qed.

Lemma has_prefix_true (w s : bytes) : has_prefix w s = true -> s = w ++ skipn (length w) s.
Proof.
  revert s; induction w as [|x w IH]; intros [|y s]; simpl; try easy.
  rewrite andb_true_iff, Ascii.eqb_eq. intros [-> H]. f_equal. apply IH, H.
Qed.

Lemma In_existsb_eqb (x : bytes) (l : list bytes) : existsb (bytes_eqb x) l = true <-> In x l.
Proof.
  rewrite existsb_exists. split.
  - intros [y [Hy Heq]]. apply bytes_eqb_eq in Heq. subst; exact Hy.
  - intros H. exists x. split; [exact H|apply bytes_eqb_refl].
Qed.

Lemma existsb_ascii_In (c : ascii) (s : bytes) : existsb (Ascii.eqb c) s = true <-> In c s.
Proof.
  rewrite existsb_exists. split.
  - intros [y [Hy Heq]]. apply Ascii.eqb_eq in Heq. subst; exact Hy.
  - intros H. exists c. split; [exact H|apply Ascii.eqb_refl].
Qed.

(** [split_on] cuts at every separator, and the pieces contain none. *)
Lemma split_on_join (c : ascii) (s : bytes) :
  join [c] (split_on c s) = s /\ Forall (fun w => ~ In c w) (split_on c s) /\ split_on c s <> [].
Proof.
  induction s as [|x s IH]; simpl.
  - repeat split; [constructor; [intros []|constructor]|discriminate].
  - destruct IH as [IHj [IHf IHn]].
    destruct (Ascii.eqb x c) eqn:Hx.
    + apply Ascii.eqb_eq in Hx; subst x. repeat split.
      * destruct (split_on c s) as [|w ws]; [contradiction|]. simpl. rewrite <- IHj. reflexivity.
      * constructor; [intros []|exact IHf].
      * discriminate.
    + destruct (split_on c s) as [|w ws] eqn:Hs; [contradiction|].
      inversion IHf as [|? ? Hw Hws]. repeat split.
      * simpl. destruct ws; simpl in *; rewrite <- IHj; reflexivity.
      * constructor; [|exact Hws]. intros [Heq|Hin]; [subst; rewrite Ascii.eqb_refl in Hx; discriminate|auto].
      * discriminate.
Qed.

Lemma split_on_two (c : ascii) (s a b : bytes) :
  split_on c s = [a; b] -> s = a ++ c :: b /\ ~ In c a /\ ~ In c b.
Proof.
  intros H. destruct (split_on_join c s) as [Hj [Hf _]]. rewrite H in Hj, Hf.
  simpl in Hj. split; [symmetry; exact Hj|].
  inversion Hf as [|? ? Ha Hb']. inversion Hb'. auto.
Qed.

(** [join] lists every element. *)
Lemma join_contains (sep w : bytes) (ws : list bytes) : In w ws -> contains w (join sep ws).
Proof.
  induction ws as [|x ws IH]; [intros []|].
  intros [->|Hin].
  - destruct ws as [|y ws].
    + exists [], []. simpl. rewrite app_nil_r. reflexivity.
    + exists [], (sep ++ join sep (y :: ws)). reflexivity.
  - destruct ws as [|y ws]; [destruct Hin|].
    destruct (IH Hin) as [a [b Hab]]. exists (x ++ sep ++ a), b.
    change (join sep (x :: y :: ws)) with (x ++ sep ++ join sep (y :: ws)).
    rewrite Hab. rewrite !app_assoc. reflexivity.
Qed.

(** ** Association lists *)

Lemma lookup_aset (k k' v : bytes) (m : mapping) :
  lookup k (aset k' v m) = if bytes_eqb k k' then Some v else lookup k m.
Proof.
  induction m as [|[a b] m IH]; simpl.
  - reflexivity.
  - destruct (bytes_eqb k' a) eqn:H1; simpl.
    + apply bytes_eqb_eq in H1; subst a. destruct (bytes_eqb k k'); reflexivity.
    + destruct (bytes_eqb k a) eqn:H2.
      * apply bytes_eqb_eq in H2; subst a.
        destruct (bytes_eqb k k') eqn:H3; [|reflexivity].
        apply bytes_eqb_eq in H3; subst. rewrite bytes_eqb_refl in H1; discriminate.
      * exact IH.
Qed.

Lemma lookup_In (k v : bytes) (m : mapping) : lookup k m = Some v -> In (k, v) m.
Proof.
  induction m as [|[a b] m IH]; simpl; [discriminate|].
  destruct (bytes_eqb k a) eqn:H.
  - apply bytes_eqb_eq in H; subst. intros [= ->]. left; reflexivity.
  - intros Hl; right; auto.
Qed.

Lemma lookup_None (k : bytes) (m : mapping) : lookup k m = None -> forall v, ~ In (k, v) m.
Proof.
  induction m as [|[a b] m IH]; simpl; [auto|].
  destruct (bytes_eqb k a) eqn:H; [discriminate|].
  intros Hl v [Heq|Hin].
  - inversion Heq; subst. rewrite bytes_eqb_refl in H; discriminate.
  - exact (IH Hl v Hin).
Qed.

Lemma lookup_app_None (k : bytes) (m1 m2 : mapping) :
  lookup k m1 = None -> lookup k (m1 ++ m2) = lookup k m2.
Proof.
  induction m1 as [|[a b] m1 IH]; simpl; [auto|].
  destruct (bytes_eqb k a); [discriminate|exact IH].
Qed.

(** ** Path kinds *)

Lemma kind_prefixes_disjoint (p : bytes) :
  (has_prefix (lit "ppt/slides/slide") p = true ->
   has_prefix (lit "ppt/slideLayouts/slideLayout") p = false /\
   has_prefix (lit "ppt/slideMasters/slideMaster") p = false) /\
  (has_prefix (lit "ppt/slideLayouts/slideLayout") p = true ->
   has_prefix (lit "ppt/slideMasters/slideMaster") p = false).
Proof.
  split.
  - intros H. apply has_prefix_true in H. rewrite H. split; reflexivity.
  - intros H. apply has_prefix_true in H. rewrite H. reflexivity.
Qed.

(** ** The walk of ProcessPPTX *)

Lemma walk_count (m : mapping) (sel : part -> bool) (fs : list part) :
  fst (walk m sel fs) = length (filter (fun f => sel f && p_readable f && p_writable f) fs).
Proof.
  induction fs as [|f fs IH]; simpl; [reflexivity|].
  unfold visit. destruct (walk m sel fs) as [k fs''] eqn:Hk. simpl in IH.
  destruct (sel f && p_readable f);
    [destruct (p_writable f); [|destruct (p_write_fail f)]|]; simpl; rewrite IH; reflexivity.
Qed.

(** ** ValidateSlideNumbers *)

Lemma filter_nil_Forall {A} (f : A -> bool) (l : list A) :
  filter f l = [] -> Forall (fun x => f x = false) l.
Proof.
  intros H. apply Forall_forall. intros x Hx.
  destruct (f x) eqn:Hfx; [|reflexivity].
  assert (Hin : In x (filter f l)) by (apply filter_In; auto).
  rewrite H in Hin. destruct Hin.
Qed.

Lemma ValidateSlideNumbers_shape (mp : list (Z * bytes)) (req : list Z) :
  let invalid := filter (fun n => (Z.of_nat (length mp) <? n)%Z) req in
  match ValidateSlideNumbers (Ok mp) req with
  | None => invalid = []
  | Some msg => invalid <> [] /\
      exists pre post, msg = pre ++ join (lit ", ") (map dec invalid) ++ post
  end.
Proof.
  cbv zeta. unfold ValidateSlideNumbers.
  destruct req as [|r rs]; [reflexivity|].
  destruct (filter _ (r :: rs)) as [|n [|n2 l]] eqn:Hf.
  - reflexivity.
  - split; [discriminate|].
    eexists (lit "slide "), _. reflexivity.
  - split; [discriminate|].
    eexists (lit "slides "), _. reflexivity.
Qed.

(** ** ParseSlideRange *)

Lemma add_slide_spec (slides : list Z) (x : Z) :
  NoDup slides ->
  NoDup (add_slide slides x) /\ (forall z, In z (add_slide slides x) <-> In z slides \/ z = x).
Proof.
  intros Hnd. unfold add_slide. destruct (existsb (Z.eqb x) slides) eqn:He.
  - apply existsb_exists in He as [y [Hy Hxy]]. apply Z.eqb_eq in Hxy. subst y.
    split; [exact Hnd|]. intros z; split; [auto|]. intros [H| ->]; auto.
  - split.
    + apply NoDup_app; [exact Hnd|repeat constructor; intros []|].
      intros z Hz [Heq|[]]. subst z. assert (Ht : existsb (Z.eqb x) slides = true)
        by (apply existsb_exists; exists x; split; [exact Hz|apply Z.eqb_refl]).
      congruence.
    + intros z. rewrite in_app_iff. simpl. intuition.
Qed.

Lemma fold_add_slide_spec (xs slides : list Z) :
  NoDup slides ->
  NoDup (fold_left add_slide xs slides) /\
  (forall z, In z (fold_left add_slide xs slides) <-> In z slides \/ In z xs).
Proof.
  revert slides; induction xs as [|x xs IH]; intros slides Hnd; simpl.
  - split; [exact Hnd|]. intros z; tauto.
  - destruct (add_slide_spec slides x Hnd) as [Hnd' Hin'].
    destruct (IH _ Hnd') as [H1 H2]. split; [exact H1|].
    intros z. rewrite H2, Hin'. intuition.
Qed.

Lemma In_zrange (a b z : Z) : In z (zrange a b) <-> (a <= z <= b)%Z.
Proof.
  unfold zrange. rewrite in_map_iff. split.
  - intros [k [<- Hk]]. apply in_seq in Hk. lia.
  - intros Hz. exists (Z.to_nat (z - a)). split; [lia|]. apply in_seq. lia.
Qed.

Lemma split_at_unique (c : ascii) (a b a' b' : bytes) :
  a ++ c :: b = a' ++ c :: b' -> ~ In c a -> ~ In c a' -> a = a' /\ b = b'.
Proof.
  revert a'; induction a as [|x a IH]; intros [|y a'] Heq Ha Ha'; simpl in Heq.
  - injection Heq as ->. split; reflexivity.
  - injection Heq as <- _. exfalso. apply Ha'. left; reflexivity.
  - injection Heq as -> _. exfalso. apply Ha. left; reflexivity.
  - injection Heq as -> Heq.
    destruct (IH a' Heq (fun H => Ha (or_intror H)) (fun H => Ha' (or_intror H))) as [-> ->].
    split; reflexivity.
Qed.

Lemma trim_no_dash_Atoi (part : bytes) :
  existsb (Ascii.eqb "-"%char) part = false -> ~ In "-"%char part.
Proof. intros H Hin. apply existsb_ascii_In in Hin. congruence. Qed.

Lemma parse_slide_parts_ok (parts : list bytes) (acc l : list Z) :
  parse_slide_parts parts acc = Ok l -> NoDup acc ->
  NoDup l /\ Forall entry_ok parts /\
  (forall z, In z l <-> In z acc \/ Exists (fun e => entry_covers e z) parts).
Proof.
  revert acc; induction parts as [|part0 rest IH]; intros acc Hp Hnd; simpl in Hp.
  - injection Hp as <-. split; [exact Hnd|split; [constructor|]].
    intros z. rewrite Exists_nil. tauto.
  - destruct (existsb (Ascii.eqb "-"%char) (trim_space part0)) eqn:Hd.
    + destruct (split_on "-"%char (trim_space part0)) as [|r0 [|r1 [|? ?]]] eqn:Hs;
        try discriminate.
      apply split_on_two in Hs as [Hpart [Hr0 Hr1]].
      destruct (Atoi (trim_space r0)) as [start|] eqn:Ha; [|discriminate].
      destruct (Atoi (trim_space r1)) as [fin|] eqn:Hb; [|discriminate].
      destruct (start <? 1)%Z eqn:H1; [discriminate|].
      destruct (fin <? start)%Z eqn:H2; [discriminate|].
      apply Z.ltb_ge in H1, H2.
      destruct (fold_add_slide_spec (zrange start fin) acc Hnd) as [Hnd' Hin'].
      destruct (IH _ Hp Hnd') as [Hl [Hok Hz]].
      split; [exact Hl|split].
      * constructor; [|exact Hok]. right.
        exists r0, r1, start, fin. repeat split; auto; lia.
      * intros z. rewrite Hz, Hin', In_zrange, Exists_cons. split.
        -- intros [[Hacc|Hr]|Hex]; auto. right; left. right.
           exists r0, r1, start, fin. repeat split; auto; lia.
        -- intros [Hacc|[Hc|Hex]]; auto. left; right.
           destruct Hc as [[Hno _]|[a [b [st [fi [Heq [Hn0 [_ [Ha' [Hb' Hr]]]]]]]]]].
           ++ exfalso. apply Hno. rewrite Hpart. apply in_or_app. right; left; reflexivity.
           ++ rewrite Hpart in Heq.
              destruct (split_at_unique _ _ _ _ _ Heq Hr0 Hn0) as [<- <-].
              rewrite Ha' in Ha. rewrite Hb' in Hb. injection Ha as ->. injection Hb as ->.
              exact Hr.
    + apply trim_no_dash_Atoi in Hd.
      destruct (Atoi (trim_space part0)) as [n|] eqn:Ha; [|discriminate].
      destruct (n <? 1)%Z eqn:H1; [discriminate|]. apply Z.ltb_ge in H1.
      destruct (add_slide_spec acc n Hnd) as [Hnd' Hin'].
      destruct (IH _ Hp Hnd') as [Hl [Hok Hz]].
      split; [exact Hl|split].
      * constructor; [|exact Hok]. left. split; [exact Hd|]. exists n. split; [exact Ha|lia].
      * intros z. rewrite Hz, Hin', Exists_cons. split.
        -- intros [[Hacc| ->]|Hex]; auto. right; left. left. split; assumption.
        -- intros [Hacc|[Hc|Hex]]; auto. left; right.
           destruct Hc as [[_ Hz']|[a [b [_ [_ [Heq _]]]]]].
           ++ congruence.
           ++ exfalso. apply Hd. rewrite Heq. apply in_or_app. right; left; reflexivity.
Qed.

Lemma insert_Z_perm (x : Z) (l : list Z) : Permutation (insert_Z x l) (x :: l).
Proof.
  induction l as [|y l IH]; simpl; [reflexivity|].
  destruct (y <? x)%Z; [|reflexivity].
  eapply perm_trans; [apply perm_skip, IH|]. apply perm_swap.
Qed.

Lemma sort_Z_perm (l : list Z) : Permutation (sort_Z l) l.
Proof.
  unfold sort_Z. induction l as [|x l IH]; simpl; [reflexivity|].
  eapply perm_trans; [apply insert_Z_perm|]. apply perm_skip, IH.
Qed.

Lemma insert_Z_HdRel (x y : Z) (l : list Z) :
  HdRel Z.lt y l -> (y < x)%Z -> HdRel Z.lt y (insert_Z x l).
Proof.
  intros Hh Hyx. destruct l as [|z l]; simpl; [constructor; exact Hyx|].
  destruct (z <? x)%Z; constructor; [inversion Hh; assumption|exact Hyx].
Qed.

Lemma insert_Z_sorted (x : Z) (l : list Z) :
  Sorted Z.lt l -> ~ In x l -> Sorted Z.lt (insert_Z x l).
Proof.
  induction l as [|y l IH]; intros Hs Hn; simpl.
  - repeat constructor.
  - apply Sorted_inv in Hs as [Hs Hh].
    destruct (y <? x)%Z eqn:Hyx.
    + apply Z.ltb_lt in Hyx. constructor.
      * apply IH; [exact Hs|]. intros H; apply Hn; right; exact H.
      * apply insert_Z_HdRel; assumption.
    + apply Z.ltb_ge in Hyx. constructor; [constructor; assumption|].
      constructor. assert (x <> y) by (intros ->; apply Hn; left; reflexivity). lia.
Qed.

Lemma sort_Z_sorted (l : list Z) : NoDup l -> Sorted Z.lt (sort_Z l).
Proof.
  unfold sort_Z. induction l as [|x l IH]; intros Hnd; simpl; [constructor|].
  inversion Hnd as [|? ? Hx Hnd']; subst.
  apply insert_Z_sorted; [apply IH, Hnd'|].
  intros Hin. apply Hx. exact (Permutation_in _ (sort_Z_perm l) Hin).
Qed.

(** ** Trimming and splitting *)

Section DropRunes.

Variable sp : bytes -> bool.

(** Whether [s] starts with a rune that [sp] accepts. *)
Definition starts_rune (s : bytes) : bool :=
  match s with
  | [] => false
  | a :: s1 =>
      sp [a] ||
      match s1 with
      | [] => false
      | b :: s2 => sp [a; b] || match s2 with [] => false | c :: _ => sp [a; b; c] end
      end
  end.

Lemma drop_runes_stop (s : bytes) : starts_rune s = false -> drop_runes sp s = s.
Proof.
  destruct s as [|a [|b [|c t]]]; simpl; [reflexivity| | |];
    destruct (sp [a]); try discriminate; [reflexivity| |];
    destruct (sp [a; b]); try discriminate; [reflexivity|];
    destruct (sp [a; b; c]); try discriminate; reflexivity.
Qed.

Lemma drop_runes_spec (s : bytes) :
  starts_rune (drop_runes sp s) = false /\
  exists ps, Forall (fun p => sp p = true) ps /\ s = concat ps ++ drop_runes sp s.
Proof.
  remember (length s) as n eqn:Hn. assert (Hle : length s <= n) by lia. clear Hn.
  revert s Hle. induction n as [|n IH]; intros s Hle.
  { destruct s; [|simpl in Hle; lia]. split; [reflexivity|]. exists []; split; [constructor|reflexivity]. }
  assert (Step : forall p t, sp p = true -> p <> [] -> s = p ++ t ->
            starts_rune (drop_runes sp t) = false /\
            (exists ps, Forall (fun p => sp p = true) ps /\ s = concat ps ++ drop_runes sp t)).
  { intros p t Hp Hne ->. rewrite length_app in Hle.
    destruct p as [|x p']; [congruence|]. simpl in Hle.
    destruct (IH t ltac:(lia)) as [H1 [ps [Hps Ht]]]. split; [exact H1|].
    exists ((x :: p') :: ps). split; [constructor; assumption|]. simpl. rewrite <- app_assoc, <- Ht. reflexivity. }
  destruct s as [|a [|b [|c t]]]; simpl drop_runes.
  - split; [reflexivity|]. exists []; split; [constructor|reflexivity].
  - destruct (sp [a]) eqn:Ha.
    + apply (Step [a] []); [assumption|discriminate|reflexivity].
    + split; [simpl; rewrite Ha; reflexivity|]. exists []; split; [constructor|reflexivity].
  - destruct (sp [a]) eqn:Ha; [apply (Step [a] [b]); [assumption|discriminate|reflexivity]|].
    destruct (sp [a; b]) eqn:Hb; [apply (Step [a; b] []); [assumption|discriminate|reflexivity]|].
    split; [simpl; rewrite Ha, Hb; reflexivity|]. exists []; split; [constructor|reflexivity].
  - destruct (sp [a]) eqn:Ha; [apply (Step [a] (b :: c :: t)); [assumption|discriminate|reflexivity]|].
    destruct (sp [a; b]) eqn:Hb; [apply (Step [a; b] (c :: t)); [assumption|discriminate|reflexivity]|].
    destruct (sp [a; b; c]) eqn:Hc; [apply (Step [a; b; c] t); [assumption|discriminate|reflexivity]|].
    split; [simpl; rewrite Ha, Hb, Hc; reflexivity|]. exists []; split; [constructor|reflexivity].
Qed.

Lemma drop_runes_idem (s : bytes) : drop_runes sp (drop_runes sp s) = drop_runes sp s.
Proof. apply drop_runes_stop, drop_runes_spec. Qed.

Lemma starts_rune_app (x y : bytes) : starts_rune x = true -> starts_rune (x ++ y) = true.
Proof.
  destruct x as [|a [|b [|c t]]]; intros H; [discriminate| | |]; simpl in H |- *.
  - rewrite orb_false_r in H. rewrite H. reflexivity.
  - destruct (sp [a]); [reflexivity|]. simpl in H |- *. rewrite orb_false_r in H. rewrite H. reflexivity.
  - exact H.
Qed.

Lemma starts_rune_app_inv (y u : bytes) :
  y <> [] -> starts_rune (y ++ u) = true ->
  starts_rune y = true \/ exists u1 u2, u = u1 ++ u2 /\ u1 <> [] /\ sp (y ++ u1) = true.
Proof.
  intros Hy. destruct y as [|a [|b [|c t]]]; [congruence| | |]; simpl.
  - destruct (sp [a]); [left; reflexivity|]. destruct u as [|d [|e u]]; simpl; [discriminate| |].
    + rewrite orb_false_r. intros H. right. exists [d], []. split; [reflexivity|]. split; [discriminate|exact H].
    + intros H. right. destruct (sp [a; d]) eqn:Hd.
      * exists [d], (e :: u). split; [reflexivity|]. split; [discriminate|exact Hd].
      * exists [d; e], u. split; [reflexivity|]. split; [discriminate|exact H].
  - destruct (sp [a]); [left; reflexivity|]. destruct (sp [a; b]); [left; reflexivity|].
    destruct u as [|d u]; simpl; [discriminate|]. intros H. right.
    exists [d], u. split; [reflexivity|]. split; [discriminate|exact H].
  - intros H. left. exact H.
Qed.

Section Bounded.

Hypothesis sp_len : forall p, sp p = true -> 1 <= length p <= 3.
Hypothesis sp_prefix_free : forall p k, sp p = true -> 0 < k < length p -> sp (firstn k p) = false.

Lemma drop_runes_rune (p x : bytes) : sp p = true -> drop_runes sp (p ++ x) = drop_runes sp x.
Proof.
  intros Hp. pose proof (sp_len p Hp) as Hl.
  destruct p as [|a [|b [|c [|d p]]]]; simpl in Hl; try lia; simpl.
  - rewrite Hp. reflexivity.
  - pose proof (sp_prefix_free _ 1 Hp ltac:(simpl; lia)) as H1. simpl in H1.
    rewrite H1, Hp. reflexivity.
  - pose proof (sp_prefix_free _ 1 Hp ltac:(simpl; lia)) as H1.
    pose proof (sp_prefix_free _ 2 Hp ltac:(simpl; lia)) as H2. simpl in H1, H2.
    rewrite H1, H2, Hp. reflexivity.
Qed.

Lemma drop_runes_concat (ps : list bytes) (x : bytes) :
  Forall (fun p => sp p = true) ps -> starts_rune x = false -> drop_runes sp (concat ps ++ x) = x.
Proof.
  intros Hps Hx. induction Hps as [|p ps Hp _ IH]; simpl.
  - apply drop_runes_stop, Hx.
  - rewrite <- app_assoc, drop_runes_rune by exact Hp. exact IH.
Qed.

End Bounded.

Section Separator.

Variable c : ascii.
Hypothesis sp_sep : forall p, In c p -> sp p = false.

Lemma starts_rune_sep (r t : bytes) : starts_rune r = false -> starts_rune (r ++ c :: t) = false.
Proof.
  assert (H1 : forall l, sp (c :: l) = false) by (intros; apply sp_sep; left; reflexivity).
  assert (H2 : forall a l, sp (a :: c :: l) = false)
    by (intros; apply sp_sep; right; left; reflexivity).
  assert (H3 : forall a b l, sp (a :: b :: c :: l) = false)
    by (intros; apply sp_sep; right; right; left; reflexivity).
  destruct r as [|a [|b [|d r]]]; simpl; intros H.
  - rewrite H1. destruct t as [|e [|f t]]; rewrite ?H1; reflexivity.
  - rewrite orb_false_r in H. rewrite H, H2.
    destruct t; [reflexivity|]. rewrite H2. reflexivity.
  - apply orb_false_iff in H as [Ha H]. rewrite orb_false_r in H. rewrite Ha, H, H3. reflexivity.
  - exact H.
Qed.

End Separator.

End DropRunes.

(** *** The runes of unicode.IsSpace *)

Lemma is_space_rune_In (p : bytes) : is_space_rune p = true -> In p space_runes.
Proof. apply In_existsb_eqb. Qed.

Lemma space_runes_len : forallb (fun p => (1 <=? length p) && (length p <=? 3)) space_runes = true.
Proof. vm_compute. reflexivity. Qed.

Lemma space_runes_prefix_free :
  forallb (fun p => forallb (fun k => negb (is_space_rune (firstn k p))) (seq 1 (length p - 1)))
    space_runes = true.
Proof. vm_compute. reflexivity. Qed.

Lemma space_runes_suffix_free :
  forallb (fun q => forallb (fun k => negb (is_space_rune (rev (firstn k (rev q)))))
                      (seq 1 (length q - 1))) space_runes = true.
Proof. vm_compute. reflexivity. Qed.

Lemma space_runes_not_plain :
  forallb (fun p => forallb (fun b => negb (plain b)) p) space_runes = true.
Proof. vm_compute. reflexivity. Qed.

(** No proper prefix [x] of a space rune [q] ends a space rune [p], nor does
    [x] end with a shorter space rune. *)
Lemma space_runes_no_straddle :
  forallb (fun p => forallb (fun q => forallb (fun k =>
      negb (has_suffix (firstn k q) p) && negb (has_suffix p (firstn k q) && (length p <? k)))
    (seq 1 (length q - 1))) space_runes) space_runes = true.
Proof. vm_compute. reflexivity. Qed.

Lemma in_seq_range (k n : nat) : 0 < k < S n -> In k (seq 1 n).
Proof. intros H. apply in_seq. lia. Qed.

Lemma space_rune_len (p : bytes) : is_space_rune p = true -> 1 <= length p <= 3.
Proof.
  intros H. apply is_space_rune_In in H.
  pose proof space_runes_len as L. rewrite forallb_forall in L. specialize (L p H).
  apply andb_prop in L as [L1 L2]. apply Nat.leb_le in L1, L2. lia.
Qed.

Lemma space_rune_prefix_free (p : bytes) (k : nat) :
  is_space_rune p = true -> 0 < k < length p -> is_space_rune (firstn k p) = false.
Proof.
  intros H Hk. apply is_space_rune_In in H.
  pose proof space_runes_prefix_free as L. rewrite forallb_forall in L. specialize (L p H).
  rewrite forallb_forall in L. specialize (L k (in_seq_range k (length p - 1) ltac:(lia))).
  destruct (is_space_rune (firstn k p)); [discriminate|reflexivity].
Qed.

Lemma space_rune_suffix_free (p : bytes) (k : nat) :
  is_space_rune (rev p) = true -> 0 < k < length p -> is_space_rune (rev (firstn k p)) = false.
Proof.
  intros H Hk. apply is_space_rune_In in H.
  pose proof space_runes_suffix_free as L. rewrite forallb_forall in L. specialize (L _ H).
  rewrite forallb_forall, length_rev, rev_involutive in L.
  specialize (L k (in_seq_range k (length p - 1) ltac:(lia))).
  destruct (is_space_rune (rev (firstn k p))); [discriminate|reflexivity].
Qed.

Lemma space_rune_plain (c : ascii) (p : bytes) : plain c = true -> In c p -> is_space_rune p = false.
Proof.
  intros Hc Hin. destruct (is_space_rune p) eqn:H; [|reflexivity].
  apply is_space_rune_In in H.
  pose proof space_runes_not_plain as L. rewrite forallb_forall in L. specialize (L p H).
  rewrite forallb_forall in L. specialize (L c Hin). rewrite Hc in L. discriminate.
Qed.

Lemma has_suffix_app (z w : bytes) : has_suffix w (z ++ w) = true.
Proof. unfold has_suffix. rewrite rev_app_distr. apply has_prefix_app. Qed.

(** The bytes of a run of space runes never end with the first bytes of a
    space rune. *)
Lemma space_runes_no_split (ps : list bytes) (z x y : bytes) :
  Forall (fun p => is_space_rune p = true) ps -> concat ps = z ++ x -> x <> [] -> y <> [] ->
  is_space_rune (x ++ y) = false.
Proof.
  intros Hps Hc Hx Hy. destruct (is_space_rune (x ++ y)) eqn:Hq; [exfalso|reflexivity].
  induction ps as [|p ps0 _] using rev_ind.
  - simpl in Hc. symmetry in Hc. apply app_eq_nil in Hc as [_ Hc]. exact (Hx Hc).
  - rewrite concat_app in Hc. simpl in Hc. rewrite app_nil_r in Hc.
    apply Forall_app in Hps as [_ Hp]. inversion Hp as [|? ? Hp1 _]; subst.
    pose proof space_runes_no_straddle as L. rewrite forallb_forall in L.
    specialize (L p (is_space_rune_In _ Hp1)). rewrite forallb_forall in L.
    specialize (L (x ++ y) (is_space_rune_In _ Hq)). rewrite forallb_forall in L.
    rewrite length_app in L.
    assert (Hlx : 0 < length x) by (destruct x; [congruence|simpl; lia]).
    assert (Hly : 0 < length y) by (destruct y; [congruence|simpl; lia]).
    specialize (L (length x) (in_seq_range (length x) (length x + length y - 1) ltac:(lia))).
    rewrite firstn_app, Nat.sub_diag, firstn_all, app_nil_r in L. simpl in L.
    apply andb_prop in L as [L1 L2].
    apply app_eq_app in Hc as [l [[H1 H2]|[H1 H2]]].
    + destruct l as [|b l].
      * simpl in H2. subst x. rewrite <- (app_nil_l p), has_suffix_app in L1. discriminate.
      * rewrite H2, has_suffix_app in L2. rewrite length_app in L2. simpl in L2.
        assert (E : (length p <? S (length l + length p)) = true) by (apply Nat.ltb_lt; lia).
        rewrite E in L2. discriminate.
    + rewrite H2, has_suffix_app in L1. discriminate.
Qed.

(** *** TrimLeftFunc, TrimRightFunc and TrimSpace *)

Definition rev_space_rune (r : bytes) : bool := is_space_rune (rev r).

Lemma trim_right_unfold (s : bytes) : trim_right s = rev (drop_runes rev_space_rune (rev s)).
Proof. reflexivity. Qed.

Lemma rev_space_rune_len (p : bytes) : rev_space_rune p = true -> 1 <= length p <= 3.
Proof. unfold rev_space_rune. intros H. rewrite <- length_rev. apply space_rune_len, H. Qed.

Lemma rev_concat {A} (l : list (list A)) : rev (concat l) = concat (rev (map (@rev A) l)).
Proof.
  induction l as [|x l IH]; [reflexivity|]. simpl.
  rewrite rev_app_distr, IH, concat_app. simpl. rewrite app_nil_r. reflexivity.
Qed.

Lemma Forall_space_runes_rev (ps : list bytes) :
  Forall (fun p => is_space_rune p = true) ps ->
  Forall (fun p => rev_space_rune p = true) (rev (map (@rev ascii) ps)).
Proof.
  intros H. apply Forall_rev, Forall_map. eapply Forall_impl; [|exact H].
  intros p Hp. unfold rev_space_rune. rewrite rev_involutive. exact Hp.
Qed.

Lemma trim_left_spec (s : bytes) :
  starts_rune is_space_rune (trim_left s) = false /\
  exists ps, Forall (fun p => is_space_rune p = true) ps /\ s = concat ps ++ trim_left s.
Proof. apply drop_runes_spec. Qed.

Lemma trim_right_spec (s : bytes) :
  starts_rune rev_space_rune (rev (trim_right s)) = false /\
  exists qs, Forall (fun p => is_space_rune p = true) qs /\ s = trim_right s ++ concat qs.
Proof.
  rewrite trim_right_unfold, rev_involutive.
  destruct (drop_runes_spec rev_space_rune (rev s)) as [H1 [ps [Hps Hs]]].
  split; [exact H1|]. exists (rev (map (@rev ascii) ps)). split.
  - apply Forall_rev, Forall_map. eapply Forall_impl; [|exact Hps]. intros p Hp. exact Hp.
  - rewrite <- rev_concat, <- rev_app_distr, <- Hs, rev_involutive. reflexivity.
Qed.

Lemma trim_left_concat (ps : list bytes) (x : bytes) :
  Forall (fun p => is_space_rune p = true) ps -> starts_rune is_space_rune x = false ->
  trim_left (concat ps ++ x) = x.
Proof. apply drop_runes_concat; [exact space_rune_len|exact space_rune_prefix_free]. Qed.

Lemma trim_right_concat (qs : list bytes) (x : bytes) :
  Forall (fun p => is_space_rune p = true) qs -> starts_rune rev_space_rune (rev x) = false ->
  trim_right (x ++ concat qs) = x.
Proof.
  intros Hqs Hx. rewrite trim_right_unfold, rev_app_distr, rev_concat.
  rewrite drop_runes_concat; [apply rev_involutive| exact rev_space_rune_len| |
    apply Forall_space_runes_rev, Hqs|exact Hx].
  exact space_rune_suffix_free.
Qed.

Lemma trim_left_idem (s : bytes) : trim_left (trim_left s) = trim_left s.
Proof. apply drop_runes_idem. Qed.

Lemma trim_right_idem (s : bytes) : trim_right (trim_right s) = trim_right s.
Proof. rewrite !trim_right_unfold, rev_involutive, drop_runes_idem. reflexivity. Qed.

Lemma In_trim_left (c : ascii) (s : bytes) : In c (trim_left s) -> In c s.
Proof.
  destruct (trim_left_spec s) as [_ [ps [_ Hs]]]. intros H. rewrite Hs. apply in_or_app; right; exact H.
Qed.

Lemma In_trim_right (c : ascii) (s : bytes) : In c (trim_right s) -> In c s.
Proof.
  destruct (trim_right_spec s) as [_ [qs [_ Hs]]]. intros H. rewrite Hs. apply in_or_app; left; exact H.
Qed.

Lemma not_In_space_runes (c : ascii) (ps : list bytes) :
  plain c = true -> Forall (fun p => is_space_rune p = true) ps -> ~ In c (concat ps).
Proof.
  intros Hc Hps Hin. apply in_concat in Hin as [p [Hp Hin]].
  rewrite Forall_forall in Hps. specialize (Hps p Hp).
  rewrite (space_rune_plain c p Hc Hin) in Hps. discriminate.
Qed.

Lemma In_trim_space (c : ascii) (s : bytes) :
  plain c = true -> (In c (trim_space s) <-> In c s).
Proof.
  intros Hc. unfold trim_space. split; [intros H; apply In_trim_left, In_trim_right, H|].
  intros H.
  destruct (trim_left_spec s) as [_ [ps [Hps Hs]]].
  rewrite Hs in H. apply in_app_or in H as [H|H]; [destruct (not_In_space_runes c ps Hc Hps H)|].
  destruct (trim_right_spec (trim_left s)) as [_ [qs [Hqs Ht]]].
  rewrite Ht in H. apply in_app_or in H as [H|H]; [exact H|destruct (not_In_space_runes c qs Hc Hqs H)].
Qed.

Lemma trim_left_sep (c : ascii) (w t : bytes) :
  plain c = true -> trim_left (w ++ c :: t) = trim_left w ++ c :: t.
Proof.
  intros Hc. destruct (trim_left_spec w) as [Hr [ps [Hps Hw]]].
  rewrite Hw at 1. rewrite <- app_assoc. apply trim_left_concat; [exact Hps|].
  apply starts_rune_sep; [|exact Hr]. intros p Hp. apply (space_rune_plain c p Hc Hp).
Qed.

Lemma trim_right_sep (c : ascii) (w t : bytes) :
  plain c = true -> trim_right (w ++ c :: t) = w ++ c :: trim_right t.
Proof.
  intros Hc. rewrite !trim_right_unfold, rev_app_distr. simpl. rewrite <- app_assoc. simpl.
  destruct (drop_runes_spec rev_space_rune (rev t)) as [Hr [ps [Hps Ht]]].
  rewrite Ht at 1. rewrite <- app_assoc.
  rewrite drop_runes_concat; [| exact rev_space_rune_len | exact space_rune_suffix_free
    | exact Hps | ].
  - rewrite rev_app_distr. simpl. rewrite rev_involutive, <- app_assoc. reflexivity.
  - apply starts_rune_sep; [|exact Hr]. intros p Hp. unfold rev_space_rune.
    apply (space_rune_plain c); [exact Hc|]. apply in_rev. rewrite rev_involutive. exact Hp.
Qed.

Lemma trim_left_right (s : bytes) : trim_left (trim_right s) = trim_right (trim_left s).
Proof.
  destruct (trim_left_spec s) as [Hr [ps [Hps Hs]]].
  destruct (trim_right_spec (trim_left s)) as [Hr' [qs [Hqs Ht]]].
  remember (trim_left s) as r eqn:Er. remember (trim_right r) as r' eqn:Er'.
  rewrite Ht, app_assoc in Hs. rewrite Hs.
  destruct r' as [|a r0].
  - rewrite app_nil_r, <- concat_app.
    change (concat (ps ++ qs)) with ([] ++ concat (ps ++ qs)). rewrite trim_right_concat;
      [reflexivity|apply Forall_app; split; assumption|reflexivity].
  - set (r' := a :: r0) in *.
    assert (Hl : starts_rune is_space_rune r' = false).
    { destruct (starts_rune is_space_rune r') eqn:E; [|reflexivity].
      rewrite Ht in Hr. rewrite (starts_rune_app _ _ _ E) in Hr. discriminate. }
    rewrite trim_right_concat; [apply trim_left_concat; assumption|exact Hqs|].
    rewrite rev_app_distr.
    destruct (starts_rune rev_space_rune (rev r' ++ rev (concat ps))) eqn:E; [|reflexivity].
    apply starts_rune_app_inv in E as [E|[u1 [u2 [Hu [Hu1 E]]]]].
    + rewrite E in Hr'. discriminate.
    + exfalso. unfold rev_space_rune in E. rewrite rev_app_distr, rev_involutive in E.
      assert (Hc : concat ps = rev u2 ++ rev u1) by (rewrite <- rev_app_distr, <- Hu, rev_involutive; reflexivity).
      rewrite (space_runes_no_split ps (rev u2) (rev u1) r' Hps Hc) in E; [discriminate| |discriminate].
      intros H. apply Hu1. rewrite <- (rev_involutive u1), H. reflexivity.
    + intros H. apply (f_equal (@length ascii)) in H. rewrite length_rev in H. discriminate.
Qed.

Lemma trim_space_idem (s : bytes) : trim_space (trim_space s) = trim_space s.
Proof.
  unfold trim_space. rewrite trim_left_right, trim_left_idem, trim_right_idem. reflexivity.
Qed.

Lemma trim_space_left (s : bytes) : trim_space (trim_left s) = trim_space s.
Proof. unfold trim_space. rewrite trim_left_idem. reflexivity. Qed.

Lemma trim_space_right (s : bytes) : trim_space (trim_right s) = trim_space s.
Proof. unfold trim_space. rewrite trim_left_right, trim_right_idem. reflexivity. Qed.

(** An ASCII byte that is no white space starts and ends no space rune. *)
Lemma starts_rune_plain (sp : bytes -> bool) (a : ascii) (t : bytes) :
  (forall p, In a p -> sp p = false) -> starts_rune sp (a :: t) = false.
Proof. intros H. exact (starts_rune_sep sp a H [] t eq_refl). Qed.

Lemma trim_space_plain (s : bytes) : forallb plain s = true -> trim_space s = s.
Proof.
  intros H. destruct s as [|a t]; [reflexivity|].
  assert (Hp : forall x, In x (a :: t) -> plain x = true) by (apply forallb_forall, H).
  unfold trim_space. rewrite <- (app_nil_l (a :: t)) at 1.
  change (@nil ascii) with (concat (@nil bytes)). rewrite trim_left_concat; [|constructor|].
  - rewrite <- (app_nil_r (a :: t)) at 1. change (@nil ascii) with (concat (@nil bytes)).
    rewrite trim_right_concat; [reflexivity|constructor|].
    destruct (rev (a :: t)) as [|b u] eqn:E; [reflexivity|].
    apply starts_rune_plain. intros p Hin. unfold rev_space_rune.
    apply (space_rune_plain b); [apply Hp; rewrite in_rev, E; left; reflexivity|].
    apply in_rev. rewrite rev_involutive. exact Hin.
  - apply starts_rune_plain. intros p Hin. apply (space_rune_plain a); [apply Hp; left; reflexivity|exact Hin].
Qed.

(** Two entries are alike when they trim to the same bytes. *)
Definition trim_eq (a b : bytes) : Prop := trim_space a = trim_space b.

Lemma Forall2_trim_eq_refl (l : list bytes) : Forall2 trim_eq l l.
Proof. induction l; constructor; [reflexivity|assumption]. Qed.

Lemma split_on_no_sep (c : ascii) (w : bytes) : ~ In c w -> split_on c w = [w].
Proof.
  induction w as [|x w IH]; simpl; [reflexivity|].
  intros Hn. destruct (Ascii.eqb x c) eqn:Hx.
  - apply Ascii.eqb_eq in Hx. subst. exfalso. apply Hn. left; reflexivity.
  - rewrite IH; [reflexivity|]. intros H; apply Hn; right; exact H.
Qed.

Lemma split_on_app_sep (c : ascii) (w t : bytes) :
  ~ In c w -> split_on c (w ++ c :: t) = w :: split_on c t.
Proof.
  induction w as [|x w IH]; simpl; intros Hn.
  - rewrite Ascii.eqb_refl. reflexivity.
  - destruct (Ascii.eqb x c) eqn:Hx.
    + apply Ascii.eqb_eq in Hx. subst. exfalso. apply Hn. left; reflexivity.
    + rewrite IH; [reflexivity|]. intros H; apply Hn; right; exact H.
Qed.

Lemma split_on_of_join (c : ascii) (ws : list bytes) :
  ws <> [] -> Forall (fun w => ~ In c w) ws -> split_on c (join [c] ws) = ws.
Proof.
  induction ws as [|w ws IH]; intros Hne Hf; [congruence|].
  inversion Hf as [|? ? Hw Hf']; subst.
  destruct ws as [|w2 ws].
  - apply split_on_no_sep, Hw.
  - change (join [c] (w :: w2 :: ws)) with (w ++ c :: join [c] (w2 :: ws)).
    rewrite split_on_app_sep by exact Hw. rewrite IH; [reflexivity|discriminate|exact Hf'].
Qed.

(** [f] applied to the last element of a list. *)
Fixpoint map_last (f : bytes -> bytes) (l : list bytes) : list bytes :=
  match l with
  | [] => []
  | [w] => [f w]
  | w :: l' => w :: map_last f l'
  end.

Lemma map_last_cons (f : bytes -> bytes) (w : bytes) (l : list bytes) :
  l <> [] -> map_last f (w :: l) = w :: map_last f l.
Proof. destruct l; [congruence|reflexivity]. Qed.

Lemma map_last_nil (f : bytes -> bytes) (l : list bytes) : l <> [] -> map_last f l <> [].
Proof. destruct l as [|w [|w2 l]]; [congruence|discriminate|discriminate]. Qed.

Lemma join_cons (c : ascii) (w : bytes) (l : list bytes) :
  l <> [] -> join [c] (w :: l) = w ++ c :: join [c] l.
Proof. destruct l; [congruence|reflexivity]. Qed.

Lemma trim_right_join (c : ascii) (l : list bytes) :
  plain c = true -> trim_right (join [c] l) = join [c] (map_last trim_right l).
Proof.
  intros Hc. induction l as [|w l IH]; [reflexivity|].
  destruct l as [|w2 l]; [reflexivity|].
  rewrite join_cons, trim_right_sep, IH by (assumption || discriminate).
  rewrite (map_last_cons trim_right w (w2 :: l)), join_cons by (discriminate || (apply map_last_nil; discriminate)).
  reflexivity.
Qed.

Lemma trim_space_join (c : ascii) (w : bytes) (l : list bytes) :
  plain c = true ->
  trim_space (join [c] (w :: l)) = join [c] (map_last trim_right (trim_left w :: l)).
Proof.
  intros Hc. destruct l as [|w2 l]; [reflexivity|].
  unfold trim_space. rewrite join_cons, trim_left_sep, trim_right_sep, trim_right_join
    by (assumption || discriminate).
  rewrite (map_last_cons trim_right (trim_left w) (w2 :: l)), join_cons
    by (discriminate || (apply map_last_nil; discriminate)).
  reflexivity.
Qed.

Lemma Forall_map_last (P : bytes -> Prop) (f : bytes -> bytes) (l : list bytes) :
  (forall w, P w -> P (f w)) -> Forall P l -> Forall P (map_last f l).
Proof.
  intros Hf H. induction H as [|w l Hw H IH]; [constructor|].
  destruct l as [|w2 l]; simpl; constructor; auto.
Qed.

Lemma Forall2_map_last (f : bytes -> bytes) (l : list bytes) :
  (forall w, trim_eq (f w) w) -> Forall2 trim_eq (map_last f l) l.
Proof.
  intros Hf. induction l as [|w l IH]; [constructor|].
  destruct l as [|w2 l]; constructor; auto. reflexivity.
Qed.

Lemma split_on_trim_space (c : ascii) (s : bytes) :
  plain c = true -> Forall2 trim_eq (split_on c (trim_space s)) (split_on c s).
Proof.
  intros Hc. destruct (split_on_join c s) as [Hj [Hf Hne]].
  destruct (split_on c s) as [|w l] eqn:Hs; [congruence|].
  rewrite <- Hj, trim_space_join by exact Hc.
  inversion Hf as [|? ? Hw Hl]; subst.
  rewrite split_on_of_join.
  - destruct l as [|w2 l].
    + constructor; [apply trim_space_idem|constructor].
    + rewrite (map_last_cons trim_right (trim_left w) (w2 :: l)) by discriminate. constructor; [apply trim_space_left|].
      apply Forall2_map_last. intros v. apply trim_space_right.
  - apply map_last_nil. discriminate.
  - apply Forall_map_last; [intros v Hv H; apply Hv, In_trim_right, H|].
    constructor; [intros H; apply Hw, In_trim_left, H|exact Hl].
Qed.

(** ** The loop of ParseColorMapping *)

Lemma isValidColor_nonempty (c : bytes) : isValidColor c = true -> is_empty c = false.
Proof. destruct c; [discriminate|reflexivity]. Qed.

Lemma parse_pairs_trim_eq (xs ys : list bytes) (acc : mapping) :
  Forall2 trim_eq xs ys -> parse_pairs xs acc = parse_pairs ys acc.
Proof.
  intros H. revert acc. induction H as [|x y xs ys Hxy _ IH]; intros acc; [reflexivity|].
  simpl. unfold trim_eq in Hxy. rewrite Hxy.
  destruct (split_on ":"%char (trim_space y)) as [|p0 [|p1 [|? ?]]]; rewrite ?IH; reflexivity.
Qed.

Ltac parse_cases :=
  repeat match goal with
         | |- context [if ?b then _ else _] => destruct b
         | |- context [match lookup ?k ?m with _ => _ end] => destruct (lookup k m)
         end.

Lemma parse_pairs_app (l1 r : list bytes) (acc : mapping) :
  parse_pairs (l1 ++ r) acc =
  match parse_pairs l1 acc with Ok a => parse_pairs r a | Err e => Err e end.
Proof.
  revert acc. induction l1 as [|x l1 IH]; intros acc; [reflexivity|].
  simpl. destruct (split_on ":"%char (trim_space x)) as [|p0 [|p1 [|? ?]]];
    parse_cases; try reflexivity; apply IH.
Qed.

Lemma parse_pairs_mono (l : list bytes) (acc a : mapping) (k v : bytes) :
  parse_pairs l acc = Ok a -> lookup k acc = Some v -> lookup k a = Some v.
Proof.
  revert acc. induction l as [|x l IH]; intros acc Hp Hk; simpl in Hp.
  - congruence.
  - destruct (is_empty (trim_space x)); [exact (IH _ Hp Hk)|].
    destruct (negb (existsb (Ascii.eqb ":"%char) (trim_space x))); [discriminate|].
    destruct (split_on ":"%char (trim_space x)) as [|p0 [|p1 [|? ?]]]; try discriminate.
    destruct (is_empty (trim_space p0) || is_empty (trim_space p1)); [discriminate|].
    destruct (negb (isValidColor (trim_space p0))); [destruct (isValidHexColor _); discriminate|].
    destruct (negb (isValidColor (trim_space p1))); [destruct (isValidHexColor _); discriminate|].
    destruct (lookup (trim_space p0) acc) as [t|] eqn:Hl.
    + destruct (negb (bytes_eqb t (trim_space p1))); [discriminate|exact (IH _ Hp Hk)].
    + apply (IH _ Hp). rewrite lookup_aset.
      destruct (bytes_eqb k (trim_space p0)) eqn:E; [|exact Hk].
      apply bytes_eqb_eq in E. subst. congruence.
Qed.

(** One step of the loop that succeeds: a blank entry is skipped; otherwise the
    entry is a pair of valid colours, either already present with the same
    target or added. *)
Lemma parse_pairs_cons_ok (p : bytes) (rest : list bytes) (acc a : mapping) :
  parse_pairs (p :: rest) acc = Ok a ->
  (is_empty (trim_space p) = true /\ parse_pairs rest acc = Ok a) \/
  (exists x y, pair_of p = Some (x, y) /\ isValidColor x = true /\ isValidColor y = true /\
     ((lookup x acc = Some y /\ parse_pairs rest acc = Ok a) \/
      (lookup x acc = None /\ parse_pairs rest (aset x y acc) = Ok a))).
Proof.
  simpl. intros Hp.
  destruct (is_empty (trim_space p)) eqn:He; [left; split; [reflexivity|exact Hp]|right].
  destruct (negb (existsb (Ascii.eqb ":"%char) (trim_space p))); [discriminate|].
  unfold pair_of.
  destruct (split_on ":"%char (trim_space p)) as [|p0 [|p1 [|? ?]]]; try discriminate.
  destruct (is_empty (trim_space p0) || is_empty (trim_space p1)); [discriminate|].
  destruct (isValidColor (trim_space p0)) eqn:Hv0; simpl in Hp;
    [|destruct (isValidHexColor (trim_space p0)); discriminate].
  destruct (isValidColor (trim_space p1)) eqn:Hv1; simpl in Hp;
    [|destruct (isValidHexColor (trim_space p1)); discriminate].
  exists (trim_space p0), (trim_space p1).
  split; [reflexivity|split; [exact Hv0|split; [exact Hv1|]]].
  destruct (lookup (trim_space p0) acc) as [t|] eqn:Hl.
  - destruct (bytes_eqb t (trim_space p1)) eqn:E; [|discriminate].
    apply bytes_eqb_eq in E. subst. left. split; [reflexivity|exact Hp].
  - right. split; [reflexivity|exact Hp].
Qed.

(** After a successful run, every pair entry of the list is in the table. *)
Lemma parse_pairs_entry (l : list bytes) (acc a : mapping) (e x y : bytes) :
  parse_pairs l acc = Ok a -> In e l -> pair_of e = Some (x, y) ->
  lookup x a = Some y /\ isValidColor x = true /\ isValidColor y = true.
Proof.
  revert acc. induction l as [|p l IH]; intros acc Hp Hin He; [destruct Hin|].
  apply parse_pairs_cons_ok in Hp.
  destruct Hin as [->|Hin].
  - destruct Hp as [[Hemp _]|[x' [y' [He' [Hx [Hy Hcase]]]]]].
    + unfold pair_of in He. destruct (trim_space e); [discriminate|discriminate].
    + rewrite He in He'. injection He' as <- <-. split; [|split; assumption].
      destruct Hcase as [[Hl Hr]|[Hl Hr]].
      * exact (parse_pairs_mono _ _ _ _ _ Hr Hl).
      * apply (parse_pairs_mono _ _ _ _ _ Hr). rewrite lookup_aset, bytes_eqb_refl. reflexivity.
  - destruct Hp as [[_ Hr]|[x' [y' [_ [_ [_ [[_ Hr]|[_ Hr]]]]]]]]; eapply IH; eauto.
Qed.

(** One step of the loop on a pair of valid colours. *)
Lemma parse_pairs_cons_pair (p : bytes) (rest : list bytes) (acc : mapping) (x z : bytes) :
  pair_of p = Some (x, z) -> isValidColor x = true -> isValidColor z = true ->
  parse_pairs (p :: rest) acc =
  match lookup x acc with
  | Some t => if negb (bytes_eqb t z) then Err (ErrConflict x t z) else parse_pairs rest acc
  | None => parse_pairs rest (aset x z acc)
  end.
Proof.
  intros Hp Hx Hz. unfold pair_of in Hp.
  destruct (split_on ":"%char (trim_space p)) as [|p0 [|p1 [|? ?]]] eqn:Hs; try discriminate.
  injection Hp as <- <-.
  destruct (split_on_two _ _ _ _ Hs) as [Ht _].
  assert (He : is_empty (trim_space p) = false) by (rewrite Ht; destruct p0; reflexivity).
  assert (Hc : existsb (Ascii.eqb ":"%char) (trim_space p) = true)
    by (apply existsb_ascii_In; rewrite Ht; apply in_or_app; right; left; reflexivity).
  simpl. rewrite He, Hc, Hs. simpl.
  rewrite (isValidColor_nonempty _ Hx), (isValidColor_nonempty _ Hz), Hx, Hz. reflexivity.
Qed.

(** ParseColorMapping on a string whose comma-separated entries are [ws],
    one of them containing a colon, runs the loop on [ws] itself. *)
Lemma ParseColorMapping_entries (ws : list bytes) :
  Forall (fun w => ~ In ","%char w) ws -> Exists (fun w => In ":"%char w) ws ->
  ParseColorMapping (join [","%char] ws) =
  match parse_pairs ws [] with
  | Ok m => if is_empty_map m then Err ErrNoMappings else Ok m
  | Err e => Err e
  end.
Proof.
  intros Hf Hex. unfold ParseColorMapping.
  assert (Hne : ws <> []) by (intros ->; inversion Hex).
  assert (Hin : In ":"%char (trim_space (join [","%char] ws))).
  { apply In_trim_space; [reflexivity|]. apply Exists_exists in Hex as [w [Hw Hc]].
    destruct (join_contains [","%char] w ws Hw) as [a [b ->]].
    apply in_or_app; right; apply in_or_app; left; exact Hc. }
  destruct (trim_space (join [","%char] ws)) as [|c0 t] eqn:Ht; [destruct Hin|].
  simpl is_empty. cbv iota. rewrite <- Ht.
  rewrite (parse_pairs_trim_eq _ ws); [reflexivity|].
  rewrite <- (split_on_of_join ","%char ws Hne Hf) at 2.
  apply split_on_trim_space. reflexivity.
Qed.

Lemma pair_of_colon (e x y : bytes) : pair_of e = Some (x, y) -> In ":"%char e.
Proof.
  unfold pair_of. destruct (split_on ":"%char (trim_space e)) as [|p0 [|p1 [|? ?]]] eqn:Hs;
    try discriminate.
  intros _. destruct (split_on_two _ _ _ _ Hs) as [Ht _].
  apply (In_trim_space ":"%char e eq_refl). rewrite Ht.
  apply in_or_app; right; left; reflexivity.
Qed.

(** ** The matcher: what a match covers *)

Lemma m_atom_sound (a : atom) (s x r : bytes) : In (x, r) (m_atom a s) -> s = x ++ r.
Proof.
  destruct a as [w|p q]; simpl.
  - destruct (has_prefix w s) eqn:H; [|intros []].
    intros [[= <- <-]|[]]. apply has_prefix_true, H.
  - rewrite in_map_iff. intros [k [[= <- <-] _]]. symmetry. apply firstn_skipn.
Qed.

Lemma m_seq_sound (g : group) (s x r : bytes) : In (x, r) (m_seq g s) -> s = x ++ r.
Proof.
  revert s x r. induction g as [|a g IH]; intros s x r; simpl.
  - intros [[= <- <-]|[]]. reflexivity.
  - rewrite in_flat_map. intros [[x1 r1] [H1 H2]]. apply in_map_iff in H2 as [[x2 r2] [[= <- <-] H2]].
    simpl in *. rewrite (m_atom_sound _ _ _ _ H1), (IH _ _ _ H2), app_assoc. reflexivity.
Qed.

Lemma m_groups_sound (gs : branch) (s : bytes) (caps : list bytes) (r : bytes) :
  In (caps, r) (m_groups gs s) -> s = concat caps ++ r.
Proof.
  revert s caps r. induction gs as [|g gs IH]; intros s caps r; simpl.
  - intros [[= <- <-]|[]]. reflexivity.
  - rewrite in_flat_map. intros [[x1 r1] [H1 H2]]. apply in_map_iff in H2 as [[c2 r2] [[= <- <-] H2]].
    simpl in *. rewrite (m_seq_sound _ _ _ _ H1), (IH _ _ _ H2), app_assoc. reflexivity.
Qed.

Lemma m_alts_sound (i : nat) (rg : regex) (s : bytes) (j : nat) (caps : list bytes) (r : bytes) :
  In (j, caps, r) (m_alts i rg s) -> s = concat caps ++ r.
Proof.
  revert i. induction rg as [|b rg IH]; intros i; simpl; [intros []|].
  rewrite in_app_iff. intros [H|H].
  - apply in_map_iff in H as [[c2 r2] [[= _ <- <-] H]]. exact (m_groups_sound _ _ _ _ H).
  - exact (IH _ H).
Qed.

Lemma first_match_sound (rg : regex) (s : bytes) (i : nat) (caps : list bytes) (rest : bytes) :
  first_match rg s = Some (i, caps, rest) -> s = concat caps ++ rest.
Proof.
  unfold first_match. destruct (m_alts 0 rg s) as [|x l] eqn:H; [discriminate|].
  intros [= ->]. apply (m_alts_sound 0 rg s i). rewrite H. left; reflexivity.
Qed.

(** The pieces of a scan spell the input, and a match spells its groups. *)
Lemma scan_text (fuel : nat) (rg : regex) (s : bytes) :
  concat (map piece_text (scan fuel rg s)) = s /\
  Forall (fun p => match p with Hit _ whole caps => whole = concat caps | Raw _ => True end)
         (scan fuel rg s).
Proof.
  revert s. induction fuel as [|f IH]; intros s; simpl.
  - split.
    + induction s as [|c s IHs]; simpl; [reflexivity|]. rewrite IHs. reflexivity.
    + apply Forall_forall. intros p Hp. apply in_map_iff in Hp as [c [<- _]]. exact I.
  - destruct s as [|c s']; [split; [reflexivity|constructor]|].
    destruct (first_match rg (c :: s')) as [[[i caps] rest]|] eqn:Hm.
    + destruct (length rest <? length (c :: s')) eqn:Hl.
      * pose proof (first_match_sound _ _ _ _ _ Hm) as Hs.
        assert (Hw : firstn (length (c :: s') - length rest) (c :: s') = concat caps).
        { rewrite Hs, length_app.
          replace (length (concat caps) + length rest - length rest) with (length (concat caps))
            by lia.
          rewrite firstn_app, firstn_all, Nat.sub_diag, firstn_O, app_nil_r. reflexivity. }
        destruct (IH rest) as [H1 H2]. rewrite Hw. simpl. split.
        -- rewrite H1. symmetry. exact Hs.
        -- constructor; [reflexivity|exact H2].
      * destruct (IH s') as [H1 H2]. simpl. split; [rewrite H1; reflexivity|constructor; auto].
    + destruct (IH s') as [H1 H2]. simpl. split; [rewrite H1; reflexivity|constructor; auto].
Qed.

Lemma concat_map_ext_in (f g : piece -> bytes) (ps : list piece) :
  Forall (fun p => f p = g p) ps -> concat (map f ps) = concat (map g ps).
Proof. induction 1; simpl; [reflexivity|]. congruence. Qed.

Lemma In_hit_values (i j : nat) (whole : bytes) (caps : list bytes) (ps : list piece) :
  In (Hit j whole caps) ps -> In (nth i caps []) (hit_values i ps).
Proof.
  intros H. unfold hit_values. apply in_flat_map. exists (Hit j whole caps).
  split; [exact H|left; reflexivity].
Qed.

(** ** The rewriters leave unmapped elements alone *)

Lemma emit_identity_scan (emit : piece -> bytes) (rg : regex) (xml : bytes) :
  (forall j whole caps, In (Hit j whole caps) (find_all rg xml) -> whole = concat caps ->
     emit (Hit j whole caps) = whole) ->
  (forall c, emit (Raw c) = [c]) ->
  concat (map emit (find_all rg xml)) = xml.
Proof.
  intros Hh Hr. destruct (scan_text (length xml) rg xml) as [Ht Hok].
  unfold find_all in *. rewrite <- Ht at 3. apply concat_map_ext_in.
  apply Forall_forall. intros [c|j whole caps] Hin; [apply Hr|].
  apply Hh; [exact Hin|]. rewrite Forall_forall in Hok. exact (Hok _ Hin).
Qed.

Lemma ReplaceSchemeColors_unmapped (xml : bytes) (m : mapping) :
  (forall v, In v (hit_values 1 (find_all scheme_pattern xml)) -> lookup v m = None) ->
  ReplaceSchemeColors xml m = xml.
Proof.
  intros Hv. unfold ReplaceSchemeColors.
  destruct (is_empty_map m); [reflexivity|]. cbv zeta.
  destruct (no_matches (find_all scheme_pattern xml)); [reflexivity|].
  apply emit_identity_scan; [|reflexivity].
  intros j whole caps Hin Hw. pose proof (Hv _ (In_hit_values 1 _ _ _ _ Hin)) as Hn.
  simpl. destruct caps as [|o [|cur [|cl [|? ?]]]]; try reflexivity.
  simpl in Hn. rewrite Hn, Hw. simpl. rewrite app_nil_r. reflexivity.
Qed.

Lemma ReplaceSrgbColors_unmapped (xml : bytes) (m : mapping) :
  (forall v, In v (hit_values 1 (find_all srgb_pattern xml)) ->
     lookup (to_upper v) (hex_mapping m) = None) ->
  ReplaceSrgbColors xml m = xml.
Proof.
  intros Hv. unfold ReplaceSrgbColors.
  destruct (is_empty_map m); [reflexivity|]. cbv zeta.
  destruct (is_empty_map (hex_mapping m)); [reflexivity|].
  destruct (no_matches (find_all srgb_pattern xml)); [reflexivity|].
  apply emit_identity_scan; [|reflexivity].
  intros j whole caps Hin _. pose proof (Hv _ (In_hit_values 1 _ _ _ _ Hin)) as Hn.
  simpl. destruct caps as [|o [|cur [|cl [|? ?]]]]; try reflexivity.
  simpl in Hn. rewrite Hn. reflexivity.
Qed.

Lemma ReplaceSchemeColorsWithSrgb_unmapped (xml : bytes) (m : mapping) :
  (forall v, In v (hit_values 1 (find_all scheme_pattern xml)) ->
     lookup v (snd (scheme_tables m)) = None) ->
  (forall v, In v (hit_values 3 (find_all element_pattern xml)) ->
     lookup v (fst (scheme_tables m)) = None /\ lookup v (snd (scheme_tables m)) = None) ->
  ReplaceSchemeColorsWithSrgb xml m = xml.
Proof.
  intros Hs He. unfold ReplaceSchemeColorsWithSrgb.
  destruct (is_empty_map m); [reflexivity|].
  destruct (scheme_tables m) as [s2h s2s]. simpl in Hs, He.
  destruct (is_empty_map s2h); [apply ReplaceSchemeColors_unmapped, Hs|].
  destruct (no_matches (find_all element_pattern xml)); [reflexivity|].
  apply emit_identity_scan; [|reflexivity].
  intros j whole caps Hin _. destruct (He _ (In_hit_values 3 _ _ _ _ Hin)) as [Hn1 Hn2].
  simpl. destruct j as [|j];
    destruct caps as [|c0 [|c1 [|c2 [|c3 [|c4 [|c5 [|c6 [|? ?]]]]]]]]; simpl in Hn1, Hn2;
    try reflexivity; rewrite Hn1, Hn2; reflexivity.
Qed.

(** ** The tables built from a mapping *)

Lemma aset_keys (k k' v : bytes) (acc : mapping) :
  In k (map fst (aset k' v acc)) -> k = k' \/ In k (map fst acc).
Proof.
  induction acc as [|[a b] acc IH]; simpl; [intros [<-|[]]; left; reflexivity|].
  destruct (bytes_eqb k' a) eqn:E; simpl.
  - apply bytes_eqb_eq in E. subst. intros [<-|H]; [left; reflexivity|right; right; exact H].
  - intros [<-|H]; [right; left; reflexivity|]. destruct (IH H); auto.
Qed.

Lemma lookup_keys (k v : bytes) (m : mapping) : lookup k m = Some v -> In k (map fst m).
Proof. intros H. apply lookup_In in H. apply in_map_iff. exists (k, v). auto. Qed.

Lemma scheme_tables_keys (m : mapping) (k : bytes) :
  In k (map fst (fst (scheme_tables m))) \/ In k (map fst (snd (scheme_tables m))) ->
  In k (map fst m).
Proof.
  unfold scheme_tables.
  assert (Hgen : forall acc, In k (map fst (fst (fold_left (fun acc st =>
               let '(s2h, s2s) := acc in
               if is_valid_scheme (fst st) then
                 if isValidHexColor (snd st) then (aset (fst st) (to_upper (snd st)) s2h, s2s)
                 else (s2h, aset (fst st) (snd st) s2s)
               else (s2h, s2s)) m acc))) \/
             In k (map fst (snd (fold_left (fun acc st =>
               let '(s2h, s2s) := acc in
               if is_valid_scheme (fst st) then
                 if isValidHexColor (snd st) then (aset (fst st) (to_upper (snd st)) s2h, s2s)
                 else (s2h, aset (fst st) (snd st) s2s)
               else (s2h, s2s)) m acc))) ->
             In k (map fst (fst acc)) \/ In k (map fst (snd acc)) \/ In k (map fst m)).
  { induction m as [|[a b] m IH]; intros [h ss] H; simpl in *; [tauto|].
    destruct (is_valid_scheme a); [destruct (isValidHexColor b)|];
      destruct (IH _ H) as [H1|[H1|H1]]; simpl in H1; auto;
      destruct (aset_keys _ _ _ _ H1) as [->|H2]; auto. }
  intros H. destruct (Hgen ([], []) H) as [[]|[[]|H']]. exact H'.
Qed.

Lemma hex_mapping_keys (m : mapping) (K : bytes) :
  In K (map fst (hex_mapping m)) -> exists k, In k (map fst m) /\ to_upper k = K.
Proof.
  unfold hex_mapping.
  assert (Hgen : forall acc, In K (map fst (fold_left (fun acc st =>
               if isValidHexColor (fst st) then aset (to_upper (fst st)) (snd st) acc else acc)
               m acc)) ->
             In K (map fst acc) \/ exists k, In k (map fst m) /\ to_upper k = K).
  { induction m as [|[a b] m IH]; intros acc H; simpl in *; [tauto|].
    destruct (IH _ H) as [H1|[k [Hk Hu]]]; [|right; exists k; auto].
    destruct (isValidHexColor a); [|auto].
    destruct (aset_keys _ _ _ _ H1) as [->|H2]; [right; exists a; auto|auto]. }
  intros H. destruct (Hgen [] H) as [[]|H']. exact H'.
Qed.

(** ** The matcher on one colour element *)

Lemma name_char_facts (c : ascii) :
  is_name_char c = true ->
  not_in [":"; ">"]%char c = true /\ is_char ":" c = false /\ re_space c = false /\
  not_in [">"%char] c = true /\ Ascii.eqb "<" c = false /\ c <> ">"%char /\ c <> "<"%char.
Proof.
  destruct c as [[] [] [] [] [] [] [] []]; vm_compute; intros H;
    try discriminate H; repeat split; discriminate.
Qed.

Lemma m_seq_lit (w : bytes) (g : group) (s : bytes) :
  m_seq (ALit w :: g) (w ++ s) = map (fun yr => (w ++ fst yr, snd yr)) (m_seq g s).
Proof.
  simpl. rewrite has_prefix_app, skipn_app, skipn_all, Nat.sub_diag. simpl.
  rewrite app_nil_r. reflexivity.
Qed.

Lemma m_seq_lit_fail (w : bytes) (g : group) (s : bytes) :
  has_prefix w s = false -> m_seq (ALit w :: g) s = [].
Proof. intros H. simpl. rewrite H. reflexivity. Qed.

Lemma m_seq_cls (p : ascii -> bool) (q : quant) (g : group) (s : bytes) :
  m_seq (ACls p q :: g) s =
  flat_map (fun k => map (fun yr => (firstn k s ++ fst yr, snd yr)) (m_seq g (skipn k s)))
           (counts q (run p s)).
Proof.
  simpl. generalize (counts q (run p s)). intros l.
  induction l as [|k l IH]; simpl; [reflexivity|]. rewrite IH. reflexivity.
Qed.

Lemma run_app (p : ascii -> bool) (u s : bytes) :
  forallb p u = true -> run p (u ++ s) = length u + run p s.
Proof.
  induction u as [|c u IH]; simpl; [reflexivity|].
  intros H. apply andb_prop in H as [H1 H2]. rewrite H1, IH; auto.
Qed.

Lemma run_le (p : ascii -> bool) (s : bytes) : run p s <= length s.
Proof. induction s as [|c s IH]; simpl; [lia|]. destruct (p c); simpl; lia. Qed.

Lemma run_firstn (p : ascii -> bool) (s : bytes) (k : nat) :
  k <= run p s -> forallb p (firstn k s) = true.
Proof.
  revert k; induction s as [|c s IH]; intros [|k]; simpl; auto.
  destruct (p c) eqn:E; simpl; [|lia]. intros H. rewrite IH; [reflexivity|lia].
Qed.

Lemma In_down (k n : nat) : In k (down n) -> k <= n.
Proof. induction n as [|n IH]; simpl; intros [H|H]; try lia; try (destruct H). specialize (IH H). lia. Qed.

Lemma In_counts (q : quant) (k n : nat) : In k (counts q n) -> k <= n /\ (q = One -> k = 1).
Proof.
  destruct q; unfold counts; intros H.
  - destruct (1 <=? n) eqn:E; simpl in H; [|destruct H].
    destruct H as [<-|[]]. apply Nat.leb_le in E. split; [lia|reflexivity].
  - destruct (1 <=? n) eqn:E; simpl in H.
    + apply Nat.leb_le in E. destruct H as [<-|[<-|[]]]; split; (lia || discriminate).
    + destruct H as [<-|[]]. split; (lia || discriminate).
  - split; [apply In_down, H|discriminate].
  - rewrite <- in_rev in H. split; [apply In_down, H|discriminate].
  - apply filter_In in H as [H _]. split; [apply In_down, H|discriminate].
Qed.

Lemma m_atom_lang (a : atom) (s x r : bytes) :
  In (x, r) (m_atom a s) -> s = x ++ r /\ atom_lang a x.
Proof.
  intros H. split; [exact (m_atom_sound _ _ _ _ H)|].
  destruct a as [w|p q]; simpl in *.
  - destruct (has_prefix w s); [|destruct H]. destruct H as [[= <- _]|[]]. reflexivity.
  - apply in_map_iff in H as [k [[= <- _] Hk]]. apply In_counts in Hk as [Hk Hq].
    split; [apply run_firstn, Hk|]. intros Hone. rewrite length_firstn.
    pose proof (run_le p s). rewrite (Hq Hone) in *. lia.
Qed.

Lemma m_seq_lang (g : group) (s x r : bytes) :
  In (x, r) (m_seq g s) -> s = x ++ r /\ seq_lang g x.
Proof.
  intros H. split; [exact (m_seq_sound _ _ _ _ H)|].
  revert s x r H. induction g as [|a g IH]; intros s x r; simpl.
  - intros [[= <- _]|[]]. reflexivity.
  - rewrite in_flat_map. intros [[x1 r1] [H1 H2]]. apply in_map_iff in H2 as [[x2 r2] [[= <- _] H2]].
    exists x1, x2. split; [reflexivity|]. split; [exact (proj2 (m_atom_lang _ _ _ _ H1))|].
    exact (IH _ _ _ H2).
Qed.

Lemma prefix_before (c : ascii) (A L a' b : bytes) :
  A ++ L = a' ++ c :: b -> ~ In c A -> exists d, a' = A ++ d /\ L = d ++ c :: b.
Proof.
  revert a'; induction A as [|x A IH]; intros a' Heq Hc; simpl in *.
  - exists a'. split; [reflexivity|exact Heq].
  - destruct a' as [|y a']; simpl in Heq; injection Heq as -> Heq.
    + exfalso. apply Hc. left; reflexivity.
    + destruct (IH a' Heq (fun H => Hc (or_intror H))) as [d [-> ->]].
      exists d. split; reflexivity.
Qed.

Lemma in_split_first (c : ascii) (l : bytes) :
  In c l -> exists l1 l2, l = l1 ++ c :: l2 /\ ~ In c l1.
Proof.
  induction l as [|x l IH]; simpl; [intros []|].
  destruct (ascii_dec x c) as [->|Hne]; intros H.
  - exists [], l. split; [reflexivity|intros []].
  - destruct H as [H|H]; [contradiction|]. destruct (IH H) as [l1 [l2 [-> Hn]]].
    exists (x :: l1), l2. split; [reflexivity|]. simpl. intros [H'|H']; auto.
Qed.

Lemma forallb_impl (f g : ascii -> bool) (u : bytes) :
  (forall c, f c = true -> g c = true) -> forallb f u = true -> forallb g u = true.
Proof.
  intros Hfg. induction u as [|c u IH]; simpl; [reflexivity|].
  intros H. apply andb_prop in H as [H1 H2]. rewrite (Hfg _ H1), IH; auto.
Qed.

Lemma forallb_skipn (f : ascii -> bool) (u : bytes) (k : nat) :
  forallb f u = true -> forallb f (skipn k u) = true.
Proof.
  revert k; induction u as [|c u IH]; intros [|k]; simpl; auto.
  intros H. apply andb_prop in H as [_ H]. apply IH, H.
Qed.

Lemma firstn_len_app (u s : bytes) : firstn (length u) (u ++ s) = u.
Proof. rewrite firstn_app, firstn_all, Nat.sub_diag, firstn_O, app_nil_r. reflexivity. Qed.

Lemma skipn_len_app (u s : bytes) : skipn (length u) (u ++ s) = s.
Proof. rewrite skipn_app, skipn_all, Nat.sub_diag. reflexivity. Qed.

Lemma down_cons (n : nat) : down n = n :: match n with 0 => [] | S k => down k end.
Proof. destruct n; reflexivity. Qed.

Lemma m_groups_cons (g : group) (gs : branch) (s : bytes) :
  m_groups (g :: gs) s =
  flat_map (fun xr => map (fun cr => (fst xr :: fst cr, snd cr)) (m_groups gs (snd xr))) (m_seq g s).
Proof. reflexivity. Qed.

Lemma flat_map_all_nil {A B} (f : A -> list B) (l : list A) :
  (forall x, In x l -> f x = []) -> flat_map f l = [].
Proof.
  induction l as [|x l IH]; simpl; [reflexivity|]. intros H.
  rewrite (H x (or_introl eq_refl)), IH; auto.
Qed.

Lemma name_not_in (u : bytes) :
  forallb is_name_char u = true -> forallb (not_in [":"; ">"]%char) u = true.
Proof. apply forallb_impl. intros c Hc. apply (name_char_facts c Hc). Qed.

Lemma m_seq_one (p : ascii -> bool) (q : quant) (s : bytes) :
  m_seq [ACls p q] s = map (fun k => (firstn k s, skipn k s)) (counts q (run p s)).
Proof.
  simpl. generalize (counts q (run p s)). intros l.
  induction l as [|k l IH]; simpl; [reflexivity|]. rewrite app_nil_r, IH. reflexivity.
Qed.

(** [<[^:>]*:?] on [<ns:X]: the whole name and the colon first; every other
    way leaves some name bytes and the colon in front of [X]. *)
Lemma open_seq (ns X : bytes) :
  forallb is_name_char ns = true -> run (is_char ":") X = 0 ->
  exists L,
    m_seq [ALit (lit "<"); ACls (not_in [":"; ">"]%char) Star; ACls (is_char ":") Opt]
          (lit "<" ++ ns ++ ":"%char :: X)
    = (lit "<" ++ ns ++ lit ":", X) :: L /\
    forall xr, In xr L -> exists d, snd xr = d ++ ":"%char :: X /\ forallb is_name_char d = true.
Proof.
  intros Hns HX. rewrite m_seq_lit, m_seq_cls.
  rewrite (run_app _ _ _ (name_not_in _ Hns)). simpl (run _ (_ :: X)). rewrite Nat.add_0_r.
  unfold counts at 1. rewrite down_cons. cbn [flat_map].
  set (T := flat_map _ (match length ns with 0 => [] | S k => down k end)).
  rewrite firstn_len_app, skipn_len_app, m_seq_one. simpl (run _ (_ :: X)). rewrite HX.
  simpl. rewrite !app_nil_r.
  eexists. split; [reflexivity|].
  intros xr Hxr. destruct Hxr as [<-|Hxr]; [exists []; split; reflexivity|].
  apply in_map_iff in Hxr as [[x r] [<- Hxr]]. simpl. unfold T in Hxr.
  apply in_flat_map in Hxr as [k [Hk Hxr]].
  assert (Hlt : k < length ns).
  { destruct (length ns) as [|n]; [destruct Hk|]. apply In_down in Hk. lia. }
  apply in_map_iff in Hxr as [[y r'] [[= _ <-] Hyr]].
  rewrite skipn_app, (proj2 (Nat.sub_0_le k (length ns)) ltac:(lia)) in Hyr. simpl skipn in Hyr.
  pose proof (forallb_skipn _ _ k Hns) as Hd.
  destruct (skipn k ns) as [|c0 d] eqn:Hs.
  { apply (f_equal (@length ascii)) in Hs. rewrite length_skipn in Hs. simpl in Hs. lia. }
  simpl in Hd. apply andb_prop in Hd as [Hc0 Hd].
  rewrite m_seq_one in Hyr. simpl (run _ _) in Hyr.
  rewrite (proj1 (proj2 (name_char_facts _ Hc0))) in Hyr. simpl in Hyr.
  destruct Hyr as [[= _ <-]|[]]. exists (c0 :: d). split; [reflexivity|].
  simpl. rewrite Hc0, Hd. reflexivity.
Qed.

(** After name bytes and a colon, [schemeClr] cannot be followed by [\s+]. *)
Lemma name_rest_no_element (d Y : bytes) (gs : branch) :
  forallb is_name_char d = true ->
  m_groups ([ALit (lit "schemeClr")] :: [ACls re_space Plus; ALit (lit "val=`")] :: gs)
           (d ++ ":"%char :: Y) = [].
Proof.
  intros Hd. rewrite m_groups_cons.
  destruct (has_prefix (lit "schemeClr") (d ++ ":"%char :: Y)) eqn:Hp;
    [|rewrite m_seq_lit_fail; [reflexivity|exact Hp]].
  apply has_prefix_true in Hp. rewrite Hp.
  set (r' := skipn _ _) in Hp |- *. clearbody r'.
  destruct (prefix_before ":"%char (lit "schemeClr") r' d Y (eq_sym Hp)) as [d' [Hdd Hr']];
    [simpl; intuition discriminate|].
  rewrite m_seq_lit. simpl m_seq. cbn [map flat_map]. rewrite app_nil_r.
  rewrite m_groups_cons, m_seq_cls. simpl snd.
  assert (Hrun : run re_space r' = 0).
  { rewrite Hr'. destruct d' as [|c d'']; [reflexivity|].
    rewrite Hdd, forallb_app in Hd. apply andb_prop in Hd as [_ Hd]. simpl in Hd.
    apply andb_prop in Hd as [Hc _]. simpl. rewrite (proj1 (proj2 (proj2 (name_char_facts _ Hc)))).
    reflexivity. }
  rewrite Hrun. reflexivity.
Qed.

Lemma flat_map_cons_nil {A B} (f : A -> list B) (x : A) (l : list A) :
  (forall y, In y l -> f y = []) -> flat_map f (x :: l) = f x.
Proof. intros H. simpl. rewrite flat_map_all_nil, app_nil_r; auto. Qed.

(** The first three groups of either alternative of the element pattern match
    [<ns:schemeClr val=DQ] in one way only. *)
Lemma open_groups (ns X : bytes) (gs : branch) :
  forallb is_name_char ns = true ->
  m_groups ([ALit (lit "<"); ACls (not_in [":"; ">"]%char) Star; ACls (is_char ":") Opt]
              :: [ALit (lit "schemeClr")] :: [ACls re_space Plus; ALit (lit "val=`")] :: gs)
           (lit "<" ++ ns ++ lit ":schemeClr val=`" ++ X)
  = map (fun cr => ((lit "<" ++ ns ++ lit ":") :: lit "schemeClr" :: lit " val=`" :: fst cr, snd cr))
        (m_groups gs X).
Proof.
  intros Hns.
  change (lit ":schemeClr val=`" ++ X) with (":"%char :: (lit "schemeClr" ++ lit " val=`" ++ X)).
  destruct (open_seq ns (lit "schemeClr" ++ lit " val=`" ++ X) Hns eq_refl) as [L [HL HLr]].
  rewrite m_groups_cons, HL, flat_map_cons_nil.
  2:{ intros xr Hxr. destruct (HLr xr Hxr) as [d [Hs Hd]]. cbv beta.
      destruct xr as [x r]. cbn [fst snd] in Hs |- *. subst r.
      rewrite name_rest_no_element; [reflexivity|exact Hd]. }
  cbn [fst snd]. rewrite m_groups_cons, m_seq_lit. cbn [m_seq map flat_map fst snd].
  rewrite !app_nil_r, m_groups_cons.
  change (lit " val=`" ++ X) with ([" "%char] ++ lit "val=`" ++ X).
  rewrite m_seq_cls, (run_app re_space [" "%char]) by reflexivity.
  change (run re_space (lit "val=`" ++ X)) with 0.
  change (counts Plus (length [" "%char] + 0)) with [1]. cbn [flat_map].
  change (firstn 1 ([" "%char] ++ lit "val=`" ++ X)) with [" "%char].
  change (skipn 1 ([" "%char] ++ lit "val=`" ++ X)) with (lit "val=`" ++ X).
  rewrite m_seq_lit. cbn [m_seq map flat_map fst snd]. rewrite !app_nil_r, !map_map.
  cbn [flat_map fst snd]. rewrite app_nil_r, !map_map. reflexivity.
Qed.

Lemma forallb_not_In (p : ascii -> bool) (x : ascii) (a : bytes) :
  forallb p a = true -> p x = false -> ~ In x a.
Proof.
  intros H Hx Hin. rewrite forallb_forall in H. rewrite (H x Hin) in Hx. discriminate.
Qed.

Lemma run_any (s : bytes) : run any_byte s = length s.
Proof. induction s as [|c s IH]; simpl; congruence. Qed.

Lemma rev_down (n : nat) : rev (down n) = seq 0 (S n).
Proof.
  induction n as [|n IH]; [reflexivity|].
  change (rev (down (S n))) with (rev (down n) ++ [S n]). rewrite IH.
  replace (S (S n)) with (S n + 1) by lia. rewrite seq_app. reflexivity.
Qed.

Lemma In_last_skipn (c' : bytes) (x : ascii) (k : nat) :
  k < length (c' ++ [x]) -> In x (skipn k (c' ++ [x])).
Proof.
  intros Hk. rewrite length_app in Hk. simpl in Hk.
  rewrite skipn_app, (proj2 (Nat.sub_0_le k (length c')) ltac:(lia)).
  apply in_or_app. right. left. reflexivity.
Qed.

(** [</[^:>]*:?schemeClr>] first matches a whole closing tag [</ns:schemeClr>]. *)
Lemma close_head (ns post : bytes) :
  forallb is_name_char ns = true ->
  hd_error (m_seq close_atoms (lit "</" ++ ns ++ lit ":schemeClr>" ++ post))
  = Some (lit "</" ++ ns ++ lit ":schemeClr>", post).
Proof.
  intros Hns. unfold close_atoms. rewrite m_seq_lit, m_seq_cls.
  change (lit ":schemeClr>" ++ post) with (":"%char :: lit "schemeClr>" ++ post).
  rewrite (run_app _ _ _ (name_not_in _ Hns)). simpl (run _ (_ :: _)). rewrite Nat.add_0_r.
  unfold counts at 1. rewrite down_cons. cbn [flat_map].
  set (T := flat_map _ (match length ns with 0 => [] | S k => down k end)).
  rewrite firstn_len_app, skipn_len_app, m_seq_cls. reflexivity.
Qed.

(** Inside children that end with [>] and never spell [schemeClr], no
    closing tag of a colour element starts. *)
Lemma close_fail (c rest : bytes) (k : nat) :
  ~ contains (lit "schemeClr") c -> (exists c', c = c' ++ [">"%char]) -> k < length c ->
  m_seq close_atoms (skipn k c ++ rest) = [].
Proof.
  intros Hc [c' Hc'] Hk.
  destruct (m_seq close_atoms (skipn k c ++ rest)) as [|[x r] l] eqn:E; [reflexivity|exfalso].
  assert (Hin : In (x, r) (m_seq close_atoms (skipn k c ++ rest))) by (rewrite E; left; reflexivity).
  apply m_seq_lang in Hin as [Hs Hl].
  simpl in Hl.
  destruct Hl as [x1 [x2 [-> [-> Hl]]]].
  destruct Hl as [a [x3 [-> [[Ha _] Hl]]]].
  destruct Hl as [o [x4 [-> [[Ho _] Hl]]]].
  destruct Hl as [x5 [x6 [-> [-> ->]]]].
  assert (Hgt : In ">"%char (skipn k c)) by (rewrite Hc'; apply In_last_skipn; rewrite <- Hc'; exact Hk).
  destruct (in_split_first _ _ Hgt) as [u1 [u2 [Hu Hu1]]].
  rewrite Hu in Hs. rewrite <- app_assoc in Hs. simpl in Hs.
  assert (Hs' : (lit "</" ++ a ++ o ++ lit "schemeClr") ++ ">"%char :: r = u1 ++ ">"%char :: (u2 ++ rest)).
  { rewrite Hs. simpl. rewrite <- !app_assoc. reflexivity. }
  apply split_at_unique in Hs' as [Hu1' _]; [| |exact Hu1].
  - apply Hc. exists (firstn k c ++ lit "</" ++ a ++ o), (">"%char :: u2).
    rewrite <- (firstn_skipn k c) at 1. rewrite Hu, <- Hu1', <- !app_assoc. reflexivity.
  - intros Hin. apply in_app_or in Hin as [Hin|Hin]; [simpl in Hin; intuition discriminate|].
    apply in_app_or in Hin as [Hin|Hin]; [exact (forallb_not_In _ ">"%char _ Ha eq_refl Hin)|].
    apply in_app_or in Hin as [Hin|Hin]; [exact (forallb_not_In _ ">"%char _ Ho eq_refl Hin)|].
    simpl in Hin. intuition discriminate.
Qed.

(** [[\s\S]*?</[^:>]*:?schemeClr>] on children followed by their closing tag:
    the lazy body stops at that closing tag. *)
Lemma body_head (c ns post : bytes) :
  forallb is_name_char ns = true -> ~ contains (lit "schemeClr") c ->
  (c = [] \/ exists c', c = c' ++ [">"%char]) ->
  hd_error (m_seq (ACls any_byte LazyStar :: close_atoms)
                  (c ++ lit "</" ++ ns ++ lit ":schemeClr>" ++ post))
  = Some (c ++ lit "</" ++ ns ++ lit ":schemeClr>", post).
Proof.
  intros Hns Hc Hend. rewrite m_seq_cls, run_any. unfold counts. rewrite rev_down.
  set (s := c ++ lit "</" ++ ns ++ lit ":schemeClr>" ++ post).
  assert (Hle : length c <= length s) by (unfold s; rewrite length_app; lia).
  replace (S (length s)) with (length c + (S (length s) - length c)) by lia.
  rewrite seq_app, flat_map_app, (flat_map_all_nil _ (seq 0 (length c))).
  2:{ intros k Hk. apply in_seq in Hk. destruct Hend as [->|Hend]; [simpl in Hk; lia|].
      unfold s. rewrite skipn_app, (proj2 (Nat.sub_0_le k (length c)) ltac:(lia)).
      rewrite close_fail; [reflexivity|exact Hc|exact Hend|lia]. }
  destruct (S (length s) - length c) as [|n] eqn:E; [lia|]. simpl (seq _ (S n)). cbn [flat_map app].
  unfold s. rewrite firstn_len_app, skipn_len_app.
  pose proof (close_head ns post Hns) as Hh.
  destruct (m_seq close_atoms (lit "</" ++ ns ++ lit ":schemeClr>" ++ post)) as [|y t];
    [discriminate|].
  simpl in Hh |- *. injection Hh as ->. reflexivity.
Qed.

Ltac scheme_cases H :=
  unfold ValidSchemeColors in H; simpl in H; repeat (destruct H as [<-|H]); [..|destruct H].

Lemma hd_error_map {A B} (f : A -> B) (l : list A) : hd_error (map f l) = option_map f (hd_error l).
Proof. destruct l; reflexivity. Qed.

Lemma element_tail_self (v post : bytes) :
  In v ValidSchemeColors ->
  m_groups [[ACls (not_in [dq]) Plus]; [ALit (lit "`"); ACls (not_in [">"%char]) LazyStar];
            [ALit (lit "/>")]] (v ++ lit "`" ++ lit "/>" ++ post)
  = [([v; lit "`"; lit "/>"], post)].
Proof. intros H. scheme_cases H; reflexivity. Qed.

Lemma element_tail_self_fail (v Y : bytes) :
  In v ValidSchemeColors ->
  m_groups [[ACls (not_in [dq]) Plus]; [ALit (lit "`"); ACls (not_in [">"%char]) LazyStar];
            [ALit (lit "/>")]] (v ++ lit "`" ++ lit ">" ++ Y) = [].
Proof. intros H. scheme_cases H; reflexivity. Qed.

Lemma element_tail_container (v Y : bytes) (g : group) :
  In v ValidSchemeColors ->
  m_groups [[ACls (not_in [dq]) Plus]; [ALit (lit "`"); ACls (not_in [">"%char]) LazyStar];
            [ALit (lit ">")]; g] (v ++ lit "`" ++ lit ">" ++ Y)
  = map (fun xr => ([v; lit "`"; lit ">"; fst xr], snd xr)) (m_seq g Y).
Proof.
  intros H.
  assert (Hg : flat_map (fun xr : bytes * bytes => [([fst xr], snd xr)]) (m_seq g Y)
               = map (fun xr => ([fst xr], snd xr)) (m_seq g Y)).
  { induction (m_seq g Y) as [|x l IH]; simpl; [reflexivity|]. rewrite IH. reflexivity. }
  scheme_cases H; simpl; rewrite !app_nil_r, Hg, !map_map; reflexivity.
Qed.

Lemma element_match_self (ns v post : bytes) :
  forallb is_name_char ns = true -> In v ValidSchemeColors ->
  first_match element_pattern (scheme_element ns v None ++ post)
  = Some (0, [lit "<" ++ ns ++ lit ":"; lit "schemeClr"; lit " val=`"; v; lit "`"; lit "/>"], post).
Proof.
  intros Hns Hv. unfold first_match, scheme_element, element_pattern. rewrite <- !app_assoc.
  cbn [m_alts]. rewrite !open_groups by exact Hns. rewrite element_tail_self by exact Hv.
  reflexivity.
Qed.

Lemma element_match_container (ns v c post : bytes) :
  forallb is_name_char ns = true -> In v ValidSchemeColors ->
  ~ contains (lit "schemeClr") c -> (c = [] \/ exists c', c = c' ++ [">"%char]) ->
  first_match element_pattern (scheme_element ns v (Some c) ++ post)
  = Some (1, [lit "<" ++ ns ++ lit ":"; lit "schemeClr"; lit " val=`"; v; lit "`"; lit ">";
              c ++ lit "</" ++ ns ++ lit ":schemeClr>"], post).
Proof.
  intros Hns Hv Hc Hend. unfold first_match, scheme_element, element_pattern. rewrite <- !app_assoc.
  cbn [m_alts]. rewrite !open_groups by exact Hns.
  rewrite element_tail_self_fail, element_tail_container by exact Hv.
  pose proof (body_head c ns post Hns Hc Hend) as Hb. unfold close_atoms in Hb.
  destruct (m_seq _ (c ++ lit "</" ++ ns ++ lit ":schemeClr>" ++ post)) as [|y t]; [discriminate|].
  simpl in Hb |- *. injection Hb as ->. reflexivity.
Qed.

Lemma m_seq_app (g1 g2 : group) (s : bytes) :
  m_seq (g1 ++ g2) s =
  flat_map (fun xr => map (fun yr => (fst xr ++ fst yr, snd yr)) (m_seq g2 (snd xr))) (m_seq g1 s).
Proof.
  revert s; induction g1 as [|a g1 IH]; intros s; simpl.
  - rewrite app_nil_r. induction (m_seq g2 s) as [|[x r] l IHl]; simpl; [reflexivity|].
    f_equal. exact IHl.
  - induction (m_atom a s) as [|[x r] l IHl]; simpl; [reflexivity|].
    rewrite IHl, flat_map_app. f_equal. rewrite IH. simpl.
    induction (m_seq g1 r) as [|[y r'] l' IHl']; simpl; [reflexivity|].
    rewrite map_app, IHl', map_map. f_equal. apply map_ext. intros [z r'']. simpl.
    rewrite app_assoc. reflexivity.
Qed.

Lemma scheme_rest_atoms (v t Y : bytes) :
  In v ValidSchemeColors -> t = lit "/>" \/ t = lit ">" ->
  m_seq [ALit (lit "schemeClr"); ACls (not_in [">"%char]) Star; ACls re_space One;
         ALit (lit "val=`")] (lit "schemeClr val=`" ++ v ++ lit "`" ++ t ++ Y)
  = [(lit "schemeClr val=`", v ++ lit "`" ++ t ++ Y)].
Proof. intros H [-> | ->]; scheme_cases H; reflexivity. Qed.

Lemma scheme_value_groups (v Y : bytes) :
  In v ValidSchemeColors ->
  m_groups [[ACls (not_in [dq]) Plus]; [ALit (lit "`")]] (v ++ lit "`" ++ Y) = [([v; lit "`"], Y)].
Proof. intros H; scheme_cases H; reflexivity. Qed.

(** The scheme pattern on a colour element: the opening through [val=DQ],
    the value, and the quote. *)
Lemma scheme_match (ns v t Y : bytes) :
  forallb is_name_char ns = true -> In v ValidSchemeColors -> t = lit "/>" \/ t = lit ">" ->
  first_match scheme_pattern (lit "<" ++ ns ++ lit ":schemeClr val=`" ++ v ++ lit "`" ++ t ++ Y)
  = Some (0, [lit "<" ++ ns ++ lit ":schemeClr val=`"; v; lit "`"], t ++ Y).
Proof.
  intros Hns Hv Ht. unfold first_match, scheme_pattern. cbn [m_alts]. rewrite app_nil_r.
  rewrite m_groups_cons.
  change (lit ":schemeClr val=`" ++ v ++ lit "`" ++ t ++ Y)
    with (":"%char :: (lit "schemeClr val=`" ++ v ++ lit "`" ++ t ++ Y)).
  change [ALit (lit "<"); ACls (not_in [":"; ">"]%char) Star; ACls (is_char ":") Opt;
          ALit (lit "schemeClr"); ACls (not_in [">"%char]) Star; ACls re_space One;
          ALit (lit "val=`")]
    with ([ALit (lit "<"); ACls (not_in [":"; ">"]%char) Star; ACls (is_char ":") Opt] ++
          [ALit (lit "schemeClr"); ACls (not_in [">"%char]) Star; ACls re_space One;
           ALit (lit "val=`")]).
  rewrite m_seq_app.
  destruct (open_seq ns (lit "schemeClr val=`" ++ v ++ lit "`" ++ t ++ Y) Hns eq_refl) as [L [HL _]].
  rewrite HL. cbn [flat_map fst snd]. rewrite scheme_rest_atoms by assumption.
  cbn [map flat_map fst snd app]. rewrite scheme_value_groups by exact Hv.
  simpl. f_equal. f_equal. f_equal. f_equal. rewrite <- app_assoc. reflexivity.
Qed.

(** ** Scanning a document piece by piece *)

Lemma scan_fuel (f1 f2 : nat) (r : regex) (s : bytes) :
  length s <= f1 -> length s <= f2 -> scan f1 r s = scan f2 r s.
Proof.
  revert s f2; induction f1 as [|f1 IH]; intros s f2 H1 H2.
  - destruct s; [|simpl in H1; lia]. destruct f2; reflexivity.
  - destruct f2 as [|f2]; [destruct s; [reflexivity|simpl in H2; lia]|].
    destruct s as [|c s']; [reflexivity|]. simpl in H1, H2. simpl.
    destruct (first_match r (c :: s')) as [[[i caps] rest]|] eqn:E.
    + destruct (length rest <? S (length s')) eqn:Hl.
      * apply Nat.ltb_lt in Hl. f_equal. apply IH; lia.
      * f_equal. apply IH; lia.
    + f_equal. apply IH; lia.
Qed.

Lemma find_all_hit (r : regex) (x rest : bytes) (i : nat) (caps : list bytes) :
  first_match r (x ++ rest) = Some (i, caps, rest) -> x <> [] ->
  find_all r (x ++ rest) = Hit i x caps :: find_all r rest.
Proof.
  intros E Hx. unfold find_all. destruct x as [|c x']; [contradiction|].
  change ((c :: x') ++ rest) with (c :: (x' ++ rest)) in *.
  change (length (c :: x' ++ rest)) with (S (length (x' ++ rest))).
  assert (Hstep : forall f s', scan (S f) r (c :: s') =
            match first_match r (c :: s') with
            | Some (i, caps, rest) =>
                if length rest <? length (c :: s')
                then Hit i (firstn (length (c :: s') - length rest) (c :: s')) caps :: scan f r rest
                else Raw c :: scan f r s'
            | None => Raw c :: scan f r s'
            end) by reflexivity.
  rewrite Hstep, E. clear Hstep.
  replace (length rest <? length (c :: x' ++ rest)) with true
    by (symmetry; apply Nat.ltb_lt; simpl; rewrite length_app; lia).
  replace (length (c :: x' ++ rest) - length rest) with (length (c :: x'))
    by (change (length (c :: x' ++ rest)) with (S (length (x' ++ rest)));
        change (length (c :: x')) with (S (length x')); rewrite length_app; lia).
  change (c :: x' ++ rest) with ((c :: x') ++ rest). rewrite firstn_len_app.
  f_equal. apply scan_fuel; rewrite ?length_app; lia.
Qed.

Lemma find_all_raw (r : regex) (c : ascii) (s : bytes) :
  first_match r (c :: s) = None -> find_all r (c :: s) = Raw c :: find_all r s.
Proof. intros E. unfold find_all. simpl. rewrite E. reflexivity. Qed.

Lemma find_all_raw_prefix (r : regex) (w s : bytes) :
  (forall a u, w = a ++ u -> u <> [] -> first_match r (u ++ s) = None) ->
  find_all r (w ++ s) = map Raw w ++ find_all r s.
Proof.
  induction w as [|c w IH]; intros H; [reflexivity|].
  simpl. rewrite find_all_raw by exact (H [] (c :: w) eq_refl ltac:(discriminate)).
  rewrite IH; [reflexivity|]. intros a u -> Hu. exact (H (c :: a) u eq_refl Hu).
Qed.

Lemma find_all_no_lt (r : regex) (w s : bytes) :
  (forall c s', c <> "<"%char -> first_match r (c :: s') = None) -> ~ In "<"%char w ->
  find_all r (w ++ s) = map Raw w ++ find_all r s.
Proof.
  intros Hr Hw. apply find_all_raw_prefix. intros a [|c u] -> Hu; [contradiction|].
  apply Hr. intros ->. apply Hw. apply in_or_app. right. left. reflexivity.
Qed.

Lemma has_prefix_lt (c : ascii) (s : bytes) : c <> "<"%char -> has_prefix (lit "<") (c :: s) = false.
Proof.
  intros Hc. change (has_prefix (lit "<") (c :: s)) with (Ascii.eqb "<" c && has_prefix [] s).
  rewrite (proj2 (Ascii.eqb_neq _ _) (not_eq_sym Hc)). reflexivity.
Qed.

Lemma element_needs_lt (c : ascii) (s : bytes) :
  c <> "<"%char -> first_match element_pattern (c :: s) = None.
Proof.
  intros Hc. unfold first_match, element_pattern. cbn [m_alts].
  rewrite !m_groups_cons, !m_seq_lit_fail by (apply has_prefix_lt, Hc). reflexivity.
Qed.

Lemma scheme_needs_lt (c : ascii) (s : bytes) :
  c <> "<"%char -> first_match scheme_pattern (c :: s) = None.
Proof.
  intros Hc. unfold first_match, scheme_pattern. cbn [m_alts].
  rewrite !m_groups_cons, !m_seq_lit_fail by (apply has_prefix_lt, Hc). reflexivity.
Qed.

(** A rewriter that copies unmatched bytes gives the same output whether or
    not its early exit on "no match" is taken. *)
Lemma emit_all (emit : piece -> bytes) (r : regex) (xml : bytes) :
  (forall c, emit (Raw c) = [c]) ->
  (if no_matches (find_all r xml) then xml else concat (map emit (find_all r xml)))
  = concat (map emit (find_all r xml)).
Proof.
  intros Hr. destruct (no_matches (find_all r xml)) eqn:E; [|reflexivity].
  symmetry. apply emit_identity_scan; [|exact Hr].
  intros j whole caps Hin _. exfalso. unfold no_matches in E.
  apply negb_true_iff in E. assert (Hx : existsb is_hit (find_all r xml) = true).
  { apply existsb_exists. exists (Hit j whole caps). split; [exact Hin|reflexivity]. }
  congruence.
Qed.

Lemma concat_map_raw (emit : piece -> bytes) (w : bytes) :
  (forall c, emit (Raw c) = [c]) -> concat (map emit (map Raw w)) = w.
Proof. intros Hr. induction w as [|c w IH]; simpl; [reflexivity|]. rewrite Hr, IH. reflexivity. Qed.

Lemma hd_error_In {A} (l : list A) (x : A) : hd_error l = Some x -> In x l.
Proof. destruct l; simpl; [discriminate|]. intros [= ->]. left; reflexivity. Qed.

(** What the first group of the scheme pattern spells. *)
Lemma scheme_match_open (s : bytes) (i : nat) (caps : list bytes) (rest : bytes) :
  first_match scheme_pattern s = Some (i, caps, rest) ->
  exists a o z w L,
    s = (lit "<" ++ a ++ o ++ lit "schemeClr" ++ z ++ w ++ lit "val=`") ++ L /\
    forallb (not_in [":"; ">"]%char) a = true /\ forallb (is_char ":") o = true /\
    forallb (not_in [">"%char]) z = true /\ forallb re_space w = true /\ length w = 1.
Proof.
  intros H. unfold first_match in H. apply hd_error_In in H.
  unfold scheme_pattern in H. cbn [m_alts] in H. rewrite app_nil_r in H.
  apply in_map_iff in H as [[caps' r'] [_ H]]. rewrite m_groups_cons in H.
  apply in_flat_map in H as [[x1 r1] [H1 _]]. apply m_seq_lang in H1 as [Hs Hl].
  simpl in Hl.
  destruct Hl as [y1 [y2 [-> [-> Hl]]]].
  destruct Hl as [a [y3 [-> [[Ha _] Hl]]]].
  destruct Hl as [o [y4 [-> [[Ho _] Hl]]]].
  destruct Hl as [y5 [y6 [-> [-> Hl]]]].
  destruct Hl as [z [y7 [-> [[Hz _] Hl]]]].
  destruct Hl as [w [y8 [-> [[Hw Hw1] Hl]]]].
  destruct Hl as [y9 [y10 [-> [-> ->]]]].
  exists a, o, z, w, r1. rewrite app_nil_r in Hs. simpl in Hs.
  split; [|repeat split; auto].
  rewrite Hs. simpl. rewrite <- !app_assoc. reflexivity.
Qed.

Lemma no_gt_open (a o z w : bytes) :
  forallb (not_in [":"; ">"]%char) a = true -> forallb (is_char ":") o = true ->
  forallb (not_in [">"%char]) z = true -> forallb re_space w = true ->
  ~ In ">"%char (lit "<" ++ a ++ o ++ lit "schemeClr" ++ z ++ w ++ lit "val=`").
Proof.
  intros Ha Ho Hz Hw Hin.
  repeat (apply in_app_or in Hin as [Hin|Hin]);
    try (simpl in Hin; intuition discriminate);
    [exact (forallb_not_In _ ">"%char _ Ha eq_refl Hin)
    |exact (forallb_not_In _ ">"%char _ Ho eq_refl Hin)
    |exact (forallb_not_In _ ">"%char _ Hz eq_refl Hin)
    |exact (forallb_not_In _ ">"%char _ Hw eq_refl Hin)].
Qed.

(** A scheme-pattern match that starts before a [>] lies entirely before it. *)
Lemma scheme_match_before_gt (A B : bytes) (i : nat) (caps : list bytes) (rest : bytes) :
  first_match scheme_pattern (A ++ ">"%char :: B) = Some (i, caps, rest) ->
  contains (lit "schemeClr") A /\ In dq A.
Proof.
  intros H. apply scheme_match_open in H as [a [o [z [w [L [Hs [Ha [Ho [Hz [Hw _]]]]]]]]]].
  destruct (prefix_before ">"%char _ L A B (eq_sym Hs) (no_gt_open a o z w Ha Ho Hz Hw))
    as [d [-> _]].
  split.
  - exists (lit "<" ++ a ++ o), (z ++ w ++ lit "val=`" ++ d). rewrite <- !app_assoc. reflexivity.
  - apply in_or_app. left. rewrite !app_assoc. apply in_or_app. right. simpl. intuition.
Qed.

Lemma scheme_fail_children (c Z : bytes) :
  ~ contains (lit "schemeClr") c -> (c = [] \/ exists c', c = c' ++ [">"%char]) ->
  forall a u, c = a ++ u -> u <> [] -> first_match scheme_pattern (u ++ Z) = None.
Proof.
  intros Hc Hend a u Hcu Hu.
  destruct (first_match scheme_pattern (u ++ Z)) as [[[i caps] rest]|] eqn:E; [exfalso|reflexivity].
  destruct (exists_last Hu) as [u' [x Hx]]. subst u.
  destruct Hend as [->|[c' Hc']].
  - symmetry in Hcu. apply app_eq_nil in Hcu as [_ Hcu]. apply app_eq_nil in Hcu as [_ Hcu]. discriminate.
  - rewrite Hcu, app_assoc in Hc'. apply app_inj_tail in Hc' as [_ ->].
    rewrite <- app_assoc in E. simpl in E.
    apply scheme_match_before_gt in E as [[p [q ->]] _].
    apply Hc. exists (a ++ p), (q ++ [">"%char]). rewrite Hcu. rewrite <- !app_assoc. reflexivity.
Qed.

Lemma find_all_lt_head (r : regex) (w s : bytes) :
  (forall c s', c <> "<"%char -> first_match r (c :: s') = None) -> ~ In "<"%char w ->
  first_match r (lit "<" ++ w ++ s) = None ->
  find_all r (lit "<" ++ w ++ s) = map Raw (lit "<" ++ w) ++ find_all r s.
Proof.
  intros Hr Hw E. simpl. rewrite find_all_raw by exact E.
  rewrite find_all_no_lt by assumption. reflexivity.
Qed.

Lemma scheme_scan_close (ns post : bytes) :
  forallb is_name_char ns = true ->
  find_all scheme_pattern (lit "</" ++ ns ++ lit ":schemeClr>" ++ post)
  = map Raw (lit "</" ++ ns ++ lit ":schemeClr>") ++ find_all scheme_pattern post.
Proof.
  intros Hns.
  assert (Hlt : ~ In "<"%char (lit "/" ++ ns ++ lit ":schemeClr>")).
  { intros Hin. apply in_app_or in Hin as [Hin|Hin]; [simpl in Hin; intuition discriminate|].
    apply in_app_or in Hin as [Hin|Hin]; [|simpl in Hin; intuition discriminate].
    exact (forallb_not_In _ "<"%char _ Hns eq_refl Hin). }
  assert (Hx : lit "</" ++ ns ++ lit ":schemeClr>" ++ post
               = lit "<" ++ (lit "/" ++ ns ++ lit ":schemeClr>") ++ post)
    by (simpl; rewrite <- app_assoc; reflexivity).
  rewrite Hx, find_all_lt_head; [reflexivity|exact scheme_needs_lt|exact Hlt|].
  destruct (first_match scheme_pattern _) as [[[i caps] rest]|] eqn:E; [exfalso|reflexivity].
  assert (Hy : lit "<" ++ (lit "/" ++ ns ++ lit ":schemeClr>") ++ post
               = (lit "</" ++ ns ++ lit ":schemeClr") ++ ">"%char :: post)
    by (simpl; rewrite <- !app_assoc; reflexivity).
  rewrite Hy in E. apply scheme_match_before_gt in E as [_ Hin].
  apply in_app_or in Hin as [Hin|Hin]; [simpl in Hin; intuition discriminate|].
  apply in_app_or in Hin as [Hin|Hin]; [|simpl in Hin; intuition discriminate].
  exact (forallb_not_In _ dq _ Hns eq_refl Hin).
Qed.

(** ** The two tables of ReplaceSchemeColorsWithSrgb *)

Lemma scheme_tables_fold (m : mapping) : scheme_tables m = fold_left tables_step m ([], []).
Proof. reflexivity. Qed.

Lemma tables_other (v : bytes) (m : mapping) (acc : mapping * mapping) :
  ~ In v (map fst m) ->
  lookup v (fst (fold_left tables_step m acc)) = lookup v (fst acc) /\
  lookup v (snd (fold_left tables_step m acc)) = lookup v (snd acc).
Proof.
  revert acc; induction m as [|[k t] m IH]; intros [h s] Hv; cbn [fold_left map fst] in Hv |- *; [split; reflexivity|].
  assert (Hk : bytes_eqb v k = false) by (apply bytes_eqb_neq; intros ->; apply Hv; left; reflexivity).
  assert (Hm : ~ In v (map fst m)) by (intros Hm; apply Hv; right; exact Hm).
  destruct (IH (tables_step (h, s) (k, t)) Hm) as [E1 E2].
  rewrite E1, E2. unfold tables_step. cbn [fst snd].
  destruct (is_valid_scheme k); [destruct (isValidHexColor t)|]; cbn [fst snd];
    rewrite ?lookup_aset, ?Hk; split; reflexivity.
Qed.

Lemma tables_lookup (v t : bytes) (m : mapping) :
  NoDup (map fst m) -> In (v, t) m -> is_valid_scheme v = true ->
  lookup v (fst (scheme_tables m)) = (if isValidHexColor t then Some (to_upper t) else None) /\
  lookup v (snd (scheme_tables m)) = (if isValidHexColor t then None else Some t).
Proof.
  intros Hnd Hin Hv. rewrite scheme_tables_fold.
  assert (G : forall acc, lookup v (fst acc) = None -> lookup v (snd acc) = None ->
    lookup v (fst (fold_left tables_step m acc)) = (if isValidHexColor t then Some (to_upper t) else None) /\
    lookup v (snd (fold_left tables_step m acc)) = (if isValidHexColor t then None else Some t)).
  { induction m as [|[k t'] m IH]; intros [h s] Hh Hs; cbn [fst snd] in Hh, Hs; [destruct Hin|].
    simpl in Hnd. inversion Hnd as [|? ? Hk Hnd']; subst.
    destruct Hin as [[= -> ->]|Hin].
    - cbn [fold_left]. destruct (tables_other v m (tables_step (h, s) (v, t)) Hk) as [E1 E2].
      rewrite E1, E2. unfold tables_step. cbn [fst snd]. rewrite Hv.
      assert (Hr : bytes_eqb v v = true) by (apply bytes_eqb_eq; reflexivity).
      destruct (isValidHexColor t); cbn [fst snd]; rewrite ?lookup_aset, ?Hr, ?Hh, ?Hs;
        split; reflexivity.
    - cbn [fold_left]. apply IH; [exact Hnd'|exact Hin| |];
        assert (Hvk : bytes_eqb v k = false)
          by (apply bytes_eqb_neq; intros ->; apply Hk; apply in_map_iff; exists (k, t); auto);
        unfold tables_step; cbn [fst snd];
        destruct (is_valid_scheme k); try destruct (isValidHexColor t'); cbn [fst snd];
        rewrite ?lookup_aset, ?Hvk; assumption. }
  apply G; reflexivity.
Qed.

Lemma scheme_not_hex (t : bytes) : is_valid_scheme t = true -> isValidHexColor t = false.
Proof. intros H. apply In_existsb_eqb in H. scheme_cases H; reflexivity. Qed.

(** ** One scheme element rewritten *)

Lemma element_emit (s2h s2s : mapping) (ns v pre post : bytes) (children : option bytes) :
  forallb is_name_char ns = true -> children_ok children -> ~ In "<"%char pre ->
  In v ValidSchemeColors ->
  concat (map (emit_element s2h s2s)
              (find_all element_pattern (pre ++ scheme_element ns v children ++ post)))
  = pre ++ match lookup v s2h with
           | Some hex => srgb_element ns hex
           | None => match lookup v s2s with
                     | Some n => scheme_element ns n children
                     | None => scheme_element ns v children
                     end
           end
    ++ concat (map (emit_element s2h s2s) (find_all element_pattern post)).
Proof.
  intros Hns Hch Hpre Hv.
  rewrite find_all_no_lt by (exact element_needs_lt || exact Hpre).
  rewrite map_app, concat_app, concat_map_raw by reflexivity. f_equal.
  assert (Hne : scheme_element ns v children <> []) by (unfold scheme_element; discriminate).
  destruct children as [c|].
  - destruct Hch as [Hc Hend].
    rewrite (find_all_hit _ _ _ _ _ (element_match_container ns v c post Hns Hv Hc Hend) Hne).
    cbn [map concat]. f_equal. cbn [emit_element].
    destruct (lookup v s2h) as [hex|]; [unfold srgb_element; rewrite <- !app_assoc; reflexivity|].
    destruct (lookup v s2s) as [n|]; [|reflexivity].
    unfold scheme_element. rewrite <- !app_assoc. reflexivity.
  - rewrite (find_all_hit _ _ _ _ _ (element_match_self ns v post Hns Hv) Hne).
    cbn [map concat]. f_equal. cbn [emit_element].
    destruct (lookup v s2h) as [hex|]; [unfold srgb_element; rewrite <- !app_assoc; reflexivity|].
    destruct (lookup v s2s) as [n|]; [|reflexivity].
    unfold scheme_element. rewrite <- !app_assoc, app_nil_r. reflexivity.
Qed.

Lemma scheme_emit (s2s : mapping) (ns v pre post : bytes) (children : option bytes) :
  forallb is_name_char ns = true -> children_ok children -> ~ In "<"%char pre ->
  In v ValidSchemeColors ->
  concat (map (emit_scheme s2s)
              (find_all scheme_pattern (pre ++ scheme_element ns v children ++ post)))
  = pre ++ scheme_element ns (match lookup v s2s with Some n => n | None => v end) children
    ++ concat (map (emit_scheme s2s) (find_all scheme_pattern post)).
Proof.
  intros Hns Hch Hpre Hv.
  rewrite find_all_no_lt by (exact scheme_needs_lt || exact Hpre).
  rewrite map_app, concat_app, concat_map_raw by reflexivity. f_equal.
  set (opening := lit "<" ++ ns ++ lit ":schemeClr val=`").
  assert (Hne : opening ++ v ++ lit "`" <> []) by (unfold opening; discriminate).
  destruct children as [c|].
  - destruct Hch as [Hc Hend].
    assert (E : scheme_element ns v (Some c) ++ post
                = (opening ++ v ++ lit "`") ++ lit ">" ++ (c ++ lit "</" ++ ns ++ lit ":schemeClr>" ++ post))
      by (unfold scheme_element, opening; rewrite <- !app_assoc; reflexivity).
    rewrite E.
    assert (Hm : first_match scheme_pattern ((opening ++ v ++ lit "`") ++ lit ">" ++
                   (c ++ lit "</" ++ ns ++ lit ":schemeClr>" ++ post))
                 = Some (0, [opening; v; lit "`"], lit ">" ++
                   (c ++ lit "</" ++ ns ++ lit ":schemeClr>" ++ post)))
      by (unfold opening; rewrite <- !app_assoc; apply scheme_match; auto).
    rewrite (find_all_hit _ _ _ _ _ Hm Hne).
    rewrite find_all_no_lt by (exact scheme_needs_lt || (simpl; intuition discriminate)).
    rewrite find_all_raw_prefix by exact (scheme_fail_children c _ Hc Hend).
    rewrite scheme_scan_close by exact Hns.
    rewrite map_cons, concat_cons, !map_app, !concat_app, !concat_map_raw by reflexivity.
    cbn [emit_scheme].
    unfold scheme_element, opening. rewrite <- !app_assoc. reflexivity.
  - assert (E : scheme_element ns v None ++ post = (opening ++ v ++ lit "`") ++ lit "/>" ++ post)
      by (unfold scheme_element, opening; rewrite <- !app_assoc; reflexivity).
    rewrite E.
    assert (Hm : first_match scheme_pattern ((opening ++ v ++ lit "`") ++ lit "/>" ++ post)
                 = Some (0, [opening; v; lit "`"], lit "/>" ++ post))
      by (unfold opening; rewrite <- !app_assoc; apply scheme_match; auto).
    rewrite (find_all_hit _ _ _ _ _ Hm Hne).
    rewrite find_all_no_lt by (exact scheme_needs_lt || (simpl; intuition discriminate)).
    rewrite map_cons, concat_cons, !map_app, !concat_app, !concat_map_raw by reflexivity.
    cbn [emit_scheme].
    unfold scheme_element, opening. rewrite <- !app_assoc. reflexivity.
Qed.

Lemma element_path_all (s2h s2s : mapping) (xml : bytes) :
  (if no_matches (find_all element_pattern xml) then xml
   else concat (map (emit_element s2h s2s) (find_all element_pattern xml)))
  = concat (map (emit_element s2h s2s) (find_all element_pattern xml)).
Proof. apply emit_all. reflexivity. Qed.

Lemma scheme_path_all (s2s : mapping) (xml : bytes) :
  is_empty_map s2s = false ->
  ReplaceSchemeColors xml s2s = concat (map (emit_scheme s2s) (find_all scheme_pattern xml)).
Proof. intros H. unfold ReplaceSchemeColors. rewrite H. cbv zeta. apply emit_all. reflexivity. Qed.

Lemma lookup_nonempty (k v : bytes) (m : mapping) : lookup k m = Some v -> is_empty_map m = false.
Proof. destruct m; [discriminate|reflexivity]. Qed.

Lemma index_of_None (w s : bytes) : index_of s w = None -> ~ contains w s.
Proof.
  assert (Eq : forall s, index_of s w = if has_prefix w s then Some 0 else
                 match s with [] => None | _ :: s' => option_map S (index_of s' w) end)
    by (intros [|x s']; reflexivity).
  intros H [a [b ->]]. induction a as [|x a IH]; rewrite Eq in H.
  - change ([] ++ w ++ b) with (w ++ b) in H. rewrite has_prefix_app in H. discriminate.
  - destruct (has_prefix w ((x :: a) ++ w ++ b)); [discriminate|].
    simpl in H. destruct (index_of (a ++ w ++ b) w); [discriminate|]. exact (IH eq_refl).
Qed.


(** ** Tables, files and documents: lemmas *)

Lemma aset_In (k v k' v' : bytes) (m : mapping) :
  In (k, v) (aset k' v' m) -> (k, v) = (k', v') \/ In (k, v) m.
Proof.
  induction m as [|[a b] m IH]; simpl; [intros [H|[]]; left; congruence|].
  destruct (bytes_eqb k' a); simpl.
  - intros [H|H]; [left; congruence|right; right; exact H].
  - intros [H|H]; [right; left; exact H|]. destruct (IH H); auto.
Qed.

Lemma aset_fresh (k v : bytes) (m : mapping) : lookup k m = None -> aset k v m = m ++ [(k, v)].
Proof.
  induction m as [|[a b] m IH]; simpl; [reflexivity|].
  destruct (bytes_eqb k a); [discriminate|]. intros H. rewrite (IH H). reflexivity.
Qed.

Lemma valid_table_aset (k v : bytes) (m : mapping) :
  valid_table m -> lookup k m = None -> isValidColor k = true -> isValidColor v = true ->
  valid_table (aset k v m).
Proof.
  intros [Hnd Hf] Hk Hkv Hv. rewrite (aset_fresh _ _ _ Hk). split.
  - rewrite map_app. simpl. apply NoDup_app; [exact Hnd|repeat constructor; simpl; tauto|].
    intros x Hx [<-|[]]. apply in_map_iff in Hx as [[a b] [Ha Hin]]. simpl in Ha; subst a.
    exact (lookup_None _ _ Hk b Hin).
  - apply Forall_app. split; [exact Hf|]. repeat constructor; assumption.
Qed.

Lemma parse_pairs_valid (l : list bytes) (acc m : mapping) :
  valid_table acc -> parse_pairs l acc = Ok m -> valid_table m.
Proof.
  revert acc. induction l as [|p l IH]; intros acc Hacc H.
  - injection H as <-. exact Hacc.
  - apply parse_pairs_cons_ok in H as [[_ H]|[x [y [_ [Hx [Hy [[_ H]|[Hl H]]]]]]]].
    + exact (IH acc Hacc H).
    + exact (IH acc Hacc H).
    + exact (IH _ (valid_table_aset x y acc Hacc Hl Hx Hy) H).
Qed.

Lemma hex_digit_colour_byte (x : ascii) : is_hex_digit x = true -> colour_byte x = true.
Proof. destruct x as [[] [] [] [] [] [] [] []]; vm_compute; congruence. Qed.

Lemma valid_colour_bytes (c : bytes) : isValidColor c = true -> forallb colour_byte c = true.
Proof.
  unfold isValidColor. destruct (is_valid_scheme c) eqn:Hs; simpl.
  - intros _. apply In_existsb_eqb in Hs. scheme_cases Hs; reflexivity.
  - unfold isValidHexColor. intros H. apply andb_prop in H as [_ H].
    exact (forallb_impl _ _ _ hex_digit_colour_byte H).
Qed.

Lemma colour_plain (s : bytes) : forallb colour_byte s = true -> forallb plain s = true.
Proof.
  apply forallb_impl. intros c H. unfold colour_byte in H.
  destruct (plain c); [reflexivity|discriminate].
Qed.

Lemma colour_no_char (x : ascii) (s : bytes) :
  forallb colour_byte s = true -> colour_byte x = false -> ~ In x s.
Proof. intros H Hx Hin. rewrite forallb_forall in H. rewrite (H x Hin) in Hx. discriminate. Qed.

Lemma pair_of_entry (x y : bytes) :
  isValidColor x = true -> isValidColor y = true -> pair_of (entry_of (x, y)) = Some (x, y).
Proof.
  intros Hx Hy. apply valid_colour_bytes in Hx, Hy. unfold pair_of, entry_of; simpl.
  rewrite trim_space_plain
    by (rewrite forallb_app; simpl; rewrite !colour_plain by assumption; reflexivity).
  rewrite split_on_app_sep by (apply colour_no_char; [exact Hx|reflexivity]).
  rewrite split_on_no_sep by (apply colour_no_char; [exact Hy|reflexivity]).
  rewrite !trim_space_plain by (apply colour_plain; assumption). reflexivity.
Qed.

Lemma lookup_not_key (k : bytes) (m : mapping) : ~ In k (map fst m) -> lookup k m = None.
Proof.
  intros H. destruct (lookup k m) as [v|] eqn:E; [|reflexivity].
  exfalso. exact (H (lookup_keys _ _ _ E)).
Qed.

Lemma parse_pairs_entries (l acc : mapping) :
  NoDup (map fst (acc ++ l)) ->
  Forall (fun p => isValidColor (fst p) = true /\ isValidColor (snd p) = true) l ->
  parse_pairs (map entry_of l) acc = Ok (acc ++ l).
Proof.
  revert acc. induction l as [|[x y] l IH]; intros acc Hnd Hf.
  - rewrite app_nil_r. reflexivity.
  - inversion Hf as [|? ? [Hx Hy] Hf']; subst.
    rewrite map_app in Hnd. simpl in Hnd.
    assert (Hl : lookup x acc = None).
    { apply lookup_not_key. intros Hin. apply (NoDup_remove_2 _ _ _ Hnd).
      apply in_or_app. left. exact Hin. }
    simpl map. rewrite (parse_pairs_cons_pair _ _ _ x y (pair_of_entry x y Hx Hy) Hx Hy), Hl.
    rewrite aset_fresh by exact Hl. rewrite IH; [rewrite <- app_assoc; reflexivity| |exact Hf'].
    rewrite <- app_assoc, map_app. exact Hnd.
Qed.

Lemma walk_parts (colorMapping : mapping) (sel : part -> bool) (fs : list part) :
  Forall2 (part_step colorMapping sel) fs (snd (walk colorMapping sel fs)).
Proof.
  induction fs as [|f fs IH]; simpl; [constructor|].
  destruct (visit colorMapping sel f) as [n f'] eqn:Ev.
  destruct (walk colorMapping sel fs) as [k fs''] eqn:Ew. simpl in IH |- *.
  constructor; [|exact IH].
  unfold visit in Ev. unfold part_step.
  destruct (sel f) eqn:Hs; simpl in Ev; [|injection Ev as _ <-; left; reflexivity].
  destruct (p_readable f); [|injection Ev as _ <-; left; reflexivity].
  destruct (p_writable f) eqn:Hw.
  - injection Ev as _ <-. right. repeat split.
  - destruct (p_write_fail f) as [j|]; injection Ev as _ <-; [right|left; reflexivity].
    repeat split. exists j. reflexivity.
Qed.

Lemma map_values_cons (f : bytes -> bytes) (sg : segment) (d : list segment) :
  map_values f (sg :: d)
  = {| s_text := s_text sg; s_ns := s_ns sg; s_val := f (s_val sg);
       s_children := s_children sg |} :: map_values f d.
Proof. reflexivity. Qed.

Lemma find_all_nil (r : regex) : find_all r [] = [].
Proof. reflexivity. Qed.

Lemma emit_tail (emit : piece -> bytes) (r : regex) (tail : bytes) :
  (forall c, emit (Raw c) = [c]) ->
  (forall c s', c <> "<"%char -> first_match r (c :: s') = None) -> ~ In "<"%char tail ->
  concat (map emit (find_all r tail)) = tail.
Proof.
  intros He Hr Ht. rewrite <- (app_nil_r tail) at 1.
  rewrite find_all_no_lt by assumption. rewrite find_all_nil, app_nil_r.
  apply concat_map_raw. exact He.
Qed.

Lemma ReplaceSchemeColors_render_emit (m : mapping) (d : list segment) (tail : bytes) :
  doc_ok d tail ->
  concat (map (emit_scheme m) (find_all scheme_pattern (render d tail)))
  = render (map_values (mapped m) d) tail.
Proof.
  intros [Hd Ht]. induction Hd as [|sg d [H1 [H2 [H3 H4]]] Hd IH].
  - apply emit_tail; [reflexivity|exact scheme_needs_lt|exact Ht].
  - rewrite map_values_cons. cbn [render]. rewrite scheme_emit by assumption. rewrite IH.
    reflexivity.
Qed.

Lemma ReplaceSchemeColors_render (m : mapping) (d : list segment) (tail : bytes) :
  doc_ok d tail ->
  ReplaceSchemeColors (render d tail) m = render (map_values (mapped m) d) tail.
Proof.
  intros Hok. destruct (is_empty_map m) eqn:Hm.
  - destruct m; [|discriminate]. unfold ReplaceSchemeColors. simpl.
    clear. induction d as [|sg d IH]; [reflexivity|].
    rewrite map_values_cons. cbn [render]. rewrite <- IH. destruct sg; reflexivity.
  - rewrite scheme_path_all by exact Hm. apply ReplaceSchemeColors_render_emit, Hok.
Qed.

Lemma doc_ok_map_values (f : bytes -> bytes) (d : list segment) (tail : bytes) :
  (forall v, In v ValidSchemeColors -> In (f v) ValidSchemeColors) ->
  doc_ok d tail -> doc_ok (map_values f d) tail.
Proof.
  intros Hf [Hd Ht]. split; [|exact Ht].
  induction Hd as [|sg d [H1 [H2 [H3 H4]]] _ IH]; [constructor|].
  constructor; [|exact IH]. split; [exact H1|]. split; [exact H2|].
  split; [exact H3|]. apply Hf, H4.
Qed.

Lemma map_values_id (f : bytes -> bytes) (d : list segment) :
  Forall (fun sg => f (s_val sg) = s_val sg) d -> map_values f d = d.
Proof.
  induction 1 as [|sg d H _ IH]; [reflexivity|].
  rewrite map_values_cons, IH, H. destruct sg; reflexivity.
Qed.

Lemma map_values_map_values (f g : bytes -> bytes) (d : list segment) :
  map_values g (map_values f d) = map_values (fun v => g (f v)) d.
Proof. unfold map_values. rewrite map_map. reflexivity. Qed.

Lemma tables_conv (m : mapping) (sg : segment) :
  NoDup (map fst m) -> In (s_val sg) ValidSchemeColors ->
  match lookup (s_val sg) (fst (scheme_tables m)) with
  | Some hex => srgb_element (s_ns sg) hex
  | None => match lookup (s_val sg) (snd (scheme_tables m)) with
            | Some n => scheme_element (s_ns sg) n (s_children sg)
            | None => scheme_element (s_ns sg) (s_val sg) (s_children sg)
            end
  end = srgb_conv m sg.
Proof.
  intros Hnd Hv. unfold srgb_conv. destruct (lookup (s_val sg) m) as [t|] eqn:Hl.
  - destruct (tables_lookup (s_val sg) t m Hnd (lookup_In _ _ _ Hl))
      as [L1 L2]; [apply In_existsb_eqb, Hv|].
    rewrite L1, L2. destruct (isValidHexColor t); reflexivity.
  - assert (Hk : ~ In (s_val sg) (map fst m)).
    { intros Hk. apply in_map_iff in Hk. destruct Hk as [[k t] [Hk Hin]]. cbn in Hk. subst k.
      exact (lookup_None _ _ Hl t Hin). }
    destruct (lookup (s_val sg) (fst (scheme_tables m))) as [h|] eqn:E1.
    + exfalso. apply Hk, (scheme_tables_keys m). left. exact (lookup_keys _ _ _ E1).
    + destruct (lookup (s_val sg) (snd (scheme_tables m))) as [n|] eqn:E2; [|reflexivity].
      exfalso. apply Hk, (scheme_tables_keys m). right. exact (lookup_keys _ _ _ E2).
Qed.

Lemma render_with_scheme (m : mapping) (d : list segment) (tail : bytes) :
  render (map_values (mapped m) d) tail
  = render_with (fun sg => scheme_element (s_ns sg) (mapped m (s_val sg)) (s_children sg)) d tail.
Proof.
  induction d as [|sg d IH]; [reflexivity|]. rewrite map_values_cons. cbn [render render_with].
  rewrite IH. reflexivity.
Qed.

Lemma render_with_ext (f g : segment -> bytes) (d : list segment) (tail : bytes) :
  Forall (fun sg => f sg = g sg) d -> render_with f d tail = render_with g d tail.
Proof. induction 1 as [|sg d H _ IH]; [reflexivity|]. cbn [render_with]. rewrite H, IH. reflexivity. Qed.

Lemma bytes_ltb_irrefl (a : bytes) : bytes_ltb a a = false.
Proof.
  induction a as [|x a IH]; [reflexivity|]. simpl.
  rewrite Nat.ltb_irrefl, Nat.eqb_refl. exact IH.
Qed.

Lemma bytes_ltb_trans (a b c : bytes) : bytes_lt a b -> bytes_lt b c -> bytes_lt a c.
Proof.
  unfold bytes_lt. revert b c; induction a as [|x a IH]; intros [|y b] [|z c]; simpl;
    try discriminate; try reflexivity.
  destruct (Nat.ltb_spec (nat_of_ascii x) (nat_of_ascii y)),
           (Nat.eqb_spec (nat_of_ascii x) (nat_of_ascii y)),
           (Nat.ltb_spec (nat_of_ascii y) (nat_of_ascii z)),
           (Nat.eqb_spec (nat_of_ascii y) (nat_of_ascii z)),
           (Nat.ltb_spec (nat_of_ascii x) (nat_of_ascii z)),
           (Nat.eqb_spec (nat_of_ascii x) (nat_of_ascii z));
    try lia; try discriminate; try reflexivity.
  apply IH.
Qed.

Lemma bytes_ltb_total (a b : bytes) : a <> b -> bytes_ltb a b = false -> bytes_lt b a.
Proof.
  unfold bytes_lt. revert b; induction a as [|x a IH]; intros [|y b]; simpl;
    try reflexivity; try congruence.
  intros Hne.
  destruct (Nat.ltb_spec (nat_of_ascii x) (nat_of_ascii y)),
           (Nat.eqb_spec (nat_of_ascii x) (nat_of_ascii y)),
           (Nat.ltb_spec (nat_of_ascii y) (nat_of_ascii x)),
           (Nat.eqb_spec (nat_of_ascii y) (nat_of_ascii x));
    try lia; try discriminate; try reflexivity.
  intros Hlt. apply IH; [|exact Hlt]. intros ->. apply Hne. f_equal.
  rewrite <- (ascii_nat_embedding x), <- (ascii_nat_embedding y). congruence.
Qed.

Lemma insert_bytes_In (x y : bytes) (l : list bytes) : In y (insert_bytes x l) <-> y = x \/ In y l.
Proof.
  induction l as [|z l IH]; simpl; [intuition|].
  destruct (bytes_ltb z x); simpl; rewrite ?IH; intuition.
Qed.

Lemma insert_bytes_sorted (x : bytes) (l : list bytes) :
  StronglySorted bytes_lt l -> ~ In x l -> StronglySorted bytes_lt (insert_bytes x l).
Proof.
  induction 1 as [|z l Hl IH Hz]; intros Hx; simpl.
  - repeat constructor.
  - destruct (bytes_ltb z x) eqn:E.
    + constructor; [apply IH; intros H; apply Hx; right; exact H|].
      apply Forall_forall. intros y Hy. apply insert_bytes_In in Hy.
      destruct Hy as [->|Hy]; [exact E|]. exact (proj1 (Forall_forall _ _) Hz y Hy).
    + assert (Hxz : bytes_lt x z)
        by (apply bytes_ltb_total; [intros ->; apply Hx; left; reflexivity|exact E]).
      constructor; [constructor; assumption|]. constructor; [exact Hxz|].
      eapply Forall_impl; [|exact Hz]. intros y Hy. exact (bytes_ltb_trans _ _ _ Hxz Hy).
Qed.

Lemma sort_bytes_In (l : list bytes) (y : bytes) : In y (sort_bytes l) <-> In y l.
Proof.
  induction l as [|x l IH]; [reflexivity|]. unfold sort_bytes. cbn [fold_right].
  rewrite insert_bytes_In. fold (sort_bytes l). rewrite IH. simpl. intuition.
Qed.

Lemma sort_bytes_sorted (l : list bytes) : NoDup l -> StronglySorted bytes_lt (sort_bytes l).
Proof.
  induction 1 as [|x l Hx Hl IH]; [constructor|]. unfold sort_bytes. cbn [fold_right].
  apply insert_bytes_sorted; [exact IH|]. fold (sort_bytes l). rewrite sort_bytes_In. exact Hx.
Qed.

Lemma dedup_bytes_In (l : list bytes) (y : bytes) : In y (dedup_bytes l) <-> In y l.
Proof.
  induction l as [|x l IH]; [reflexivity|]. simpl.
  destruct (existsb (bytes_eqb x) l) eqn:E; simpl; rewrite IH; [|reflexivity].
  apply In_existsb_eqb in E. split; [auto|]. intros [->|H]; assumption.
Qed.

Lemma dedup_bytes_NoDup (l : list bytes) : NoDup (dedup_bytes l).
Proof.
  induction l as [|x l IH]; [constructor|]. simpl.
  destruct (existsb (bytes_eqb x) l) eqn:E; [exact IH|].
  constructor; [|exact IH]. rewrite dedup_bytes_In. intros H.
  apply In_existsb_eqb in H. congruence.
Qed.

Lemma available_iff (themes : list bytes) (x : bytes) :
  existsb (bytes_eqb x) (flat_map (fun t => [trim_suffix t (lit ".xml"); t]) themes) = true
  <-> exists th, In th themes /\ (x = trim_suffix th (lit ".xml") \/ x = th).
Proof.
  rewrite In_existsb_eqb, in_flat_map. split.
  - intros [th [Hth Hx]]. exists th. split; [exact Hth|]. simpl in Hx. intuition.
  - intros [th [Hth Hx]]. exists th. split; [exact Hth|]. simpl. intuition.
Qed.

Lemma theme_found_iff (masterToTheme : mapping) (t : bytes) :
  (let available x := existsb (bytes_eqb x)
        (flat_map (fun t => [trim_suffix t (lit ".xml"); t]) (map snd masterToTheme)) in
   available t || available (trim_suffix t (lit ".xml"))) = true
  <-> theme_listed masterToTheme t.
Proof.
  cbv zeta. rewrite orb_true_iff, !available_iff. unfold theme_listed. split.
  - intros [[th [H1 H2]]|[th [H1 H2]]]; exists th; split; auto; intuition.
  - intros [th [H1 H2]]. intuition; [left|left|right|right]; exists th; auto.
Qed.

Lemma invalid_char_iff (c : ascii) : existsb (Ascii.eqb c) invalidNameChars = true <-> In c invalidNameChars.
Proof.
  rewrite existsb_exists. split.
  - intros [d [Hd E]]. apply Ascii.eqb_eq in E. subst. exact Hd.
  - intros H. exists c. split; [exact H|apply Ascii.eqb_refl].
Qed.

Lemma first_invalid_None (name : bytes) :
  first_invalid name = None <-> forall c, In c name -> ~ In c invalidNameChars.
Proof.
  induction name as [|c name IH]; cbn [first_invalid In]; [intuition|].
  destruct (existsb (Ascii.eqb c) invalidNameChars) eqn:E.
  - split; [intros ?; discriminate|]. intros H. exfalso. apply (H c); [left; reflexivity|].
    apply invalid_char_iff, E.
  - rewrite IH. split.
    + intros H d [<-|Hd]; [|exact (H d Hd)]. intros Hc. apply invalid_char_iff in Hc. congruence.
    + intros H d Hd. exact (H d (or_intror Hd)).
Qed.

Lemma first_invalid_Some (name : bytes) (c : ascii) :
  first_invalid name = Some c <->
  exists pre post, name = pre ++ c :: post /\ In c invalidNameChars /\
    forall d, In d pre -> ~ In d invalidNameChars.
Proof.
  induction name as [|x name IH]; cbn [first_invalid].
  - split; [intros ?; discriminate|]. intros [[|? ?] [? [? _]]]; discriminate.
  - destruct (existsb (Ascii.eqb x) invalidNameChars) eqn:E.
    + split.
      * intros [= <-]. exists [], name. split; [reflexivity|].
        split; [apply invalid_char_iff, E|intros _ []].
      * intros [[|y pre] [post [Hn [Hc Hp]]]].
        -- injection Hn as -> _. reflexivity.
        -- injection Hn as <- _. exfalso. apply (Hp x); [left; reflexivity|apply invalid_char_iff, E].
    + rewrite IH. split.
      * intros [pre [post [-> [Hc Hp]]]]. exists (x :: pre), post. split; [reflexivity|].
        split; [exact Hc|]. intros d [<-|Hd]; [|exact (Hp d Hd)].
        intros Hx. apply invalid_char_iff in Hx. congruence.
      * intros [[|y pre] [post [Hn [Hc Hp]]]].
        -- injection Hn as -> _. apply invalid_char_iff in Hc. congruence.
        -- injection Hn as -> ->. exists pre, post. split; [reflexivity|].
           split; [exact Hc|]. intros d Hd. exact (Hp d (or_intror Hd)).
Qed.

Lemma hex_facts (c : ascii) :
  is_hex_digit c = true -> not_in [">"%char] c = true /\ re_space c = false.
Proof. destruct c as [[] [] [] [] [] [] [] []]; vm_compute; intros H; try discriminate H; split; reflexivity. Qed.

Lemma hex_six (h : bytes) : isValidHexColor h = true ->
  exists a b c d e f, h = [a; b; c; d; e; f] /\
    Forall (fun x => is_hex_digit x = true) [a; b; c; d; e; f].
Proof.
  unfold isValidHexColor. intros H. apply andb_prop in H as [Hl Hf].
  apply Nat.eqb_eq in Hl. rewrite forallb_forall in Hf.
  destruct h as [|a [|b [|c [|d [|e [|f [|? ?]]]]]]]; try discriminate Hl.
  exists a, b, c, d, e, f. split; [reflexivity|]. apply Forall_forall. exact Hf.
Qed.

Lemma srgb_rest_atoms (h Y : bytes) :
  isValidHexColor h = true ->
  m_seq [ALit (lit "srgbClr"); ACls (not_in [">"%char]) Star; ACls re_space One; ALit (lit "val=`")]
        (lit "srgbClr val=`" ++ h ++ lit "`/>" ++ Y)
  = [(lit "srgbClr val=`", h ++ lit "`/>" ++ Y)].
Proof.
  intros Hh. destruct (hex_six h Hh) as [a [b [c [d [e [f [-> Hf]]]]]]].
  repeat match goal with H : Forall _ (_ :: _) |- _ => inversion H; subst; clear H end.
  repeat match goal with H : is_hex_digit ?x = true |- _ =>
    destruct (hex_facts x H) as [? ?]; clear H end.
  remember (not_in [">"%char]) as P eqn:HP.
  remember re_space as R eqn:HR.
  repeat (cbn; match goal with
  | |- context [P ?x] =>
      first [replace (P x) with true by (subst; first [reflexivity|symmetry; assumption])
            |replace (P x) with false by (subst; first [reflexivity|symmetry; assumption])]
  | |- context [R ?x] =>
      first [replace (R x) with true by (subst; first [reflexivity|symmetry; assumption])
            |replace (R x) with false by (subst; first [reflexivity|symmetry; assumption])]
  end).
  reflexivity.
Qed.

Lemma srgb_value_groups (h Y : bytes) :
  isValidHexColor h = true ->
  m_groups [[ACls is_hex_digit One; ACls is_hex_digit One; ACls is_hex_digit One;
             ACls is_hex_digit One; ACls is_hex_digit One; ACls is_hex_digit One];
            [ALit (lit "`")]] (h ++ lit "`/>" ++ Y)
  = [([h; lit "`"], lit "/>" ++ Y)].
Proof.
  intros Hh. destruct (hex_six h Hh) as [a [b [c [d [e [f [-> Hf]]]]]]].
  repeat match goal with H : Forall _ (_ :: _) |- _ => inversion H; subst; clear H end.
  remember is_hex_digit as X eqn:HX.
  repeat (cbn; match goal with
  | |- context [X ?x] =>
      first [replace (X x) with true by (subst; first [reflexivity|symmetry; assumption])
            |replace (X x) with false by (subst; first [reflexivity|symmetry; assumption])]
  end).
  reflexivity.
Qed.

Lemma srgb_match (ns h Y : bytes) :
  forallb is_name_char ns = true -> isValidHexColor h = true ->
  first_match srgb_pattern (srgb_element ns h ++ Y)
  = Some (0, [lit "<" ++ ns ++ lit ":srgbClr val=`"; h; lit "`"], lit "/>" ++ Y).
Proof.
  intros Hns Hh. unfold first_match, srgb_pattern, srgb_element. cbn [m_alts]. rewrite app_nil_r.
  rewrite <- !app_assoc, m_groups_cons.
  change (lit ":srgbClr val=`" ++ h ++ lit "`/>" ++ Y)
    with (":"%char :: (lit "srgbClr val=`" ++ h ++ lit "`/>" ++ Y)).
  change [ALit (lit "<"); ACls (not_in [":"; ">"]%char) Star; ACls (is_char ":") Opt;
          ALit (lit "srgbClr"); ACls (not_in [">"%char]) Star; ACls re_space One;
          ALit (lit "val=`")]
    with ([ALit (lit "<"); ACls (not_in [":"; ">"]%char) Star; ACls (is_char ":") Opt] ++
          [ALit (lit "srgbClr"); ACls (not_in [">"%char]) Star; ACls re_space One;
           ALit (lit "val=`")]).
  rewrite m_seq_app.
  destruct (open_seq ns (lit "srgbClr val=`" ++ h ++ lit "`/>" ++ Y) Hns eq_refl) as [L [HL _]].
  rewrite HL. cbn [flat_map fst snd]. rewrite srgb_rest_atoms by exact Hh.
  cbn [map flat_map fst snd app]. rewrite srgb_value_groups by exact Hh.
  simpl. f_equal. f_equal. f_equal. f_equal. rewrite <- app_assoc. reflexivity.
Qed.

Lemma srgb_needs_lt (c : ascii) (s : bytes) :
  c <> "<"%char -> first_match srgb_pattern (c :: s) = None.
Proof.
  intros Hc. unfold first_match, srgb_pattern. cbn [m_alts].
  rewrite !m_groups_cons, !m_seq_lit_fail by (apply has_prefix_lt, Hc). reflexivity.
Qed.

Lemma has_prefix_before (w x y : bytes) (c : ascii) :
  ~ In c w -> has_prefix w (x ++ c :: y) = true -> has_prefix w x = true.
Proof.
  revert x; induction w as [|a w IH]; intros [|b x] Hc H; [reflexivity|reflexivity| |].
  - simpl in H. apply andb_prop in H as [H _]. apply Ascii.eqb_eq in H. subst.
    exfalso. apply Hc. left. reflexivity.
  - simpl in H |- *. apply andb_prop in H as [H1 H2]. rewrite H1. simpl.
    apply IH; [intros Hw; apply Hc; right; exact Hw|exact H2].
Qed.

Lemma index_of_srgb (ns r : bytes) :
  ~ contains (lit "srgbClr") ns ->
  index_of (ns ++ ":"%char :: lit "srgbClr" ++ r) (lit "srgbClr") = Some (S (length ns)).
Proof.
  assert (Eq : forall s w, index_of s w = if has_prefix w s then Some 0 else
                 match s with [] => None | _ :: s' => option_map S (index_of s' w) end)
    by (intros s w; destruct s; reflexivity).
  induction ns as [|x ns IH]; intros Hc.
  - rewrite Eq. cbn [app]. change (has_prefix (lit "srgbClr") (":"%char :: lit "srgbClr" ++ r))
      with false. cbv iota. rewrite Eq, has_prefix_app. reflexivity.
  - rewrite Eq. destruct (has_prefix (lit "srgbClr") ((x :: ns) ++ ":"%char :: lit "srgbClr" ++ r)) eqn:E.
    + exfalso. apply has_prefix_before in E; [|simpl; intuition discriminate].
      apply has_prefix_true in E. apply Hc. exists [], (skipn 7 (x :: ns)). exact E.
    + cbn [app]. rewrite IH; [reflexivity|]. intros [a [b Hab]]. apply Hc.
      exists (x :: a), b. rewrite Hab. reflexivity.
Qed.

Lemma tag_prefix_srgb (ns : bytes) :
  ~ contains (lit "srgbClr") ns ->
  tag_prefix (lit "<" ++ ns ++ lit ":srgbClr val=`") (lit "srgbClr") = ns ++ lit ":".
Proof.
  intros Hc. unfold tag_prefix.
  assert (E : index_of (lit "<" ++ ns ++ lit ":srgbClr val=`") (lit "srgbClr")
              = Some (S (S (length ns)))).
  { change (lit "<" ++ ns ++ lit ":srgbClr val=`")
      with ("<"%char :: ns ++ ":"%char :: lit "srgbClr" ++ lit " val=`").
    change (index_of ("<"%char :: ns ++ ":"%char :: lit "srgbClr" ++ lit " val=`") (lit "srgbClr"))
      with (option_map S (index_of (ns ++ ":"%char :: lit "srgbClr" ++ lit " val=`") (lit "srgbClr"))).
    rewrite index_of_srgb by exact Hc. reflexivity. }
  rewrite E. cbn [Nat.ltb Nat.leb]. rewrite Nat.sub_1_r. cbn [Nat.pred].
  change (skipn 1 (lit "<" ++ ns ++ lit ":srgbClr val=`"))
    with (ns ++ lit ":" ++ lit "srgbClr val=`").
  rewrite app_assoc.
  rewrite firstn_app, length_app. cbn [length].
  rewrite Nat.add_1_r, Nat.sub_diag, firstn_all2 by (rewrite length_app; simpl; lia).
  rewrite firstn_O, app_nil_r. reflexivity.
Qed.

Lemma hex_mapping_fold (m : mapping) : hex_mapping m = fold_left hex_step m [].
Proof. reflexivity. Qed.

Lemma hex_fold_other (K : bytes) (m acc : mapping) :
  (forall k t, In (k, t) m -> isValidHexColor k = true -> to_upper k <> K) ->
  lookup K (fold_left hex_step m acc) = lookup K acc.
Proof.
  revert acc; induction m as [|[k t] m IH]; intros acc H; [reflexivity|]. cbn [fold_left].
  rewrite IH by (intros k' t' Hin; apply (H k' t'); right; exact Hin).
  unfold hex_step. cbn [fst snd]. destruct (isValidHexColor k) eqn:Hk; [|reflexivity].
  rewrite lookup_aset. destruct (bytes_eqb K (to_upper k)) eqn:E; [|reflexivity].
  apply bytes_eqb_eq in E. exfalso. exact (H k t (or_introl eq_refl) Hk (eq_sym E)).
Qed.

Lemma hex_fold_hit (K k t : bytes) (m acc : mapping) :
  NoDup (map to_upper (filter isValidHexColor (map fst m))) ->
  In (k, t) m -> isValidHexColor k = true -> to_upper k = K ->
  lookup K (fold_left hex_step m acc) = Some t.
Proof.
  revert acc; induction m as [|[k' t'] m IH]; intros acc Hnd Hin Hk HK; [destruct Hin|].
  cbn [fold_left]. cbn [map filter fst] in Hnd.
  destruct Hin as [[= -> ->]|Hin].
  - rewrite Hk in Hnd. cbn [map] in Hnd. inversion Hnd as [|? ? Hn Hnd']; subst.
    rewrite hex_fold_other.
    + unfold hex_step. cbn [fst snd]. rewrite Hk, lookup_aset, bytes_eqb_refl. reflexivity.
    + intros k2 t2 Hin2 Hk2 E. apply Hn. rewrite <- E. apply in_map, filter_In.
      split; [apply in_map_iff; exists (k2, t2); auto|exact Hk2].
  - apply IH; [|exact Hin|exact Hk|exact HK].
    destruct (isValidHexColor k'); [|exact Hnd]. cbn [map] in Hnd. inversion Hnd; assumption.
Qed.

Lemma hex_mapping_lookup (m : mapping) (h : bytes) :
  NoDup (map to_upper (filter isValidHexColor (map fst m))) ->
  lookup (to_upper h) (hex_mapping m) = hex_target m h.
Proof.
  intros Hnd. rewrite hex_mapping_fold. unfold hex_target.
  destruct (find _ m) as [[k t]|] eqn:F.
  - apply find_some in F as [Hin Hc]. cbn [fst] in Hc. apply andb_prop in Hc as [Hk E].
    apply bytes_eqb_eq in E. exact (hex_fold_hit _ k t m [] Hnd Hin Hk E).
  - rewrite hex_fold_other; [reflexivity|]. intros k t Hin Hk E.
    pose proof (find_none _ _ F (k, t) Hin) as Hc. cbn [fst] in Hc.
    rewrite Hk, E, bytes_eqb_refl in Hc. discriminate.
Qed.

Lemma rgb_emit (hm : mapping) (ns h pre post : bytes) :
  forallb is_name_char ns = true -> ~ contains (lit "srgbClr") ns ->
  isValidHexColor h = true -> ~ In "<"%char pre ->
  concat (map (emit_srgb hm) (find_all srgb_pattern (pre ++ srgb_element ns h ++ post)))
  = pre ++ match lookup (to_upper h) hm with
           | Some n => if isValidHexColor n then srgb_element ns (to_upper n)
                       else scheme_element ns n None
           | None => srgb_element ns h
           end
    ++ concat (map (emit_srgb hm) (find_all srgb_pattern post)).
Proof.
  intros Hns Hc Hh Hpre.
  rewrite find_all_no_lt by (exact srgb_needs_lt || exact Hpre).
  rewrite map_app, concat_app, concat_map_raw by reflexivity. f_equal.
  set (opening := lit "<" ++ ns ++ lit ":srgbClr val=`").
  assert (E : srgb_element ns h ++ post = (opening ++ h ++ lit "`") ++ lit "/>" ++ post)
    by (unfold srgb_element, opening; rewrite <- !app_assoc; reflexivity).
  pose proof (srgb_match ns h post Hns Hh) as Hm. rewrite E in Hm |- *.
  rewrite (find_all_hit _ _ _ _ _ Hm) by (unfold opening; destruct ns; discriminate).
  rewrite find_all_no_lt by (exact srgb_needs_lt || (simpl; intuition discriminate)).
  rewrite map_cons, concat_cons, map_app, concat_app, concat_map_raw by reflexivity.
  cbn [emit_srgb]. rewrite tag_prefix_srgb by exact Hc.
  destruct (lookup (to_upper h) hm) as [n|]; [destruct (isValidHexColor n)|];
    unfold srgb_element, scheme_element, opening; rewrite <- !app_assoc; reflexivity.
Qed.

Lemma render_rgb_ext (f g : bytes -> bytes -> bytes) (d : list rgb_segment) (tail : bytes) :
  (forall sg, In sg d -> f (r_ns sg) (r_hex sg) = g (r_ns sg) (r_hex sg)) ->
  render_rgb f d tail = render_rgb g d tail.
Proof.
  induction d as [|sg d IH]; intros H; [reflexivity|]. cbn [render_rgb].
  rewrite (H sg (or_introl eq_refl)), IH; [reflexivity|]. intros sg' Hin. apply H. right. exact Hin.
Qed.

(** ** What the matches of the element and scheme patterns are *)

Lemma m_groups_lang (gs : branch) (s : bytes) (caps : list bytes) (r : bytes) :
  In (caps, r) (m_groups gs s) -> Forall2 seq_lang gs caps.
Proof.
  revert s caps r. induction gs as [|g gs IH]; intros s caps r; simpl.
  - intros [[= <- _]|[]]. constructor.
  - rewrite in_flat_map. intros [[x1 r1] [H1 H2]]. apply in_map_iff in H2 as [[c2 r2] [[= <- _] H2]].
    constructor; [exact (proj2 (m_seq_lang _ _ _ _ H1))|exact (IH _ _ _ H2)].
Qed.

Lemma m_alts_lang (i : nat) (rg : regex) (s : bytes) (j : nat) (caps : list bytes) (r : bytes) :
  In (j, caps, r) (m_alts i rg s) ->
  i <= j /\ exists b, nth_error rg (j - i) = Some b /\ Forall2 seq_lang b caps.
Proof.
  revert i. induction rg as [|b rg IH]; intros i; simpl; [intros []|].
  rewrite in_app_iff. intros [H|H].
  - apply in_map_iff in H as [[c2 r2] [[= <- <- _] H]]. split; [lia|].
    exists b. rewrite Nat.sub_diag. split; [reflexivity|exact (m_groups_lang _ _ _ _ H)].
  - destruct (IH _ H) as [Hle [b' [Hb Hl]]]. split; [lia|]. exists b'.
    replace (j - i) with (S (j - S i)) by lia. split; assumption.
Qed.

Lemma scan_hit_lang (fuel : nat) (rg : regex) (s : bytes) (j : nat) (whole : bytes) (caps : list bytes) :
  In (Hit j whole caps) (scan fuel rg s) ->
  exists b, nth_error rg j = Some b /\ Forall2 seq_lang b caps.
Proof.
  revert s. induction fuel as [|f IH]; intros s; simpl.
  - intros H. apply in_map_iff in H as [c [H _]]. discriminate.
  - destruct s as [|c s']; [intros []|].
    destruct (first_match rg (c :: s')) as [[[i caps'] rest]|] eqn:Hm.
    + destruct (length rest <? length (c :: s')).
      * intros [H|H]; [|exact (IH _ H)]. injection H as Hi _ Hc. subst i caps'.
        unfold first_match in Hm. destruct (m_alts 0 rg (c :: s')) as [|x l] eqn:Ha; [discriminate|].
        injection Hm as ->. destruct (m_alts_lang 0 rg (c :: s') j caps rest) as [_ H];
          [rewrite Ha; left; reflexivity|]. rewrite Nat.sub_0_r in H. exact H.
      * intros [H|H]; [discriminate|exact (IH _ H)].
    + intros [H|H]; [discriminate|exact (IH _ H)].
Qed.

Lemma find_all_hit_lang (rg : regex) (xml : bytes) (j : nat) (whole : bytes) (caps : list bytes) :
  In (Hit j whole caps) (find_all rg xml) ->
  whole = concat caps /\ exists b, nth_error rg j = Some b /\ Forall2 seq_lang b caps.
Proof.
  intros H. split; [|exact (scan_hit_lang _ _ _ _ _ _ H)].
  destruct (scan_text (length xml) rg xml) as [_ Hok]. rewrite Forall_forall in Hok.
  exact (Hok _ H).
Qed.

Lemma seq_lang_snoc_lit (g : group) (w x : bytes) : seq_lang (g ++ [ALit w]) x -> exists z, x = z ++ w.
Proof.
  revert x. induction g as [|a g IH]; intros x; simpl.
  - intros [x1 [x2 [-> [-> ->]]]]. exists []. rewrite app_nil_r. reflexivity.
  - intros [x1 [x2 [-> [_ H]]]]. destruct (IH _ H) as [z ->]. exists (x1 ++ z).
    rewrite app_assoc. reflexivity.
Qed.

Lemma seq_lang_lit (w x : bytes) : seq_lang [ALit w] x -> x = w.
Proof. intros H. destruct (seq_lang_snoc_lit [] w x H) as [z ->]. simpl in H.
  destruct H as [x1 [x2 [E [-> ->]]]]. rewrite app_nil_r in E. exact E. Qed.

(** The children and closing tag of a container match: any bytes, then a
    closing tag [</ns:schemeClr>] whose prefix has no [>]. *)
Lemma close_group_shape (x : bytes) :
  seq_lang [ACls any_byte LazyStar; ALit (lit "</"); ACls (not_in [":"; ">"]%char) Star;
            ACls (is_char ":") Opt; ALit (lit "schemeClr>")] x ->
  exists z1 z2, x = z1 ++ lit "</" ++ z2 ++ lit "schemeClr>" /\ ~ In ">"%char z2.
Proof.
  intros [x1 [x2 [-> [_ [y1 [x3 [-> [-> [y2 [x4 [-> [[Hy2 _] [y3 [x5 [-> [[Hy3 _] H5]]]]]]]]]]]]]]]].
  destruct H5 as [y4 [x6 [-> [-> ->]]]].
  exists x1, (y2 ++ y3). rewrite !app_nil_r, <- !app_assoc. split; [reflexivity|].
  rewrite forallb_forall in Hy2, Hy3. intros Hg. apply in_app_or in Hg as [Hg|Hg];
    [specialize (Hy2 _ Hg)|specialize (Hy3 _ Hg)]; vm_compute in Hy2 || vm_compute in Hy3; discriminate.
Qed.

(** A match of [element_pattern]: its groups, the element name, the
    attribute opening ending in [val=DQ], and the end of the element, [/>]
    or [>] followed by the children and a closing schemeClr tag. *)
Lemma element_hit (xml : bytes) (i : nat) (whole : bytes) (caps : list bytes) :
  In (Hit i whole caps) (find_all element_pattern xml) ->
  whole = concat caps /\
  ((i = 0 /\ exists c0 c2 c3 c4 z, caps = [c0; lit "schemeClr"; c2; c3; c4; lit "/>"] /\
                                   c2 = z ++ lit "val=`") \/
   (i = 1 /\ exists c0 c2 c3 c4 c6 z z' z'', caps = [c0; lit "schemeClr"; c2; c3; c4; lit ">"; c6] /\
      c2 = z ++ lit "val=`" /\ c6 = z' ++ lit "</" ++ z'' ++ lit "schemeClr>" /\ ~ In ">"%char z'')).
Proof.
  intros H. destruct (find_all_hit_lang _ _ _ _ _ H) as [Hw [b [Hb Hl]]]. split; [exact Hw|].
  destruct i as [|[|i]]; simpl in Hb; [left|right|destruct i; discriminate].
  - injection Hb as <-. split; [reflexivity|].
    inversion Hl as [|g0 c0 ? l0 H0 Hl0]; subst. inversion Hl0 as [|g1 c1 ? l1 H1 Hl1]; subst.
    inversion Hl1 as [|g2 c2 ? l2 H2 Hl2]; subst. inversion Hl2 as [|g3 c3 ? l3 H3 Hl3]; subst.
    inversion Hl3 as [|g4 c4 ? l4 H4 Hl4]; subst. inversion Hl4 as [|g5 c5 ? l5 H5 Hl5]; subst.
    inversion Hl5; subst.
    apply seq_lang_lit in H1, H5. subst.
    destruct (seq_lang_snoc_lit [ACls re_space Plus] _ _ H2) as [z ->].
    exists c0, (z ++ lit "val=`"), c3, c4, z. split; reflexivity.
  - injection Hb as <-. split; [reflexivity|].
    inversion Hl as [|g0 c0 ? l0 H0 Hl0]; subst. inversion Hl0 as [|g1 c1 ? l1 H1 Hl1]; subst.
    inversion Hl1 as [|g2 c2 ? l2 H2 Hl2]; subst. inversion Hl2 as [|g3 c3 ? l3 H3 Hl3]; subst.
    inversion Hl3 as [|g4 c4 ? l4 H4 Hl4]; subst. inversion Hl4 as [|g5 c5 ? l5 H5 Hl5]; subst.
    inversion Hl5 as [|g6 c6 ? l6 H6 Hl6]; subst. inversion Hl6; subst.
    apply seq_lang_lit in H1, H5. subst.
    destruct (seq_lang_snoc_lit [ACls re_space Plus] _ _ H2) as [z ->].
    destruct (close_group_shape _ H6) as [z' [z'' [-> Hz]]].
    exists c0, (z ++ lit "val=`"), c3, c4, (z' ++ lit "</" ++ z'' ++ lit "schemeClr>"), z, z', z''.
    repeat split; exact Hz.
Qed.

(** A match of [scheme_pattern]: the opening up to [val=DQ], the value and
    the closing quote. *)
Lemma scheme_hit (xml : bytes) (i : nat) (whole : bytes) (caps : list bytes) :
  In (Hit i whole caps) (find_all scheme_pattern xml) ->
  whole = concat caps /\ exists c0 c1 c2 z, caps = [c0; c1; c2] /\ c0 = z ++ lit "val=`".
Proof.
  intros H. destruct (find_all_hit_lang _ _ _ _ _ H) as [Hw [b [Hb Hl]]]. split; [exact Hw|].
  destruct i as [|i]; simpl in Hb; [|destruct i; discriminate].
  injection Hb as <-.
  inversion Hl as [|g0 c0 ? l0 H0 Hl0]; subst. inversion Hl0 as [|g1 c1 ? l1 H1 Hl1]; subst.
  inversion Hl1 as [|g2 c2 ? l2 H2 Hl2]; subst. inversion Hl2; subst.
  destruct (seq_lang_snoc_lit [ALit (lit "<"); ACls (not_in [":"; ">"]%char) Star;
    ACls (is_char ":") Opt; ALit (lit "schemeClr"); ACls (not_in [">"%char]) Star;
    ACls re_space One] _ _ H0) as [z ->].
  exists (z ++ lit "val=`"), c1, c2, z. split; reflexivity.
Qed.

Lemma concat_emit_no_matches (E : piece -> bytes) (rg : regex) (xml : bytes) :
  (forall c, E (Raw c) = [c]) -> no_matches (find_all rg xml) = true ->
  concat (map E (find_all rg xml)) = xml.
Proof.
  intros HE Hn. destruct (scan_text (length xml) rg xml) as [Ht _]. unfold find_all in *.
  transitivity (concat (map piece_text (scan (length xml) rg xml))); [|exact Ht].
  apply concat_map_ext_in. apply Forall_forall. intros p Hp.
  unfold no_matches in Hn. apply negb_true_iff in Hn.
  destruct p as [c|j whole caps]; [apply HE|].
  assert (E1 : existsb is_hit (scan (length xml) rg xml) = true)
    by (apply existsb_exists; exists (Hit j whole caps); split; [exact Hp|reflexivity]).
  congruence.
Qed.

(** * Claims *)

(** ** C1: the two passes of ProcessPPTX cascade *)

(** C1 (code_bug). With the mapping {accent1 -> FF0000, FF0000 -> accent2},
    the pipeline of ProcessPPTX (the scheme pass, then the hex pass over its
    output) turns the accent1 element into an RGB element that the hex pass
    then rewrites again: both the accent1 and the FF0000 occurrence end up as
    accent2, the C,C outcome the atomicity contract excludes. *)
Theorem rewrite_part_cascades_across_passes :
  rewrite_part (lit "<a:schemeClr val=`accent1`/><a:srgbClr val=`FF0000`/>")
    (mk [("accent1", "FF0000"); ("FF0000", "accent2")]%string)
  = lit "<a:schemeClr val=`accent2`/><a:schemeClr val=`accent2`/>".
Proof. vm_compute. reflexivity. Qed.

(** ** C2: scheme to hex and scheme to scheme on every matched colour element *)

(** C2: let [m] map the scheme colour [v] (once) to [t]. Every match of
    the element pattern whose value is [v], a self-closing element
    [<ns:schemeClr ... val=DQvDQ .../>] or a container element whose
    children run up to its closing tag [</ns:schemeClr>], wherever it sits
    in the part and whatever its (possibly empty) namespace prefix, is
    rewritten as follows by ReplaceSchemeColorsWithSrgb, which outputs the
    concatenation of the rewritten matches and the bytes between them. When
    [t] is a hex colour, the whole match, children and closing tag
    included, becomes the self-closing [<ns:srgbClr val=DQ(to_upper t)DQ/>].
    When [t] is a scheme colour, only the value changes: every other byte
    of the match (name, attributes, children, closing tag) is kept; this
    goes through the scheme-only pattern when [m] has no scheme-to-hex
    entry, and through the element pattern otherwise. *)
Theorem scheme_element_cross_type (xml : bytes) (m : mapping) (v t : bytes) :
  NoDup (map fst m) -> In (v, t) m -> is_valid_scheme v = true ->
  let s2h := fst (scheme_tables m) in
  let s2s := snd (scheme_tables m) in
  (isValidHexColor t = true ->
     ReplaceSchemeColorsWithSrgb xml m
     = concat (map (emit_element s2h s2s) (find_all element_pattern xml)) /\
     forall i whole caps, In (Hit i whole caps) (find_all element_pattern xml) ->
       nth 3 caps [] = v ->
       whole = concat caps /\ nth 1 caps [] = lit "schemeClr" /\
       has_suffix (lit "val=`") (nth 2 caps []) = true /\
       ((length caps = 6 /\ nth 5 caps [] = lit "/>") \/
        (length caps = 7 /\ nth 5 caps [] = lit ">" /\
         exists z1 z2, nth 6 caps [] = z1 ++ lit "</" ++ z2 ++ lit "schemeClr>" /\
                       ~ In ">"%char z2)) /\
       emit_element s2h s2s (Hit i whole caps)
       = nth 0 caps [] ++ lit "srgbClr" ++ lit " val=`" ++ to_upper t ++ lit "`/>") /\
  (is_valid_scheme t = true -> is_empty_map s2h = true ->
     ReplaceSchemeColorsWithSrgb xml m
     = concat (map (emit_scheme s2s) (find_all scheme_pattern xml)) /\
     forall i whole caps, In (Hit i whole caps) (find_all scheme_pattern xml) ->
       nth 1 caps [] = v ->
       whole = concat (firstn 1 caps) ++ v ++ concat (skipn 2 caps) /\
       has_suffix (lit "val=`") (concat (firstn 1 caps)) = true /\
       emit_scheme s2s (Hit i whole caps) = concat (firstn 1 caps) ++ t ++ concat (skipn 2 caps)) /\
  (is_valid_scheme t = true -> is_empty_map s2h = false ->
     ReplaceSchemeColorsWithSrgb xml m
     = concat (map (emit_element s2h s2s) (find_all element_pattern xml)) /\
     forall i whole caps, In (Hit i whole caps) (find_all element_pattern xml) ->
       nth 3 caps [] = v ->
       whole = concat (firstn 3 caps) ++ v ++ concat (skipn 4 caps) /\
       has_suffix (lit "val=`") (concat (firstn 3 caps)) = true /\
       emit_element s2h s2s (Hit i whole caps)
       = concat (firstn 3 caps) ++ t ++ concat (skipn 4 caps)).
Proof.
  intros Hnd Hin Hv. cbv zeta.
  destruct (tables_lookup v t m Hnd Hin Hv) as [L1 L2].
  assert (Hm : is_empty_map m = false) by (destruct m; [destruct Hin|reflexivity]).
  assert (Rw : forall E rg, (forall c, E (Raw c) = [c]) ->
    (if no_matches (find_all rg xml) then xml else concat (map E (find_all rg xml)))
    = concat (map E (find_all rg xml))).
  { intros E rg HE. destruct (no_matches (find_all rg xml)) eqn:Hn; [|reflexivity].
    symmetry. exact (concat_emit_no_matches E rg xml HE Hn). }
  unfold ReplaceSchemeColorsWithSrgb. rewrite Hm.
  destruct (scheme_tables m) as [s2h s2s]. cbn [fst snd] in L1, L2 |- *.
  split; [|split]; intros Ht.
  - rewrite Ht in L1. rewrite (lookup_nonempty _ _ _ L1). cbv zeta.
    split; [exact (Rw _ _ (fun c => eq_refl))|].
    intros i whole caps Hh Hc. destruct (element_hit _ _ _ _ Hh) as [Hw Hs].
    split; [exact Hw|].
    destruct Hs as [[-> [c0 [c2 [c3 [c4 [z [-> ->]]]]]]]
                   |[-> [c0 [c2 [c3 [c4 [c6 [z [z' [z'' [-> [-> [-> Hz]]]]]]]]]]]]];
      cbn [nth] in Hc |- *; subst c3; (split; [reflexivity|]); (split; [apply has_suffix_app|]).
    + split; [left; split; reflexivity|]. cbn [emit_element]. rewrite L1. reflexivity.
    + split; [right; split; [reflexivity|split; [reflexivity|exists z', z''; split; [reflexivity|exact Hz]]]|].
      cbn [emit_element]. rewrite L1. reflexivity.
  - intros He. rewrite (scheme_not_hex t Ht) in L1, L2. rewrite He.
    unfold ReplaceSchemeColors. rewrite (lookup_nonempty _ _ _ L2). cbv zeta.
    split; [exact (Rw _ _ (fun c => eq_refl))|].
    intros i whole caps Hh Hc. destruct (scheme_hit _ _ _ _ Hh) as [Hw [c0 [c1 [c2 [z [-> ->]]]]]].
    cbn [nth] in Hc. subst c1 whole. cbn [firstn skipn concat]. rewrite !app_nil_r.
    split; [reflexivity|]. split; [apply has_suffix_app|].
    cbn [emit_scheme]. rewrite L2. reflexivity.
  - intros He. rewrite (scheme_not_hex t Ht) in L1, L2. rewrite He. cbv zeta.
    split; [exact (Rw _ _ (fun c => eq_refl))|].
    intros i whole caps Hh Hc. destruct (element_hit _ _ _ _ Hh) as [Hw Hs].
    destruct Hs as [[-> [c0 [c2 [c3 [c4 [z [-> ->]]]]]]]
                   |[-> [c0 [c2 [c3 [c4 [c6 [z [z' [z'' [-> [-> [-> Hz]]]]]]]]]]]]];
      cbn [nth] in Hc; subst c3 whole; cbn [firstn skipn concat]; rewrite ?app_nil_r;
      (split; [rewrite <- ?app_assoc; reflexivity|]);
      (split; [rewrite ?app_assoc; apply has_suffix_app|]);
      cbn [emit_element]; rewrite L1, L2; rewrite <- ?app_assoc; reflexivity.
Qed.

Lemma scheme_element_cross_type_witness :
  ReplaceSchemeColorsWithSrgb (lit "<p:sp><a:tint/><schemeClr val=`accent1`><a:lumMod val=`75000`/></schemeClr></p:sp>") [(lit "accent1", lit "ff0000")]
  = lit "<p:sp><a:tint/><srgbClr val=`FF0000`/></p:sp>" /\
  ReplaceSchemeColorsWithSrgb (lit "<p:sp><a:tint/><schemeClr val=`accent1`><a:lumMod val=`75000`/></schemeClr></p:sp>") [(lit "accent1", lit "accent2")]
  = lit "<p:sp><a:tint/><schemeClr val=`accent2`><a:lumMod val=`75000`/></schemeClr></p:sp>" /\
  ReplaceSchemeColorsWithSrgb (lit "<p:sp><a:tint/><schemeClr val=`accent1`><a:lumMod val=`75000`/></schemeClr></p:sp>") [(lit "accent1", lit "accent2"); (lit "dk1", lit "00ff00")]
  = lit "<p:sp><a:tint/><schemeClr val=`accent2`><a:lumMod val=`75000`/></schemeClr></p:sp>".
Proof.
  assert (N1 : NoDup (map fst [(lit "accent1", lit "ff0000")]))
    by exact (NoDup_cons _ (@in_nil _ _) (NoDup_nil _)).
  assert (N2 : NoDup (map fst [(lit "accent1", lit "accent2")]))
    by exact (NoDup_cons _ (@in_nil _ _) (NoDup_nil _)).
  assert (N3 : NoDup (map fst [(lit "accent1", lit "accent2"); (lit "dk1", lit "00ff00")])).
  { apply NoDup_cons; [intros [H|[]]; vm_compute in H; discriminate|].
    exact (NoDup_cons _ (@in_nil _ _) (NoDup_nil _)). }
  split; [|split].
  - destruct (proj1 (scheme_element_cross_type (lit "<p:sp><a:tint/><schemeClr val=`accent1`><a:lumMod val=`75000`/></schemeClr></p:sp>") _ (lit "accent1") (lit "ff0000")
      N1 (or_introl eq_refl) eq_refl) eq_refl) as [E _].
    rewrite E. vm_compute. reflexivity.
  - destruct (proj1 (proj2 (scheme_element_cross_type (lit "<p:sp><a:tint/><schemeClr val=`accent1`><a:lumMod val=`75000`/></schemeClr></p:sp>") _ (lit "accent1") (lit "accent2")
      N2 (or_introl eq_refl) eq_refl)) eq_refl eq_refl) as [E _].
    rewrite E. vm_compute. reflexivity.
  - destruct (proj2 (proj2 (scheme_element_cross_type (lit "<p:sp><a:tint/><schemeClr val=`accent1`><a:lumMod val=`75000`/></schemeClr></p:sp>") _ (lit "accent1") (lit "accent2")
      N3 (or_introl eq_refl) eq_refl)) eq_refl eq_refl) as [E _].
    rewrite E. vm_compute. reflexivity.
Defined.

(** ** C3: hex to scheme on an RGB element with children *)

(** C3 (code_bug). ReplaceSrgbColors on an srgbClr element that has a child
    (an alpha modifier) and a scheme-token target rewrites only the opening
    tag: the result is a schemeClr start tag closed by [</a:srgbClr>], not a
    self-closing schemeClr element replacing the whole element. *)
Theorem ReplaceSrgbColors_container_keeps_srgb_close_tag :
  ReplaceSrgbColors (lit "<a:srgbClr val=`FF0000`><a:alpha val=`50000`/></a:srgbClr>")
    (mk [("FF0000", "accent1")]%string)
  = lit "<a:schemeClr val=`accent1`><a:alpha val=`50000`/></a:srgbClr>".
Proof. vm_compute. reflexivity. Qed.

(** ** C4: parts whose theme cannot be resolved *)

(** C4 (counterexample). Under the filter [theme1], a slide, a layout and a
    master part whose theme cannot be resolved (no rels file, no
    layout-master or master-theme entry) are all processed. *)
Lemma shouldProcessFile_unresolved_processed :
  shouldProcessFile (lit "ppt/slides/slide1.xml") [lit "theme1"] [] [] (fun _ => None) = true /\
  shouldProcessFile (lit "ppt/slideLayouts/slideLayout1.xml") [lit "theme1"] [] [] (fun _ => None)
    = true /\
  shouldProcessFile (lit "ppt/slideMasters/slideMaster1.xml") [lit "theme1"] [] [] (fun _ => None)
    = true.
Proof. vm_compute. repeat split. Qed.

(** C4 (amended). With a non-empty theme filter, shouldProcessFile keeps a
    slide, layout or master part whose theme resolves through the
    relationship chain exactly when that theme is one of the filter names
    (with .xml appended where missing); a slide, layout or master part whose
    theme cannot be resolved, and every part of another kind, is kept. *)
Theorem shouldProcessFile_by_resolved_theme (relPath : bytes) (themeFilter : list bytes)
  (layoutToMaster masterToTheme : mapping) (rels : slide_rels) :
  themeFilter <> [] ->
  shouldProcessFile relPath themeFilter layoutToMaster masterToTheme rels =
  match part_theme relPath layoutToMaster masterToTheme rels with
  | Some t => existsb (bytes_eqb t) (map normalize_theme themeFilter)
  | None => true
  end.
Proof.
  intros Hne. destruct themeFilter as [|f0 fs]; [congruence|].
  destruct (kind_prefixes_disjoint relPath) as [Hs Hl].
  unfold shouldProcessFile, part_theme, kind_of.
  destruct (has_prefix (lit "ppt/slides/slide") relPath) eqn:H1.
  - destruct (Hs eq_refl) as [-> ->].
    destruct (is_empty (getSlideTheme (rels relPath) layoutToMaster masterToTheme)); reflexivity.
  - destruct (has_prefix (lit "ppt/slideLayouts/slideLayout") relPath) eqn:H2.
    + rewrite (Hl eq_refl).
      destruct (lookup (base relPath) layoutToMaster) as [mn|]; [|reflexivity].
      destruct (lookup mn masterToTheme); reflexivity.
    + destruct (has_prefix (lit "ppt/slideMasters/slideMaster") relPath);
        [destruct (lookup (base relPath) masterToTheme)|]; reflexivity.
Qed.

Lemma shouldProcessFile_by_resolved_theme_witness :
  shouldProcessFile (lit "ppt/slides/slide2.xml") [lit "theme2"]
    (mk [("slideLayout1.xml", "slideMaster1.xml")]%string)
    (mk [("slideMaster1.xml", "theme1.xml")]%string)
    (fun _ => Some (lit "../slideLayouts/slideLayout1.xml"))
  = existsb (bytes_eqb (lit "theme1.xml")) (map normalize_theme [lit "theme2"]).
Proof.
  exact (shouldProcessFile_by_resolved_theme (lit "ppt/slides/slide2.xml") [lit "theme2"]
           (mk [("slideLayout1.xml", "slideMaster1.xml")]%string)
           (mk [("slideMaster1.xml", "theme1.xml")]%string)
           (fun _ => Some (lit "../slideLayouts/slideLayout1.xml")) ltac:(discriminate)).
Defined.

(** ** C5: what ProcessPPTX counts *)

(** C5 (counterexample). A slide part without any colour element is read,
    rewritten to the same bytes and written back: ProcessPPTX counts it,
    returning 1 although no part changed. *)
Lemma ProcessPPTX_counts_unchanged_part :
  ProcessPPTX [untouched_slide] (mk [("accent1", "accent2")]%string) [] (lit "all") [] []
    (fun _ => None)
  = (1, None, [untouched_slide]).
Proof. vm_compute. reflexivity. Qed.

(** C5 (amended). When the scope and the theme filter are valid, the count
    ProcessPPTX returns is the number of selected XML parts (scope pattern,
    .xml suffix, theme filter) that were read and written back, whether or
    not their bytes changed. *)
Theorem ProcessPPTX_counts_written_parts (files : list part) (colorMapping : mapping)
  (themeFilter : list bytes) (scope : bytes) (layoutToMaster masterToTheme : mapping)
  (rels : slide_rels) :
  existsb (bytes_eqb scope) ValidScopes = true ->
  validateThemeFilter themeFilter masterToTheme = None ->
  fst (fst (ProcessPPTX files colorMapping themeFilter scope layoutToMaster masterToTheme rels))
  = length (filter (fun f => selected (getXMLPatterns scope) themeFilter layoutToMaster
                                      masterToTheme rels f
                             && p_readable f && p_writable f) files).
Proof.
  intros Hs Ht. unfold ProcessPPTX. rewrite Hs, Ht. simpl.
  pose proof (walk_count colorMapping (selected (getXMLPatterns scope) themeFilter layoutToMaster
                masterToTheme rels) files) as Hc.
  destruct (walk _ _ files). exact Hc.
Qed.

Lemma ProcessPPTX_counts_written_parts_witness :
  fst (fst (ProcessPPTX [untouched_slide] (mk [("accent1", "accent2")]%string) [] (lit "all")
              [] [] (fun _ => None)))
  = length (filter (fun f => selected (getXMLPatterns (lit "all")) [] [] [] (fun _ => None) f
                             && p_readable f && p_writable f) [untouched_slide]).
Proof.
  exact (ProcessPPTX_counts_written_parts [untouched_slide] (mk [("accent1", "accent2")]%string)
           [] (lit "all") [] [] (fun _ => None) eq_refl eq_refl).
Defined.

(** ** C6: duplicate and conflicting entries of a mapping string *)

(** C6 (code_bug). ParseColorMapping compares sources byte for byte, so two hex
    sources that name the same colour in different letter case, with
    different targets, raise no conflict: the table keeps both.
    ReplaceSrgbColors folds them to one upper-case key, and the target
    written for that colour is the one iterated last, which depends on the
    iteration order of the map: the two orders of this table give accent2
    and accent1. *)
Theorem ParseColorMapping_case_variant_conflict :
  ParseColorMapping (lit "aabbcc:accent1,AABBCC:accent2")
    = Ok (mk [("aabbcc", "accent1"); ("AABBCC", "accent2")]%string) /\
  ReplaceSrgbColors (lit "<a:srgbClr val=`AABBCC`/>")
    (mk [("aabbcc", "accent1"); ("AABBCC", "accent2")]%string)
    = lit "<a:schemeClr val=`accent2`/>" /\
  ReplaceSrgbColors (lit "<a:srgbClr val=`AABBCC`/>")
    (mk [("AABBCC", "accent2"); ("aabbcc", "accent1")]%string)
    = lit "<a:schemeClr val=`accent1`/>".
Proof. vm_compute. repeat split. Qed.

(** ** C7: identity on an empty mapping or on unmapped input *)

(** C7. Each of the three rewriters returns its input unchanged, for every
    input: with the empty mapping; and (ReplaceSchemeColors,
    ReplaceSchemeColorsWithSrgb) when no scheme value of an element the
    pattern matches is a source of the mapping, or (ReplaceSrgbColors) when no
    hex value of a matched srgbClr element equals a source of the mapping up
    to letter case.  Input in which the patterns match nothing, malformed or
    not XML, is the case with no such value.  The rewriters have no error
    result. *)
Theorem rewriters_identity_when_nothing_maps (xml : bytes) (m : mapping) :
  ReplaceSchemeColors xml [] = xml /\ ReplaceSrgbColors xml [] = xml /\
  ReplaceSchemeColorsWithSrgb xml [] = xml /\
  ((forall v, In v (found_scheme_values xml) -> ~ In v (map fst m)) ->
   ReplaceSchemeColors xml m = xml /\ ReplaceSchemeColorsWithSrgb xml m = xml) /\
  ((forall v, In v (found_srgb_values xml) ->
      forall k, In k (map fst m) -> to_upper k <> to_upper v) ->
   ReplaceSrgbColors xml m = xml).
Proof.
  split; [reflexivity|split; [reflexivity|split; [reflexivity|split]]].
  - intros Hv. unfold found_scheme_values in Hv.
    split.
    + apply ReplaceSchemeColors_unmapped. intros v Hin.
      destruct (lookup v m) as [t|] eqn:E; [|reflexivity]. exfalso.
      apply (Hv v); [apply in_or_app; left; exact Hin|exact (lookup_keys _ _ _ E)].
    + apply ReplaceSchemeColorsWithSrgb_unmapped.
      * intros v Hin. destruct (lookup v (snd (scheme_tables m))) as [t|] eqn:E; [|reflexivity].
        exfalso. apply (Hv v); [apply in_or_app; left; exact Hin|].
        apply scheme_tables_keys. right. exact (lookup_keys _ _ _ E).
      * intros v Hin. split.
        -- destruct (lookup v (fst (scheme_tables m))) as [t|] eqn:E; [|reflexivity].
           exfalso. apply (Hv v); [apply in_or_app; right; exact Hin|].
           apply scheme_tables_keys. left. exact (lookup_keys _ _ _ E).
        -- destruct (lookup v (snd (scheme_tables m))) as [t|] eqn:E; [|reflexivity].
           exfalso. apply (Hv v); [apply in_or_app; right; exact Hin|].
           apply scheme_tables_keys. right. exact (lookup_keys _ _ _ E).
  - intros Hv. apply ReplaceSrgbColors_unmapped. intros v Hin.
    destruct (lookup (to_upper v) (hex_mapping m)) as [t|] eqn:E; [|reflexivity].
    apply lookup_keys, hex_mapping_keys in E as [k [Hk Hu]].
    exfalso. exact (Hv v Hin k Hk Hu).
Qed.

(** ** C8: out-of-range slide numbers *)

(** C8. For a presentation of N slides (the table built by
    BuildSlideMapping) and a request [req], ValidateSlideNumbers fails exactly
    when some requested number exceeds N; its single message then contains
    the decimal forms of all those numbers, in request order and separated by
    commas, so that every invalid number is named. *)
Theorem ValidateSlideNumbers_names_every_invalid (mp : list (Z * bytes)) (req : list Z) :
  let N := Z.of_nat (length mp) in
  match ValidateSlideNumbers (Ok mp) req with
  | None => Forall (fun n => (n <= N)%Z) req
  | Some msg =>
      Exists (fun n => (N < n)%Z) req /\
      (exists pre post,
          msg = pre ++ join (lit ", ") (map dec (filter (fun n => (N <? n)%Z) req)) ++ post) /\
      Forall (fun n => (N < n)%Z -> contains (dec n) msg) req
  end.
Proof.
  cbv zeta. pose proof (ValidateSlideNumbers_shape mp req) as Hs. cbv zeta in Hs.
  destruct (ValidateSlideNumbers (Ok mp) req) as [msg|].
  - destruct Hs as [Hne [pre [post Hm]]]. split; [|split].
    + destruct (filter _ req) as [|n l] eqn:Hf; [congruence|].
      assert (Hn : In n (filter (fun n => (Z.of_nat (length mp) <? n)%Z) req))
        by (rewrite Hf; left; reflexivity).
      apply filter_In in Hn as [Hin Hlt]. apply Exists_exists.
      exists n. split; [exact Hin|]. apply Z.ltb_lt. exact Hlt.
    + exists pre, post. exact Hm.
    + apply Forall_forall. intros n Hin Hlt.
      destruct (join_contains (lit ", ") (dec n)
                  (map dec (filter (fun n => (Z.of_nat (length mp) <? n)%Z) req))) as [a [b Hab]].
      { apply in_map. apply filter_In. split; [exact Hin|]. apply Z.ltb_lt. exact Hlt. }
      exists (pre ++ a), (b ++ post). rewrite Hm, Hab. repeat rewrite <- app_assoc. reflexivity.
  - apply filter_nil_Forall in Hs. eapply Forall_impl; [|exact Hs].
    intros n Hn. simpl in Hn. apply Z.ltb_ge in Hn. exact Hn.
Qed.

(** ** C9: a doubled extension passes theme validation *)

(** C9 (code_bug). With one master using theme1.xml, the filter name
    [theme1.xml.xml] resolves to no master-theme edge (no theme is named
    [theme1.xml.xml]), yet validateThemeFilter accepts it (its .xml-stripped
    form [theme1.xml] is in the available set); shouldProcessFile, which keeps
    the name as it is, then excludes the master part that uses theme1.xml. *)
Theorem validateThemeFilter_accepts_double_extension :
  let m2t := mk [("slideMaster1.xml", "theme1.xml")]%string in
  let flt := [lit "theme1.xml.xml"] in
  ~ In (normalize_theme (lit "theme1.xml.xml")) (map snd m2t) /\
  ~ In (lit "theme1.xml.xml" ++ lit ".xml") (map snd m2t) /\
  validateThemeFilter flt m2t = None /\
  shouldProcessFile (lit "ppt/slideMasters/slideMaster1.xml") flt [] m2t (fun _ => None) = false.
Proof.
  cbv zeta. split; [|split; [|split]].
  - vm_compute. intros [H|[]]. discriminate H.
  - vm_compute. intros [H|[]]. discriminate H.
  - vm_compute. reflexivity.
  - vm_compute. reflexivity.
Qed.

(** ** C10: ParseSlideRange *)

(** C10. The empty flag parses to the empty selection with no error.  Any
    other flag that parses succeeds only when every comma-separated entry is
    a number at least 1 or a range [start-end] with [1 <= start <= end] (so
    an entry below 1, a reversed range or an empty entry is rejected), and
    the result is non-empty, strictly ascending (sorted, no duplicates) and
    holds exactly the numbers the entries denote. *)
Theorem ParseSlideRange_sorted_dedup :
  ParseSlideRange [] = Ok [] /\
  forall (flag : bytes) (slides : list Z),
    flag <> [] -> ParseSlideRange flag = Ok slides ->
    Forall entry_ok (split_on ","%char flag) /\ slides <> [] /\
    Sorted Z.lt slides /\ NoDup slides /\
    (forall z, In z slides <-> Exists (fun e => entry_covers e z) (split_on ","%char flag)).
Proof.
  split; [reflexivity|].
  intros flag slides Hne Hp. unfold ParseSlideRange in Hp.
  destruct flag as [|c flag']; [congruence|].
  destruct (parse_slide_parts (split_on ","%char (c :: flag')) []) as [l|e] eqn:Hps;
    [|discriminate].
  destruct (parse_slide_parts_ok _ _ _ Hps (NoDup_nil _)) as [Hnd [Hok Hin]].
  destruct l as [|x l']; [discriminate|]. injection Hp as <-.
  change (insert_Z x (sort_Z l')) with (sort_Z (x :: l')).
  split; [exact Hok|split; [|split; [|split]]].
  - intros H. pose proof (Permutation_length (sort_Z_perm (x :: l'))) as Hlen.
    rewrite H in Hlen. discriminate.
  - apply sort_Z_sorted, Hnd.
  - exact (Permutation_NoDup (Permutation_sym (sort_Z_perm _)) Hnd).
  - intros z. split.
    + intros Hz. apply (Permutation_in _ (sort_Z_perm _)) in Hz.
      apply Hin in Hz as [[]|Hz]. exact Hz.
    + intros Hz. apply (Permutation_in _ (Permutation_sym (sort_Z_perm _))).
      apply Hin. right. exact Hz.
Qed.

(** * Further properties *)

(** X1: when ParseColorMapping succeeds, the table it returns is non-empty,
    its sources are pairwise distinct, and every source and target is a valid
    colour (a scheme colour name or a 6-digit hex value). *)
Theorem ParseColorMapping_valid_table (s : bytes) (m : mapping) :
  ParseColorMapping s = Ok m ->
  m <> [] /\ NoDup (map fst m) /\
  Forall (fun p => isValidColor (fst p) = true /\ isValidColor (snd p) = true) m.
Proof.
  unfold ParseColorMapping. destruct (is_empty (trim_space s)); [discriminate|].
  destruct (parse_pairs (split_on ","%char (trim_space s)) []) as [m'|e] eqn:E; [|discriminate].
  destruct m' as [|q m']; [discriminate|]. intros [= <-].
  destruct (parse_pairs_valid _ [] _ (conj (NoDup_nil _) (Forall_nil _)) E) as [H1 H2].
  split; [discriminate|split; assumption].
Qed.

Lemma ParseColorMapping_valid_table_witness :
  let m := mk [("accent1", "FF0000"); ("ff0000", "accent2")]%string in
  m <> [] /\ NoDup (map fst m) /\
  Forall (fun p => isValidColor (fst p) = true /\ isValidColor (snd p) = true) m.
Proof.
  apply (ParseColorMapping_valid_table (nbsp ++ lit "accent1:FF0000 , ff0000:accent2," ++ nbsp)).
  vm_compute. reflexivity.
Defined.

(** X2: writing a non-empty table of valid colours with distinct sources as
    its entries source:target joined by commas, and parsing that string with
    ParseColorMapping, gives back the same table in the same order. *)
Theorem ParseColorMapping_round_trip (l : mapping) :
  l <> [] -> NoDup (map fst l) ->
  Forall (fun p => isValidColor (fst p) = true /\ isValidColor (snd p) = true) l ->
  ParseColorMapping (join [","%char] (map entry_of l)) = Ok l.
Proof.
  intros Hne Hnd Hf.
  rewrite ParseColorMapping_entries.
  - rewrite (parse_pairs_entries l [] Hnd Hf). destruct l; [congruence|reflexivity].
  - apply Forall_map. eapply Forall_impl; [|exact Hf]. intros [x y] [Hx Hy].
    apply valid_colour_bytes in Hx, Hy. unfold entry_of. simpl. intros Hin.
    apply in_app_or in Hin as [Hin|[Hc|Hin]];
      [exact (colour_no_char ","%char _ Hx eq_refl Hin)|discriminate|exact (colour_no_char ","%char _ Hy eq_refl Hin)].
  - destruct l as [|[x y] l]; [congruence|]. constructor. unfold entry_of. simpl.
    apply in_or_app. right. left. reflexivity.
Qed.

Lemma ParseColorMapping_round_trip_witness :
  ParseColorMapping (join [","%char] (map entry_of (mk [("accent1", "FF0000"); ("ff0000", "accent2")]%string)))
  = Ok (mk [("accent1", "FF0000"); ("ff0000", "accent2")]%string).
Proof.
  apply ParseColorMapping_round_trip; [discriminate|vm_compute|].
  - repeat constructor; simpl; intuition discriminate.
  - repeat constructor.
Defined.

(** X3: ProcessPPTX changes no file but the XML parts it selects, whatever
    the outcome (errors included): each file of the result is the input file
    as it was, or the input file is not a directory, its path ends in .xml,
    starts with one of the scope's patterns and passes shouldProcessFile, it
    was read, and the result keeps its path and flags and holds a prefix of
    the bytes rewritten by the two replacement passes (os.WriteFile
    truncates the file before it writes, so a failed write may leave only
    part of them, or none), all of them when os.WriteFile succeeds. *)
Theorem ProcessPPTX_touches_only_selected_xml (files : list part) (colorMapping : mapping)
  (themeFilter : list bytes) (scope : bytes) (layoutToMaster masterToTheme : mapping)
  (rels : slide_rels) (n : nat) (err : option process_error) (files' : list part) :
  ProcessPPTX files colorMapping themeFilter scope layoutToMaster masterToTheme rels
  = (n, err, files') ->
  Forall2 (fun f f' => f' = f \/
    (p_dir f = false /\ has_suffix (lit ".xml") (p_path f) = true /\
     existsb (fun pat => has_prefix pat (p_path f)) (getXMLPatterns scope) = true /\
     shouldProcessFile (p_path f) themeFilter layoutToMaster masterToTheme rels = true /\
     p_readable f = true /\
     (exists k, f' = set_data f (firstn k (rewrite_part (p_data f) colorMapping))) /\
     (p_writable f = true -> f' = set_data f (rewrite_part (p_data f) colorMapping))))
    files files'.
Proof.
  unfold ProcessPPTX.
  assert (Hrefl : Forall2 (fun f f' : part => f' = f) files files)
    by (induction files; constructor; auto).
  destruct (negb (existsb (bytes_eqb scope) ValidScopes)).
  { intros [= _ _ <-]. eapply Forall2_impl; [|exact Hrefl]. intros f f' H; left; exact H. }
  destruct (validateThemeFilter themeFilter masterToTheme).
  { intros [= _ _ <-]. eapply Forall2_impl; [|exact Hrefl]. intros f f' H; left; exact H. }
  pose proof (walk_parts colorMapping
    (selected (getXMLPatterns scope) themeFilter layoutToMaster masterToTheme rels) files) as H.
  destruct (walk _ _ files) as [k fs]. intros [= _ _ <-]. simpl in H.
  eapply Forall2_impl; [|exact H]. intros f f' [->|[Hs [Hr Hw]]]; [left; reflexivity|right].
  unfold selected in Hs. apply andb_prop in Hs as [Hs H4]. apply andb_prop in Hs as [Hs H3].
  apply andb_prop in Hs as [H1 H2]. destruct (p_dir f); [discriminate|].
  repeat split; try assumption.
  - destruct (p_writable f); [|exact Hw].
    exists (length (rewrite_part (p_data f) colorMapping)). rewrite firstn_all. exact Hw.
  - intros Hw'. rewrite Hw' in Hw. exact Hw.
Qed.

Lemma ProcessPPTX_touches_only_selected_xml_witness :
  Forall2 (fun f f' => f' = f \/
    (p_dir f = false /\ has_suffix (lit ".xml") (p_path f) = true /\
     existsb (fun pat => has_prefix pat (p_path f)) (getXMLPatterns (lit "all")) = true /\
     shouldProcessFile (p_path f) [] [] [] (fun _ => None) = true /\
     p_readable f = true /\
     (exists k, f' = set_data f (firstn k (rewrite_part (p_data f)
                                            (mk [("accent1", "accent2")]%string)))) /\
     (p_writable f = true ->
      f' = set_data f (rewrite_part (p_data f) (mk [("accent1", "accent2")]%string)))))
    [sample_slide (lit "<a:schemeClr val=`accent1`/>"); sample_rels;
     failing_slide (lit "<a:schemeClr val=`accent1`/>")]
    [sample_slide (lit "<a:schemeClr val=`accent2`/>"); sample_rels; failing_slide []].
Proof.
  apply (ProcessPPTX_touches_only_selected_xml
           [sample_slide (lit "<a:schemeClr val=`accent1`/>"); sample_rels;
            failing_slide (lit "<a:schemeClr val=`accent1`/>")]
           (mk [("accent1", "accent2")]%string) [] (lit "all") [] [] (fun _ => None) 1 None).
  vm_compute. reflexivity.
Defined.

(** X4: on a part made of text without tags and scheme colour elements
    (self-closing or with children, each with a valid scheme colour value),
    ReplaceSchemeColors replaces the value of each element by its image in
    the table, keeps the values the table does not map, and changes nothing
    else. *)
Theorem ReplaceSchemeColors_document (m : mapping) (d : list segment) (tail : bytes) :
  doc_ok d tail ->
  ReplaceSchemeColors (render d tail) m = render (map_values (mapped m) d) tail.
Proof. exact (ReplaceSchemeColors_render m d tail). Qed.

Lemma ReplaceSchemeColors_document_witness :
  ReplaceSchemeColors
    (render [{| s_text := lit "text "; s_ns := lit "a"; s_val := lit "accent1";
                s_children := Some (lit "<a:lumMod val=`75000`/>") |};
             {| s_text := []; s_ns := lit "a"; s_val := lit "dk1"; s_children := None |}]
            (lit " end"))
    (mk [("accent1", "accent2")]%string)
  = lit "text <a:schemeClr val=`accent2`><a:lumMod val=`75000`/></a:schemeClr><a:schemeClr val=`dk1`/> end".
Proof.
  rewrite (ReplaceSchemeColors_document (mk [("accent1", "accent2")]%string)).
  - vm_compute. reflexivity.
  - split; [|vm_compute; intuition discriminate].
    constructor; [|constructor; [|constructor]].
    + split; [vm_compute; intuition discriminate|].
      split; [reflexivity|]. split; [|vm_compute; intuition].
      split; [apply (index_of_None (lit "schemeClr")); reflexivity|].
      right. exists (lit "<a:lumMod val=`75000`/"). reflexivity.
    + split; [vm_compute; intuition discriminate|].
      split; [reflexivity|]. split; [exact I|vm_compute; intuition].
Defined.

(** X5: if the table maps every scheme colour to a scheme colour and is its
    own inverse on them (a swap such as accent1:accent2,accent2:accent1),
    applying ReplaceSchemeColors twice gives such a part back unchanged. *)
Theorem ReplaceSchemeColors_swap_twice (m : mapping) (d : list segment) (tail : bytes) :
  (forall v, In v ValidSchemeColors ->
     In (mapped m v) ValidSchemeColors /\ mapped m (mapped m v) = v) ->
  doc_ok d tail ->
  ReplaceSchemeColors (ReplaceSchemeColors (render d tail) m) m = render d tail.
Proof.
  intros Hinv Hok.
  rewrite (ReplaceSchemeColors_render m d tail Hok).
  rewrite ReplaceSchemeColors_render.
  - rewrite map_values_map_values, map_values_id; [reflexivity|].
    destruct Hok as [Hd _]. eapply Forall_impl; [|exact Hd].
    intros sg [_ [_ [_ Hv]]]. apply Hinv, Hv.
  - apply doc_ok_map_values; [|exact Hok]. intros v Hv. apply Hinv, Hv.
Qed.

Lemma ReplaceSchemeColors_swap_twice_witness :
  let m := mk [("accent1", "accent2"); ("accent2", "accent1")]%string in
  let d := [{| s_text := lit "x"; s_ns := lit "a"; s_val := lit "accent1"; s_children := None |};
            {| s_text := []; s_ns := lit "a"; s_val := lit "accent2"; s_children := None |}] in
  ReplaceSchemeColors (ReplaceSchemeColors (render d []) m) m = render d [].
Proof.
  intros m d. apply ReplaceSchemeColors_swap_twice.
  - intros v Hv. vm_compute in Hv.
    repeat (destruct Hv as [<-|Hv]; [vm_compute; intuition|]). destruct Hv.
  - split; [|exact (@in_nil _ "<"%char)].
    repeat constructor; vm_compute; intuition discriminate.
Defined.

(** X6: for a table with distinct sources, ReplaceSchemeColorsWithSrgb
    rewrites each scheme colour element of such a part on its own: mapped to
    a hex value, the element, children included, becomes a self-closing
    srgbClr element with the value in upper case; mapped to a scheme colour,
    only its value changes; unmapped, it stays as it is. *)
Theorem ReplaceSchemeColorsWithSrgb_document (m : mapping) (d : list segment) (tail : bytes) :
  NoDup (map fst m) -> doc_ok d tail ->
  ReplaceSchemeColorsWithSrgb (render d tail) m = render_with (srgb_conv m) d tail.
Proof.
  intros Hnd Hok.
  assert (Hconv : Forall (fun sg => In (s_val sg) ValidSchemeColors) d)
    by (eapply Forall_impl; [|exact (proj1 Hok)]; intros sg [_ [_ [_ Hv]]]; exact Hv).
  unfold ReplaceSchemeColorsWithSrgb. destruct (is_empty_map m) eqn:Hm.
  - destruct m; [|discriminate]. clear. induction d as [|sg d IH]; [reflexivity|].
    cbn [render render_with]. rewrite IH. reflexivity.
  - pose proof (fun sg H => tables_conv m sg Hnd H) as Hc.
    destruct (scheme_tables m) as [s2h s2s]. cbn [fst snd] in Hc.
    destruct (is_empty_map s2h) eqn:Hh.
    + destruct s2h; [|discriminate]. cbn [lookup] in Hc.
      rewrite ReplaceSchemeColors_render, render_with_scheme by exact Hok.
      apply render_with_ext. eapply Forall_impl; [|exact Hconv]. intros sg Hv.
      rewrite <- (Hc sg Hv). unfold mapped. destruct (lookup (s_val sg) s2s); reflexivity.
    + cbv zeta. rewrite element_path_all. destruct Hok as [Hd Ht].
      induction Hd as [|sg d [H1 [H2 [H3 H4]]] Hd IH]; inversion Hconv as [|? ? Hv Hconv']; subst.
      * apply emit_tail; [reflexivity|exact element_needs_lt|exact Ht].
      * cbn [render render_with]. rewrite element_emit by assumption.
        rewrite (IH Hconv'). f_equal. f_equal. exact (Hc sg Hv).
Qed.

Lemma ReplaceSchemeColorsWithSrgb_document_witness :
  let m := mk [("accent1", "c00000"); ("accent2", "dk2")]%string in
  let d := [{| s_text := lit "x"; s_ns := lit "a"; s_val := lit "accent1";
               s_children := Some (lit "<a:lumMod val=`75000`/>") |};
            {| s_text := []; s_ns := lit "p"; s_val := lit "accent2"; s_children := None |}] in
  ReplaceSchemeColorsWithSrgb (render d (lit " end")) m
  = lit "x<a:srgbClr val=`C00000`/><p:schemeClr val=`dk2`/> end".
Proof.
  intros m d. rewrite ReplaceSchemeColorsWithSrgb_document.
  - vm_compute. reflexivity.
  - constructor; [|constructor; [intros []|constructor]].
    intros [H|[]]. discriminate H.
  - split; [|vm_compute; intuition discriminate].
    constructor; [|constructor; [|constructor]].
    + split; [vm_compute; intuition discriminate|].
      split; [reflexivity|]. split; [|vm_compute; intuition].
      split; [apply (index_of_None (lit "schemeClr")); reflexivity|].
      right. exists (lit "<a:lumMod val=`75000`/"). reflexivity.
    + split; [vm_compute; intuition discriminate|].
      split; [reflexivity|]. split; [exact I|vm_compute; intuition].
Defined.

(** X7: validateThemeFilter accepts a theme filter exactly when every entry,
    as given or with a trailing .xml removed, equals the name of a theme some
    master uses, or that name with a trailing .xml removed; in particular the
    empty filter is always accepted. *)
Theorem validateThemeFilter_None_iff (themeFilter : list bytes) (masterToTheme : mapping) :
  validateThemeFilter themeFilter masterToTheme = None <->
  Forall (theme_listed masterToTheme) themeFilter.
Proof.
  destruct themeFilter as [|t0 fl]; [split; [constructor|reflexivity]|].
  unfold validateThemeFilter. cbv beta iota zeta.
  remember (t0 :: fl) as flt eqn:Ef. clear Ef.
  rewrite Forall_forall.
  match goal with |- context [filter ?P flt] => set (Pn := P) end.
  assert (HP : forall t, Pn t = false <-> theme_listed masterToTheme t).
  { intros t. rewrite <- theme_found_iff. unfold Pn. cbv zeta.
    destruct (_ || _); simpl; intuition discriminate. }
  split.
  - intros H t Ht. apply HP.
    destruct (filter Pn flt) eqn:Fl; [|discriminate].
    destruct (Pn t) eqn:E; [|reflexivity].
    assert (Hin : In t []) by (rewrite <- Fl; apply filter_In; auto).
    destruct Hin.
  - intros H. destruct (filter Pn flt) as [|u l] eqn:Fl; [reflexivity|].
    assert (Hu : In u (filter Pn flt)) by (rewrite Fl; left; reflexivity).
    apply filter_In in Hu. destruct Hu as [Hu Hn].
    pose proof (proj2 (HP u) (H u Hu)). congruence.
Qed.

(** X8: when validateThemeFilter rejects a filter, the error lists exactly
    the entries of the filter that name no theme (at least one), and as the
    available themes the theme names of the masters with a trailing .xml
    removed, each once, in strictly ascending byte order. *)
Theorem validateThemeFilter_error (themeFilter : list bytes) (masterToTheme : mapping)
  (notFound available : list bytes) :
  validateThemeFilter themeFilter masterToTheme = Some (ThemesNotFound notFound available) ->
  notFound <> [] /\
  (forall t, In t notFound <-> In t themeFilter /\ ~ theme_listed masterToTheme t) /\
  StronglySorted bytes_lt available /\
  (forall x, In x available <->
     exists th, In th (map snd masterToTheme) /\ x = trim_suffix th (lit ".xml")).
Proof.
  destruct themeFilter as [|t0 fl]; [discriminate|].
  unfold validateThemeFilter. cbv beta iota zeta.
  remember (t0 :: fl) as flt eqn:Ef. clear Ef.
  match goal with |- context [filter ?P flt] => set (Pn := P) end.
  assert (HP : forall t, Pn t = true <-> ~ theme_listed masterToTheme t).
  { intros t. rewrite <- theme_found_iff. unfold Pn. cbv zeta.
    destruct (_ || _); simpl; intuition discriminate. }
  destruct (filter Pn flt) as [|u l] eqn:Fl; [discriminate|].
  intros [= <- <-]. split; [discriminate|]. split; [|split].
  - intros t. rewrite <- Fl, filter_In, HP. reflexivity.
  - apply sort_bytes_sorted, dedup_bytes_NoDup.
  - intros x. rewrite sort_bytes_In, dedup_bytes_In, in_map_iff. split.
    + intros [th [Hx Hth]]. exists th. split; [exact Hth|symmetry; exact Hx].
    + intros [th [Hth Hx]]. exists th. split; [symmetry; exact Hx|exact Hth].
Qed.

Lemma validateThemeFilter_error_witness :
  validateThemeFilter [lit "theme3"; lit "theme1.xml"]
    (mk [("slideMaster2.xml", "theme2.xml"); ("slideMaster1.xml", "theme1.xml");
         ("slideMaster3.xml", "theme2.xml")]%string)
  = Some (ThemesNotFound [lit "theme3"] [lit "theme1"; lit "theme2"]) /\
  StronglySorted bytes_lt [lit "theme1"; lit "theme2"].
Proof.
  assert (E : validateThemeFilter [lit "theme3"; lit "theme1.xml"]
    (mk [("slideMaster2.xml", "theme2.xml"); ("slideMaster1.xml", "theme1.xml");
         ("slideMaster3.xml", "theme2.xml")]%string)
    = Some (ThemesNotFound [lit "theme3"] [lit "theme1"; lit "theme2"]))
    by (vm_compute; reflexivity).
  split; [exact E|]. exact (proj1 (proj2 (proj2 (validateThemeFilter_error _ _ _ _ E)))).
Defined.

(** X9: ValidateName accepts a name exactly when it is non-empty and has
    none of the characters . / \ ? : * in it; any other character, such as
    & ^ # @ !, is accepted. *)
Theorem ValidateName_accepts (name : bytes) :
  ValidateName name = None <->
  name <> [] /\ forall c, In c name -> ~ In c invalidNameChars.
Proof.
  unfold ValidateName. destruct name as [|x name'] eqn:En.
  - split; [intros ?; discriminate|]. intros [H _]. congruence.
  - rewrite <- En. destruct (first_invalid name) eqn:F.
    + split; [intros ?; discriminate|]. intros [_ H]. apply first_invalid_None in H. congruence.
    + split; [|reflexivity]. intros _. split; [rewrite En; discriminate|].
      apply first_invalid_None, F.
Qed.

(** X10: ValidateName rejects a name for the character c exactly when c is
    one of the forbidden characters and is the first forbidden character
    occurring in the name. *)
Theorem ValidateName_first_invalid (name : bytes) (c : ascii) :
  ValidateName name = Some (NameInvalidChar c) <->
  exists pre post, name = pre ++ c :: post /\ In c invalidNameChars /\
    forall d, In d pre -> ~ In d invalidNameChars.
Proof.
  rewrite <- first_invalid_Some. unfold ValidateName. destruct name as [|x name']; [|].
  - simpl. split; intros ?; discriminate.
  - destruct (first_invalid (x :: name')) as [d|].
    + split; [intros [= ->]; reflexivity|intros [= ->]; reflexivity].
    + split; intros ?; discriminate.
Qed.

(** X11: if no two hex sources of the table are equal up to letter case,
    ReplaceSrgbColors rewrites each self-closing srgbClr element of a part
    made of text without tags and such elements (with a namespace prefix
    that does not contain srgbClr) on its own: a value whose hex source,
    compared up to case, maps to a hex value becomes that value in upper
    case; one mapped to a scheme colour becomes a self-closing schemeClr
    element with that name; an unmapped one stays as it is. *)
Theorem ReplaceSrgbColors_document (m : mapping) (d : list rgb_segment) (tail : bytes) :
  NoDup (map to_upper (filter isValidHexColor (map fst m))) ->
  rgb_doc_ok d tail ->
  ReplaceSrgbColors (render_rgb srgb_element d tail) m = render_rgb (rgb_conv m) d tail.
Proof.
  intros Hnd [Hd Ht].
  assert (Hid : (forall h, hex_target m h = None) ->
                render_rgb srgb_element d tail = render_rgb (rgb_conv m) d tail).
  { intros H. apply render_rgb_ext. intros sg _. unfold rgb_conv. rewrite H. reflexivity. }
  unfold ReplaceSrgbColors. destruct (is_empty_map m) eqn:Hm.
  - apply Hid. destruct m; [intros h; reflexivity|discriminate].
  - cbv zeta. destruct (is_empty_map (hex_mapping m)) eqn:Hh.
    + apply Hid. intros h. rewrite <- (hex_mapping_lookup m h Hnd).
      destruct (hex_mapping m); [reflexivity|discriminate].
    + clear Hid. rewrite emit_all by reflexivity.
      induction Hd as [|sg d [H1 [H2 [H3 H4]]] Hd IH].
      * apply emit_tail; [reflexivity|exact srgb_needs_lt|exact Ht].
      * cbn [render_rgb]. rewrite rgb_emit by assumption. rewrite IH.
        unfold rgb_conv. rewrite hex_mapping_lookup by exact Hnd. reflexivity.
Qed.

Lemma ReplaceSrgbColors_document_witness :
  let m := mk [("ff0000", "accent2"); ("00FF00", "abcdef")]%string in
  let d := [{| r_text := lit "x"; r_ns := lit "a"; r_hex := lit "FF0000" |};
            {| r_text := []; r_ns := lit "p"; r_hex := lit "00ff00" |};
            {| r_text := []; r_ns := lit "a"; r_hex := lit "123456" |}] in
  ReplaceSrgbColors (render_rgb srgb_element d (lit " end")) m
  = lit "x<a:schemeClr val=`accent2`/><p:srgbClr val=`ABCDEF`/><a:srgbClr val=`123456`/> end".
Proof.
  intros m d. rewrite ReplaceSrgbColors_document.
  - vm_compute. reflexivity.
  - constructor; [|constructor; [intros []|constructor]].
    intros [H|[]]. discriminate H.
  - split; [|vm_compute; intuition discriminate].
    constructor; [|constructor; [|constructor; [|constructor]]];
      (split; [vm_compute; intuition discriminate|]);
      (split; [reflexivity|]);
      (split; [apply (index_of_None (lit "srgbClr")); reflexivity|reflexivity]).
Defined.

(** X12: take a mapping string whose comma-separated entries are
    [l1 ++ d :: l2], where an entry [e] of [l1] reads [x:y] and [d] reads
    [x:z] (around white space).  When [y = z] the string parses exactly as the
    string without [d] (same table, or same error).  When [y <> z] and [z] is
    a valid colour, parsing fails: with the conflict error for [x] naming [y]
    and [z] when the entries before [d] parse, and otherwise with the error of
    the first bad entry before [d].  Sources are compared as the bytes
    left after trimming. *)
Theorem ParseColorMapping_duplicate_or_conflict (l1 l2 : list bytes) (e d x y z : bytes) :
  Forall (fun w => ~ In ","%char w) (l1 ++ d :: l2) ->
  In e l1 -> pair_of e = Some (x, y) -> pair_of d = Some (x, z) ->
  (y = z ->
   ParseColorMapping (join [","%char] (l1 ++ d :: l2))
   = ParseColorMapping (join [","%char] (l1 ++ l2))) /\
  (y <> z -> isValidColor z = true ->
   ParseColorMapping (join [","%char] (l1 ++ d :: l2))
   = match parse_pairs l1 [] with Ok _ => Err (ErrConflict x y z) | Err err => Err err end).
Proof.
  intros Hf Hin He Hd.
  assert (Hf' : Forall (fun w => ~ In ","%char w) (l1 ++ l2)).
  { apply Forall_app in Hf as [H1 H2]. inversion H2; subst. apply Forall_app; split; assumption. }
  assert (Hex : forall r, Exists (fun w => In ":"%char w) (l1 ++ r)).
  { intros r. apply Exists_exists. exists e. split; [apply in_or_app; left; exact Hin|].
    exact (pair_of_colon _ _ _ He). }
  rewrite (ParseColorMapping_entries _ Hf (Hex _)), parse_pairs_app.
  split.
  - intros <-. rewrite (ParseColorMapping_entries _ Hf' (Hex _)), parse_pairs_app.
    destruct (parse_pairs l1 []) as [a|err] eqn:H1; [|reflexivity].
    destruct (parse_pairs_entry _ _ _ _ _ _ H1 Hin He) as [Hl [Hx Hy]].
    rewrite (parse_pairs_cons_pair _ _ _ _ _ Hd Hx Hy), Hl, bytes_eqb_refl. reflexivity.
  - intros Hyz Hz.
    destruct (parse_pairs l1 []) as [a|err] eqn:H1; [|reflexivity].
    destruct (parse_pairs_entry _ _ _ _ _ _ H1 Hin He) as [Hl [Hx _]].
    rewrite (parse_pairs_cons_pair _ _ _ _ _ Hd Hx Hz), Hl.
    destruct (bytes_eqb y z) eqn:E; [apply bytes_eqb_eq in E; congruence|reflexivity].
Qed.

Lemma ParseColorMapping_duplicate_or_conflict_witness :
  ParseColorMapping (join [","%char] ([lit "accent1:accent2"; nbsp ++ lit "dk1:lt1"]
                                      ++ [lit " accent1 : accent3"]))
  = Err (ErrConflict (lit "accent1") (lit "accent2") (lit "accent3")).
Proof.
  refine (eq_trans (proj2 (ParseColorMapping_duplicate_or_conflict
                             [lit "accent1:accent2"; nbsp ++ lit "dk1:lt1"] []
                             (lit "accent1:accent2") (lit " accent1 : accent3")
                             (lit "accent1") (lit "accent2") (lit "accent3") _ _ _ _) _ _) _).
  - repeat constructor; simpl; intuition discriminate.
  - left; reflexivity.
  - vm_compute. reflexivity.
  - vm_compute. reflexivity.
  - discriminate.
  - vm_compute. reflexivity.
  - vm_compute. reflexivity.
Defined.
